(** * Parallel tetrahedra neighbours (examples/tetrahedra_neighbours.c)

    A shallow embedding of [SetNgb], [ParNgb1] and [ParNgb2]: C [int]s are
    modelled as [Z], C arrays as lists indexed by [Z], and the two parallel
    loops as explicit state passing over the shared tables.  The command
    line of [main] is embedded as well, its C strings as [String.string]. *)

From Stdlib Require Import ZArith List Bool Lia Reals Lra.
From Stdlib Require String.
Import ListNotations String.StringSyntax.
Local Open Scope Z_scope.
Delimit Scope string_scope with string.
Bind Scope string_scope with String.string.

(** ** Machine integers and arrays *)

(** Two's-complement reduction of [x] to a signed [w]-bit integer. *)
Definition wrap (w x : Z) : Z := (x + 2 ^ (w - 1)) mod 2 ^ w - 2 ^ (w - 1).

(** [Zseq a n] is the list [a; a+1; ...] of length [n]: the values taken by
    the control variable of [for(i=a; i<a+n; i++)]. *)
Definition Zseq (a : Z) (n : nat) : list Z :=
  map (fun k => a + Z.of_nat k) (seq 0 n).

(** The values of [for(i=a; i<=b; i++)]. *)
Definition Zrange (a b : Z) : list Z := Zseq a (Z.to_nat (b - a + 1)).

Section Arrays.
Context {A : Type}.

(** Array read [l[k]]; [d] stands for cells that were never allocated. *)
Definition rd (d : A) (l : list A) (k : Z) : A :=
  if k <? 0 then d else nth (Z.to_nat k) l d.

Fixpoint upd (l : list A) (n : nat) (v : A) : list A :=
  match l, n with
  | [], _ => []
  | _ :: l', O => v :: l'
  | x :: l', S n' => x :: upd l' n' v
  end.

(** Array write [l[k] = v]; a write outside the list leaves it unchanged. *)
Definition wr (l : list A) (k : Z) (v : A) : list A :=
  if k <? 0 then l else upd l (Z.to_nat k) v.
End Arrays.

(** ** Structures *)

(** [TetSct]: [int idx[4], ref]. *)
Record TetSct := mkTet { tv0 : Z; tv1 : Z; tv2 : Z; tv3 : Z; ref : Z }.

(** [t.idx[k]] for a position [k] in 0..3.  The positions that the code
    uses are loop indices, stored positions or a [mid] that [face1] and
    [face2] check to lie below 4, so the last branch stands for [k = 3]. *)
Definition idx (t : TetSct) (k : Z) : Z :=
  match k with
  | 0 => tv0 t
  | 1 => tv1 t
  | 2 => tv2 t
  | _ => tv3 t
  end.

(** [TriSct]: [int idx[3], ref]. *)
Record TriSct := mkTri { tri_idx : list Z; tri_ref : Z }.

(** [HshSct]: one slot of a worker's hash table. *)
Record HshSct := mkHsh {
  htet : Z; voy : Z; hmin : Z; hmid : Z; hmax : Z; nex : Z }.

(** A slot as [calloc] leaves it. *)
Definition hsh0 : HshSct := mkHsh 0 0 0 0 0 0.

Definition tet0 : TetSct := mkTet 0 0 0 0 0.

(** [msh->tet[i]]: the array has [NmbTet+1] cells, cell 0 is allocated by
    [malloc] and never written, so the head of the list is arbitrary. *)
Definition tet_at (tets : list TetSct) (i : Z) : TetSct := rd tet0 tets i.

(** ** Face canonicalisation (the loop shared by [ParNgb1] and [ParNgb2]) *)

(** One iteration of [for(k=0;k<4;k++) if(k != j) {...}] on [(min, max)]. *)
Definition canon_step (t : TetSct) (j : Z) (mm : Z * Z) (k : Z) : Z * Z :=
  if k =? j then mm
  else if idx t k <? idx t (fst mm) then (k, snd mm)
  else if idx t k >? idx t (snd mm) then (fst mm, k)
  else mm.

(** [min = max = (j+1)%4], the loop, then [mid = 6 - min - max - j] in
    [unsigned int] arithmetic.  The result is [(min, mid, max)]. *)
Definition canon (t : TetSct) (j : Z) : Z * Z * Z :=
  let s := (j + 1) mod 4 in
  let mm := fold_left (canon_step t j) [0; 1; 2; 3] (s, s) in
  (fst mm, (6 - fst mm - snd mm - j) mod 2 ^ 32, snd mm).

(** The canonical face key [(t.idx[min], t.idx[mid], t.idx[max])]. *)
Definition ckey (t : TetSct) (j : Z) : Z * Z * Z :=
  let '(mn, md, mx) := canon t j in (idx t mn, idx t md, idx t mx).

(** The four vertex indices of a tet are pairwise distinct. *)
Definition distinct_tet (t : TetSct) : Prop :=
  tv0 t <> tv1 t /\ tv0 t <> tv2 t /\ tv0 t <> tv3 t /\
  tv1 t <> tv2 t /\ tv1 t <> tv3 t /\ tv2 t <> tv3 t.

(** ** Results of the model

    The C code has no error path; the model flags the two ways in which a
    run can leave defined behaviour, so that theorems can state their
    absence. *)
Inductive res (A : Type) : Type :=
| Ok (a : A)
| OutOfBounds  (* an access outside a hash table, or a [mid] above 3 *)
| OutOfFuel.   (* a chain walk longer than the table it walks *)
Arguments Ok {A} a.
Arguments OutOfBounds {A}.
Arguments OutOfFuel {A}.

Definition bind {A B : Type} (m : res A) (f : A -> res B) : res B :=
  match m with
  | Ok a => f a
  | OutOfBounds => OutOfBounds
  | OutOfFuel => OutOfFuel
  end.

Notation "x <- m ;; k" := (bind m (fun x => k))
  (at level 61, m at next level, right associativity).

(** A [for] loop whose body may fail. *)
Fixpoint foldM {A S : Type} (f : S -> A -> res S) (l : list A) (s : S)
  : res S :=
  match l with
  | [] => Ok s
  | a :: l' => s' <- f s a ;; foldM f l' s'
  end.

(** ** Parallel parameters and shared tables *)

(** [ParSct], without the pointers [FlgTab], [NgbTab] and [msh] that every
    worker shares: those live in [State]. *)
Record ParSct := mkPar {
  beg : Z; end_ : Z; NmbCpu : Z;
  HshSiz : Z; HshMsk : Z; ColPos : Z;
  tab : list HshSct }.

Definition par0 : ParSct := mkPar 0 0 0 0 0 0 [].

(** The memory the workers share: [par[]], [FlgTab[NmbTet+1]] and
    [NgbTab[NmbTet+1][4]], the latter laid out row by row as in C. *)
Record State := mkState {
  par : list ParSct; FlgTab : list Z; NgbTab : list Z }.

(** The offset of [NgbTab[i][j]]. *)
Definition cell (i j : Z) : Z := 4 * i + j.

(** [NgbTab[i][j]]. *)
Definition ngb (Ngb : list Z) (i j : Z) : Z := rd 0 Ngb (cell i j).

(** [0 <= k < length l]: the index [k] is inside the allocation [l]. *)
Definition inb {A : Type} (l : list A) (k : Z) : bool :=
  (0 <=? k) && (k <? Z.of_nat (length l)).

(** ** Hashing *)

(** [(31*v_min + 7*v_mid + 3*v_max) & HshMsk], in 64-bit arithmetic, which
    cannot overflow on 32-bit vertex indices. *)
Definition hash (msk : Z) (k : Z * Z * Z) : Z :=
  let '(a, b, c) := k in Z.land (31 * a + 7 * b + 3 * c) msk.

(** [BasKey] of [ParNgb2]: the same expression in [int] arithmetic, masked
    and stored in an [int]. *)
Definition hash32 (msk : Z) (k : Z * Z * Z) : Z :=
  let '(a, b, c) := k in
  wrap 32 (Z.land (wrap 32 (31 * a + 7 * b + 3 * c)) msk).

(** The test [ngb->idx[tab[key].min] == tet->idx[min] && ...] of both
    phases; [k] is the canonical key of the face being processed. *)
Definition same_face (tets : list TetSct) (s : HshSct) (k : Z * Z * Z)
  : bool :=
  let ngb := tet_at tets (htet s) in
  let '(a, b, c) := k in
  (idx ngb (hmin s) =? a) && (idx ngb (hmid s) =? b)
  && (idx ngb (hmax s) =? c).

(** The five assignments [tab[key].tet = i; ... tab[key].max = max]. *)
Definition store (s : HshSct) (i j : Z) (pos : Z * Z * Z) : HshSct :=
  let '(mn, md, mx) := pos in mkHsh i j mn md mx (nex s).

Definition set_nex (s : HshSct) (n : Z) : HshSct :=
  mkHsh (htet s) (voy s) (hmin s) (hmid s) (hmax s) n.

(** ** Phase one: [ParNgb1] *)

(** What worker [c] reads and writes during phase one: its own table and
    cursor, and the shared tables. *)
Record Loc := mkLoc {
  ltab : list HshSct; lColPos : Z; lFlg : list Z; lNgb : list Z }.

(** [char] increment [FlgTab[i]++]. *)
Definition incr (Flg : list Z) (i : Z) : list Z :=
  wr Flg i (wrap 8 (rd 0 Flg i + 1)).

(** The four statements that link face [j] of tet [i] with the face stored
    in slot [s]. *)
Definition link (i j : Z) (s : HshSct) (w : Loc) : Loc :=
  let Ngb1 := wr (lNgb w) (cell i j) (htet s) in
  let Flg1 := incr (lFlg w) i in
  let Ngb2 := wr Ngb1 (cell (htet s) (voy s)) i in
  let Flg2 := incr Flg1 (htet s) in
  mkLoc (ltab w) (lColPos w) Flg2 Ngb2.

(** The [else] branch at the end of a chain: slot [key] is linked to a new
    slot taken at [ColPos] in the overflow region, which receives the
    face. *)
Definition append1 (i j : Z) (pos : Z * Z * Z) (key : Z) (w : Loc)
  : res Loc :=
  let s := rd hsh0 (ltab w) key in
  let cp := lColPos w in
  if negb (inb (ltab w) cp) then OutOfBounds else
  let tab1 := wr (ltab w) key (set_nex s cp) in
  let tab2 := wr tab1 cp (store (rd hsh0 tab1 cp) i j pos) in
  Ok (mkLoc tab2 (cp + 1) (lFlg w) (lNgb w)).

(** The [do ... while(1)] loop of [ParNgb1], entered at slot [key]. *)
Fixpoint walk1 (fuel : nat) (tets : list TetSct) (i j : Z)
  (pos k : Z * Z * Z) (key : Z) (w : Loc) : res Loc :=
  match fuel with
  | O => OutOfFuel
  | S fuel' =>
      if negb (inb (ltab w) key) then OutOfBounds else
      let s := rd hsh0 (ltab w) key in
      if same_face tets s k then Ok (link i j s w)
      else if negb (nex s =? 0) then walk1 fuel' tets i j pos k (nex s) w
      else append1 i j pos key w
  end.

(** The body of [for(j=0;j<4;j++)] in [ParNgb1]. *)
Definition face1 (tets : list TetSct) (msk : Z) (i : Z) (w : Loc) (j : Z)
  : res Loc :=
  let t := tet_at tets i in
  let '(mn, md, mx) := canon t j in
  if negb (md <? 4) then OutOfBounds else
  let k := (idx t mn, idx t md, idx t mx) in
  let key := hash msk k in
  if negb (inb (ltab w) key) then OutOfBounds else
  let s := rd hsh0 (ltab w) key in
  if htet s =? 0 then
    Ok (mkLoc (wr (ltab w) key (store s i j (mn, md, mx)))
              (lColPos w) (lFlg w) (lNgb w))
  else walk1 (length (ltab w)) tets i j (mn, md, mx) k key w.

(** The body of [for(i=par[c].beg; i<=par[c].end; i++)] in [ParNgb1]. *)
Definition tet1 (tets : list TetSct) (msk : Z) (w : Loc) (i : Z) : res Loc :=
  foldM (face1 tets msk i) [0; 1; 2; 3] w.

(** [ParNgb1(BegIdx, EndIdx, c, par)]: the table is allocated by
    [calloc(5 * HshSiz)], the loops run, and [par[c]] keeps the table and
    the cursor. *)
Definition ParNgb1 (tets : list TetSct) (c : Z) (st : State) : res State :=
  let p := rd par0 (par st) c in
  let w0 := mkLoc (repeat hsh0 (Z.to_nat (5 * HshSiz p))) (ColPos p)
                  (FlgTab st) (NgbTab st) in
  w <- foldM (tet1 tets (HshMsk p)) (Zrange (beg p) (end_ p)) w0 ;;
  Ok (mkState
        (wr (par st) c
            (mkPar (beg p) (end_ p) (NmbCpu p) (HshSiz p) (HshMsk p)
                   (lColPos w) (ltab w)))
        (lFlg w) (lNgb w)).

(** ** Phase two: [ParNgb2] *)

(** The [do ... while(1)] loop of [ParNgb2] in the table of another worker;
    [key] is an [int] there, so [tab[key].nex] is truncated to 32 bits. *)
Fixpoint walk2 (fuel : nat) (tets : list TetSct) (tb : list HshSct)
  (k : Z * Z * Z) (key : Z) : res (option Z) :=
  match fuel with
  | O => OutOfFuel
  | S fuel' =>
      if negb (inb tb key) then OutOfBounds else
      let s := rd hsh0 tb key in
      if same_face tets s k then Ok (Some (htet s))
      else if negb (nex s =? 0) then walk2 fuel' tets tb k (wrap 32 (nex s))
      else Ok None
  end.

(** One iteration of [for(n=0; n<par[c].NmbCpu; n++)]; [found] is [Some m]
    once [flg] is set and [NgbTab[i][j] = m] has been written, after which
    the loop is left. *)
Definition probe (tets : list TetSct) (pars : list ParSct) (c : Z)
  (k : Z * Z * Z) (BasKey : Z) (found : option Z) (n : Z)
  : res (option Z) :=
  match found with
  | Some m => Ok (Some m)
  | None =>
      if n =? c then Ok None
      else
        let tb := tab (rd par0 pars n) in
        walk2 (length tb) tets tb k BasKey
  end.

(** The body of [for(j=0;j<4;j++)] in [ParNgb2]. *)
Definition face2 (tets : list TetSct) (c : Z) (i : Z) (st : State) (j : Z)
  : res State :=
  if negb (ngb (NgbTab st) i j =? 0) then Ok st else
  let p := rd par0 (par st) c in
  let t := tet_at tets i in
  let '(mn, md, mx) := canon t j in
  if negb (md <? 4) then OutOfBounds else
  let k := (idx t mn, idx t md, idx t mx) in
  let BasKey := hash32 (HshMsk p) k in
  found <- foldM (probe tets (par st) c k BasKey)
                 (Zseq 0 (Z.to_nat (NmbCpu p))) None ;;
  match found with
  | Some m => Ok (mkState (par st) (FlgTab st) (wr (NgbTab st) (cell i j) m))
  | None => Ok st
  end.

(** The body of [for(i=par[c].beg; i<=par[c].end; i++)] in [ParNgb2]. *)
Definition tet2 (tets : list TetSct) (c : Z) (st : State) (i : Z)
  : res State :=
  if rd 0 (FlgTab st) i =? 4 then Ok st
  else foldM (face2 tets c i) [0; 1; 2; 3] st.

Definition ParNgb2 (tets : list TetSct) (c : Z) (st : State) : res State :=
  let p := rd par0 (par st) c in
  foldM (tet2 tets c) (Zrange (beg p) (end_ p)) st.

(** ** [SetNgb] *)

(** [MshSct], restricted to the tetrahedra and the triangles. [tri] holds
    [msh->tri[1..NmbTri]]; cell 0 of the C array is never used. *)
Record MshSct := mkMsh {
  NmbTet : Z; tet : list TetSct; NmbTri : Z; tri : list TriSct }.

(** The argument of [ceil] in
    [dec = ceil(log(1. + 2. * NmbTet / NmbCpu) / log(2))], as a real
    number. *)
Definition dec_arg (T N : Z) : R :=
  (ln (1 + 2 * IZR T / IZR N) / ln 2)%R.

(** The ceiling of [dec_arg] (see [dec_exact_is_ceil]), computed on
    integers as the least [d] with [1 + 2*NmbTet/NmbCpu <= 2^d]; the
    argument of [Z.log2_up] is the ceiling of [1 + 2*NmbTet/NmbCpu]. *)
Definition dec_exact (T N : Z) : Z := Z.log2_up (1 + (2 * T + N - 1) / N).

(** The exponents [k] for which the quotient [log(2^k) / log(2)] of the
    two C doubles lies above [k], so that [ceil] returns [k + 1]: with
    IEEE doubles and the [log] of the C library these are 29 and 31 among
    the exponents 0..31 that an [int] [NmbTet] can reach. *)
Definition log_overshoots (k : Z) : bool := (k =? 29) || (k =? 31).

(** [dec] itself, in the double arithmetic of the code.  The argument
    [x = 1. + 2. * NmbTet / NmbCpu] is a multiple of [1 / NmbCpu]; when it
    is not a power of two it lies far enough from one for the rounding of
    [log] not to change the ceiling, which is [dec_exact].  When [x] is
    [2^k], the quotient is [k] or just above [k], as [log_overshoots]
    tells. *)
Definition dec (T N : Z) : Z :=
  if (N + 2 * T =? N * 2 ^ dec_exact T N) && log_overshoots (dec_exact T N)
  then dec_exact T N + 1
  else dec_exact T N.

(** [HshSiz = 1LL << dec]. *)
Definition hsh_siz (T N : Z) : Z := Z.shiftl 1 (dec T N).

(** [MshSiz = msh->NmbTet / NmbCpu], a C integer division. *)
Definition MshSiz (T N : Z) : Z := Z.quot T N.

(** The loop [for(i=0;i<NmbCpu;i++)] that fills [par[i]], followed by
    [par[NmbCpu-1].end = msh->NmbTet]. *)
Definition par_init (T N : Z) (i : Z) : ParSct :=
  mkPar (i * MshSiz T N + 1) ((i + 1) * MshSiz T N) N
        (hsh_siz T N) (hsh_siz T N - 1) (hsh_siz T N) [].

Definition set_end (p : ParSct) (e : Z) : ParSct :=
  mkPar (beg p) e (NmbCpu p) (HshSiz p) (HshMsk p) (ColPos p) (tab p).

Definition setup_par (T N : Z) : list ParSct :=
  let l := map (par_init T N) (Zseq 0 (Z.to_nat N)) in
  wr l (N - 1) (set_end (rd par0 l (N - 1)) T).

(** The state before the first launch: both shared tables come from
    [calloc]. *)
Definition init_state (T N : Z) : State :=
  mkState (setup_par T N)
          (repeat 0 (Z.to_nat (T + 1)))
          (repeat 0 (Z.to_nat (4 * (T + 1)))).

(** Modelled from the spec: [LaunchParallel] is part of the library
    (lplib3.c), which is not among the sources.  Every worker of the pool
    runs the procedure once, with its own worker id in [0, NmbCpu); the
    workers share no cell that one of them writes during a launch (see the
    frame properties below), so a launch is modelled by the runs taken one
    after the other, in the order [sched]. *)
Definition LaunchSched (prc : Z -> State -> res State) (sched : list Z)
  (st : State) : res State :=
  foldM (fun s c => prc c s) sched st.

(** [sched] is an order of the workers [0 .. N-1]. *)
Definition schedule (N : Z) (sched : list Z) : Prop :=
  NoDup sched /\ forall c, In c sched <-> 0 <= c < N.

(** The launch that takes the workers in increasing id. *)
Definition LaunchParallel (prc : Z -> State -> res State) (N : Z)
  (st : State) : res State :=
  LaunchSched prc (Zseq 0 (Z.to_nat N)) st.

(** The two launches of [SetNgb], the workers running in the orders [s1]
    and [s2]. *)
Definition neighbours_sched (msh : MshSct) (N : Z) (s1 s2 : list Z)
  : res State :=
  st1 <- LaunchSched (ParNgb1 (tet msh)) s1 (init_state (NmbTet msh) N) ;;
  if 1 <? N then LaunchSched (ParNgb2 (tet msh)) s2 st1 else Ok st1.

Definition neighbours (msh : MshSct) (N : Z) : res State :=
  st1 <- LaunchParallel (ParNgb1 (tet msh)) N
           (init_state (NmbTet msh) N) ;;
  if 1 <? N then LaunchParallel (ParNgb2 (tet msh)) N st1 else Ok st1.

(** *** Boundary extraction *)

Definition tvpf : list (list Z) := [[1; 2; 3]; [2; 0; 3]; [3; 0; 1]; [0; 2; 1]].

(** The guard of both extraction loops:
    [!(NgbIdx = NgbTab[i][j]) || (tet[i].ref != tet[NgbIdx].ref && i > NgbIdx)]. *)
Definition is_bnd (tets : list TetSct) (Ngb : list Z) (i j : Z) : bool :=
  let NgbIdx := ngb Ngb i j in
  (NgbIdx =? 0)
  || (negb (ref (tet_at tets i) =? ref (tet_at tets NgbIdx)) && (i >? NgbIdx)).

(** The first pair of loops, which only counts. *)
Definition count_row (tets : list TetSct) (Ngb : list Z) (n i : Z) : Z :=
  fold_left (fun n j => if is_bnd tets Ngb i j then n + 1 else n)
            [0; 1; 2; 3] n.

Definition count_tri (tets : list TetSct) (Ngb : list Z) (T : Z) : Z :=
  fold_left (count_row tets Ngb) (Zrange 1 T) 0.

(** The triangle written for face [j] of tet [i]. *)
Definition mk_tri (tets : list TetSct) (Ngb : list Z) (i j : Z) : TriSct :=
  mkTri (map (fun k => idx (tet_at tets i) (rd 0 (rd [] tvpf j) k)) [0; 1; 2])
        (if ngb Ngb i j =? 0 then 0 else 1).

(** The second pair of loops, on [(msh->NmbTri, msh->tri)]. *)
Definition fill_row (tets : list TetSct) (Ngb : list Z)
  (a : Z * list TriSct) (i : Z) : Z * list TriSct :=
  fold_left
    (fun a j =>
       if is_bnd tets Ngb i j
       then (fst a + 1, snd a ++ [mk_tri tets Ngb i j])
       else a)
    [0; 1; 2; 3] a.

Definition fill_tri (tets : list TetSct) (Ngb : list Z) (T : Z)
  : Z * list TriSct :=
  fold_left (fill_row tets Ngb) (Zrange 1 T) (0, []).

(** [SetNgb(msh, LibParIdx)], where [N] is the worker count that
    [GetLplibInformation] reports. *)
Definition SetNgb (msh : MshSct) (N : Z) : res MshSct :=
  st <- neighbours msh N ;;
  let a := fill_tri (tet msh) (NgbTab st) (NmbTet msh) in
  Ok (mkMsh (NmbTet msh) (tet msh) (fst a) (snd a)).

(** ** Meshes used in the examples *)

(** [mesh_of r l]: the mesh whose tets 1, 2, ... are [l]; [r] is the
    content of the unwritten cell 0. *)
Definition mesh_of (r : TetSct) (l : list TetSct) : MshSct :=
  mkMsh (Z.of_nat (length l)) (r :: l) 0 [].

(** ** Vocabulary of the statements *)

(** The faces [(i, j)] in the order in which the loops
    [for(i=a;i<=b;i++) for(j=0;j<4;j++)] visit them. *)
Definition faces (a b : Z) : list (Z * Z) :=
  flat_map (fun i => map (pair i) [0; 1; 2; 3]) (Zrange a b).

(** The guard of the extraction loops and the triangle they write, as
    functions of the face. *)
Definition bnd_face (tets : list TetSct) (Ngb : list Z) (f : Z * Z) : bool :=
  is_bnd tets Ngb (fst f) (snd f).

Definition tri_of (tets : list TetSct) (Ngb : list Z) (f : Z * Z) : TriSct :=
  mk_tri tets Ngb (fst f) (snd f).

(** The faces for which the extraction loops emit a triangle. *)
Definition emitted (tets : list TetSct) (Ngb : list Z) (T : Z)
  : list (Z * Z) :=
  filter (bnd_face tets Ngb) (faces 1 T).

(** [H] is the least power of two with [num / den <= H]. *)
Definition least_pow2_ge (num den H : Z) : Prop :=
  (exists d, 0 <= d /\ H = 2 ^ d) /\ num <= den * H /\
  forall d, 0 <= d -> num <= den * 2 ^ d -> H <= 2 ^ d.

(** Three tets without a common vertex. *)
Definition three_tets : list TetSct :=
  [mkTet 1 2 3 4 0; mkTet 5 6 7 8 0; mkTet 9 10 11 12 0].

(** Scenario S3: two tets sharing face (1,2,3), with references [a], [b]. *)
Definition two_tets (a b : Z) : list TetSct :=
  [mkTet 1 2 3 4 a; mkTet 1 2 3 5 b].

(** The state that one worker leaves on scenario S3. *)
Definition two_tets_state : State :=
  Eval vm_compute in
    match neighbours (mesh_of tet0 (two_tets 7 8)) 1 with
    | Ok st => st
    | _ => mkState [] [] []
    end.

(** What phase two, run for the tets of [lo..hi], may change from [st]. *)
Definition frame2 (lo hi : Z) (st st' : State) : Prop :=
  par st' = par st /\ FlgTab st' = FlgTab st /\
  length (NgbTab st') = length (NgbTab st) /\
  forall x, (forall i j, lo <= i <= hi -> 0 <= j < 4 -> x <> cell i j) ->
            rd 0 (NgbTab st') x = rd 0 (NgbTab st) x.

(** The canonical key of face [f = (i, j)] of the mesh. *)
Definition fkey (tets : list TetSct) (f : Z * Z) : Z * Z * Z :=
  ckey (tet_at tets (fst f)) (snd f).

(** [f] is a face of a tet of [1..T]. *)
Definition valid (T : Z) (f : Z * Z) : Prop :=
  1 <= fst f <= T /\ 0 <= snd f < 4.

(** The tet array has its [NmbTet+1] cells. *)
Definition wf_mesh (msh : MshSct) : Prop :=
  1 <= NmbTet msh /\ length (tet msh) = Z.to_nat (NmbTet msh + 1).

(** Every tet has pairwise distinct vertex indices. *)
Definition distinct_mesh (msh : MshSct) : Prop :=
  forall i, 1 <= i <= NmbTet msh -> distinct_tet (tet_at (tet msh) i).

(** Each face is shared by at most two tets: among three faces with the
    same canonical key, two belong to the same tet. *)
Definition shared_le2 (msh : MshSct) : Prop :=
  forall f g h,
    valid (NmbTet msh) f -> valid (NmbTet msh) g -> valid (NmbTet msh) h ->
    fkey (tet msh) f = fkey (tet msh) g ->
    fkey (tet msh) g = fkey (tet msh) h ->
    fst f = fst g \/ fst f = fst h \/ fst g = fst h.

(** Face [j2] of tet [m] points back to tet [i] and has the canonical key
    of face [j] of tet [i]. *)
Definition back_face (tets : list TetSct) (Ngb : list Z) (i j m j2 : Z)
  : Prop :=
  0 <= j2 < 4 /\ ngb Ngb m j2 = i /\ fkey tets (m, j2) = fkey tets (i, j).

(** The symmetry that C2 states for [NgbTab[i][j] = m]: some face of [m]
    is a back face, and no other face position of [m] holds [i]. *)
Definition unique_back_pointer (tets : list TetSct) (Ngb : list Z)
  (i j m : Z) : Prop :=
  exists j2, back_face tets Ngb i j m j2 /\
             forall j', 0 <= j' < 4 -> ngb Ngb m j' = i -> j' = j2.

(** Two different tets of the mesh have at most one face in common: when
    faces [f], [f'] of one tet have the canonical keys of faces [g], [g']
    of another tet, [f] and [f'] are the same face. *)
Definition one_common_face (msh : MshSct) : Prop :=
  forall f f' g g',
    valid (NmbTet msh) f -> valid (NmbTet msh) f' ->
    valid (NmbTet msh) g -> valid (NmbTet msh) g' ->
    fst f = fst f' -> fst g = fst g' -> fst f <> fst g ->
    fkey (tet msh) f = fkey (tet msh) g ->
    fkey (tet msh) f' = fkey (tet msh) g' ->
    snd f = snd f'.

(** ** Vocabulary of the hash-table invariants *)

(** The key that the test of [same_face] reads off slot [s]. *)
Definition skey (tets : list TetSct) (s : HshSct) : Z * Z * Z :=
  let t := tet_at tets (htet s) in
  (idx t (hmin s), idx t (hmid s), idx t (hmax s)).

(** Slot [s] stores face [f] with its canonical positions. *)
Definition holds (tets : list TetSct) (s : HshSct) (f : Z * Z) : Prop :=
  htet s = fst f /\ voy s = snd f /\
  (hmin s, hmid s, hmax s) = canon (tet_at tets (fst f)) (snd f).

(** Where a chain walk stops: on a slot with the key, or on the last slot
    of the chain. *)
Inductive found : Type :=
| Hit (s : Z)
| Miss (e : Z).

(** The walk common to both phases, without what they do at its end. *)
Fixpoint find_chain (fuel : nat) (tets : list TetSct) (tb : list HshSct)
  (k : Z * Z * Z) (key : Z) : res found :=
  match fuel with
  | O => OutOfFuel
  | S fuel' =>
      if negb (inb tb key) then OutOfBounds else
      let s := rd hsh0 tb key in
      if same_face tets s k then Ok (Hit key)
      else if negb (nex s =? 0) then find_chain fuel' tets tb k (nex s)
      else Ok (Miss key)
  end.

(** Slot [b] is on the chain that starts at slot [a]. *)
Inductive reach (tb : list HshSct) : Z -> Z -> Prop :=
| reach_refl a : reach tb a a
| reach_step a b c :
    nex (rd hsh0 tb a) = b -> b <> 0 -> reach tb b c -> reach tb a c.

(** The table [tb] of [H] buckets, with cursor [cp], stores the faces [A]:
    - the slots from [cp] on are untouched, and so are the empty buckets;
    - a used slot stores a face of [A], a used bucket is the one its key
      hashes to;
    - links go upwards into the used part of the overflow region, between
      slots of equal hash, and every overflow slot is linked from below;
    - every face of [A] sits in some slot. *)
Record tab_inv (tets : list TetSct) (msk H : Z) (tb : list HshSct) (cp : Z)
  (A : list (Z * Z)) : Prop := mk_tab_inv {
  ti_size : 0 < H /\ H <= cp <= Z.of_nat (length tb);
  ti_zero : forall s, cp <= s -> rd hsh0 tb s = hsh0;
  ti_empty : forall s, 0 <= s < H -> htet (rd hsh0 tb s) = 0 ->
             rd hsh0 tb s = hsh0;
  ti_fill : forall s, 0 <= s < cp -> htet (rd hsh0 tb s) <> 0 ->
            exists f, In f A /\ holds tets (rd hsh0 tb s) f;
  ti_prim : forall s, 0 <= s < H -> htet (rd hsh0 tb s) <> 0 ->
            hash msk (skey tets (rd hsh0 tb s)) = s;
  ti_nex : forall s, 0 <= s < cp -> nex (rd hsh0 tb s) <> 0 ->
           H <= nex (rd hsh0 tb s) < cp /\ s < nex (rd hsh0 tb s) /\
           htet (rd hsh0 tb s) <> 0 /\
           hash msk (skey tets (rd hsh0 tb s)) =
           hash msk (skey tets (rd hsh0 tb (nex (rd hsh0 tb s))));
  ti_over : forall s, H <= s < cp ->
            htet (rd hsh0 tb s) <> 0 /\
            exists p, 0 <= p < s /\ nex (rd hsh0 tb p) = s;
  ti_all : forall f, In f A ->
           fst f <> 0 /\
           exists s, 0 <= s < cp /\ holds tets (rd hsh0 tb s) f }.

(** ** Vocabulary of the phase invariants *)

Definition nzc (x : Z) : Z := if x =? 0 then 0 else 1.

(** The number of nonzero cells of row [i] of [NgbTab]. *)
Definition nz (Ngb : list Z) (i : Z) : Z :=
  nzc (ngb Ngb i 0) + nzc (ngb Ngb i 1) + nzc (ngb Ngb i 2)
  + nzc (ngb Ngb i 3).

(** During phase one, [FlgTab[i]] counts the links of tet [i]. *)
Definition flg_inv (Flg Ngb : list Z) : Prop :=
  forall i, rd 0 Flg i = nz Ngb i.

(** [g] is another face with the key of [f]. *)
Definition partners (tets : list TetSct) (f g : Z * Z) : Prop :=
  g <> f /\ fkey tets g = fkey tets f.

(** [Ngb] links the faces of [P] that have a partner in [P], and is [Ngb0]
    on all other cells. *)
Definition ngb_inv (tets : list TetSct) (Ngb0 : list Z) (P : list (Z * Z))
  (Ngb : list Z) : Prop :=
  forall i j, 0 <= j < 4 ->
    (forall g, In (i, j) P -> In g P -> partners tets (i, j) g ->
               ngb Ngb i j = fst g) /\
    ((forall g, In (i, j) P -> In g P -> ~ partners tets (i, j) g) ->
     ngb Ngb i j = ngb Ngb0 i j).

(** At most two faces of [1..T] share a key. *)
Definition at_most_two (tets : list TetSct) (T : Z) : Prop :=
  forall f g h, valid T f -> valid T g -> valid T h ->
    fkey tets f = fkey tets g -> fkey tets g = fkey tets h ->
    f = g \/ f = h \/ g = h.

(** The state of a worker of phase one after the faces [P] of its range:
    its table stores one face of [P] per key, the cursor has advanced at
    most once per face, and the shared tables link the partners of [P]. *)
Record inv1 (tets : list TetSct) (T msk H : Z) (Ngb0 : list Z)
  (P : list (Z * Z)) (w : Loc) : Prop := mk_inv1 {
  i1_tab : exists A,
      tab_inv tets msk H (ltab w) (lColPos w) A /\
      (forall f, In f A -> In f P) /\
      (forall f, In f P -> exists g, In g A /\ fkey tets g = fkey tets f);
  i1_cp : lColPos w <= H + Z.of_nat (length P);
  i1_ltab : Z.of_nat (length (ltab w)) = 5 * H;
  i1_lflg : length (lFlg w) = Z.to_nat (T + 1);
  i1_lngb : length (lNgb w) = Z.to_nat (4 * (T + 1));
  i1_ngb : ngb_inv tets Ngb0 P (lNgb w);
  i1_flg : flg_inv (lFlg w) (lNgb w) }.

(** ** Vocabulary of the global invariants *)

(** The bounds of the subdomain of worker [c], as [SetNgb] computes them. *)
Definition dbeg (T N c : Z) : Z := c * (T / N) + 1.
Definition dend (T N c : Z) : Z := if c =? N - 1 then T else (c + 1) * (T / N).

(** The faces of the subdomain of worker [c]. *)
Definition dfaces (T N c : Z) : list (Z * Z) := faces (dbeg T N c) (dend T N c).

(** Worker [c] has built its table: it stores one face per key of its
    subdomain. *)
Definition tab_ok (tets : list TetSct) (T N c : Z) (p : ParSct) : Prop :=
  exists A,
    tab_inv tets (hsh_siz T N - 1) (hsh_siz T N) (tab p) (ColPos p) A /\
    (forall f, In f A -> In f (dfaces T N c)) /\
    (forall f, In f (dfaces T N c) ->
               exists g, In g A /\ fkey tets g = fkey tets f) /\
    Z.of_nat (length (tab p)) = 5 * hsh_siz T N.

(** [par[c]] holds what [SetNgb] stored there. *)
Definition par_ok (T N c : Z) (p : ParSct) : Prop :=
  beg p = dbeg T N c /\ end_ p = dend T N c /\
  HshSiz p = hsh_siz T N /\ HshMsk p = hsh_siz T N - 1 /\ NmbCpu p = N.

(** [Ngb] links the faces that have a partner in their own subdomain, for
    the subdomains of the workers [D], and is zero elsewhere. *)
Definition ngb_local (tets : list TetSct) (T N : Z) (D : list Z)
  (Ngb : list Z) : Prop :=
  forall i j, 0 <= j < 4 ->
    (forall c g, In c D -> In (i, j) (dfaces T N c) -> In g (dfaces T N c) ->
                 partners tets (i, j) g -> ngb Ngb i j = fst g) /\
    ((forall c g, In c D -> In (i, j) (dfaces T N c) ->
                  In g (dfaces T N c) -> ~ partners tets (i, j) g) ->
     ngb Ngb i j = 0).

(** The shared state once the workers [D] have run phase one. *)
Record g1 (tets : list TetSct) (T N : Z) (D : list Z) (st : State)
  : Prop := mk_g1 {
  g1_len : length (par st) = Z.to_nat N;
  g1_par : forall c, 0 <= c < N -> par_ok T N c (rd par0 (par st) c);
  g1_todo : forall c, 0 <= c < N -> ~ In c D ->
            ColPos (rd par0 (par st) c) = hsh_siz T N;
  g1_done : forall c, In c D -> tab_ok tets T N c (rd par0 (par st) c);
  g1_lflg : length (FlgTab st) = Z.to_nat (T + 1);
  g1_lngb : length (NgbTab st) = Z.to_nat (4 * (T + 1));
  g1_flg : flg_inv (FlgTab st) (NgbTab st);
  g1_ngb : ngb_local tets T N D (NgbTab st) }.

(** Cell [f] of [Ngb] is final: it holds the tet of the partner of [f]
    among all faces of the mesh, or 0 when [f] has no partner. *)
Definition cell_final (tets : list TetSct) (T : Z) (Ngb : list Z)
  (f : Z * Z) : Prop :=
  (forall g, valid T g -> partners tets f g ->
             ngb Ngb (fst f) (snd f) = fst g) /\
  ((forall g, valid T g -> ~ partners tets f g) ->
   ngb Ngb (fst f) (snd f) = 0).

(** The shared state of phase two, started in [st1], once the faces [F]
    have been treated. *)
Record g2 (tets : list TetSct) (T : Z) (st1 : State) (F : list (Z * Z))
  (st : State) : Prop := mk_g2 {
  g2_par : par st = par st1;
  g2_flg : FlgTab st = FlgTab st1;
  g2_len : length (NgbTab st) = length (NgbTab st1);
  g2_faces : forall f, In f F -> 0 <= snd f < 4;
  g2_done : forall f, In f F -> cell_final tets T (NgbTab st) f;
  g2_todo : forall i j, ~ In (i, j) F -> 0 <= j < 4 ->
            ngb (NgbTab st) i j = ngb (NgbTab st1) i j }.

(** ** The adjacency table that the mesh determines *)

Definition face_eqb (f g : Z * Z) : bool :=
  (fst f =? fst g) && (snd f =? snd g).

Definition key_eqb (k k' : Z * Z * Z) : bool :=
  (fst (fst k) =? fst (fst k')) && (snd (fst k) =? snd (fst k'))
  && (snd k =? snd k').

(** The tet of the first face other than [f] with the key of [f], or 0. *)
Definition partner_of (tets : list TetSct) (T : Z) (f : Z * Z) : Z :=
  match find (fun g => negb (face_eqb g f)
                       && key_eqb (fkey tets g) (fkey tets f))
             (faces 1 T) with
  | Some g => fst g
  | None => 0
  end.

(** The table itself: row 0 is zero, rows [1..T] hold the partners. *)
Definition ngb_spec (tets : list TetSct) (T : Z) : list Z :=
  map (fun x => if (1 <=? x / 4) && (x / 4 <=? T)
                then partner_of tets T (x / 4, x mod 4) else 0)
      (Zseq 0 (Z.to_nat (4 * (T + 1)))).

(** The last worker owns no more tets than its table has buckets. *)
Definition last_fits (T N : Z) : Prop :=
  T - (N - 1) * (T / N) <= hsh_siz T N.

(** The slots of a table can be indexed by an [int]. *)
Definition int_indexed (T N : Z) : Prop := 5 * hsh_siz T N <= 2 ^ 31.

(** The emitted faces that lie between two tets. *)
Definition interface_faces (tets : list TetSct) (Ngb : list Z) (T : Z)
  : list (Z * Z) :=
  filter (fun f => negb (ngb Ngb (fst f) (snd f) =? 0)) (emitted tets Ngb T).

(** The state that the first launch leaves on scenario S3 with two
    workers, and the state after worker 0 has run phase two on it. *)
Definition two_tets_phase1 : State :=
  Eval vm_compute in
    match LaunchParallel (ParNgb1 (tet0 :: two_tets 7 8)) 2 (init_state 2 2) with
    | Ok st => st
    | _ => mkState [] [] []
    end.

Definition two_tets_phase2 : State :=
  Eval vm_compute in
    match ParNgb2 (tet0 :: two_tets 7 8) 0 two_tets_phase1 with
    | Ok st => st
    | _ => mkState [] [] []
    end.

(** Four tets for two workers: tets 1 and 2, both of worker 0, share
    face (1,2,3); tet 2 and tet 3 of worker 1 share face (1,2,5); tet 4
    touches no other tet. *)
Definition four_tets : list TetSct :=
  [mkTet 1 2 3 4 0; mkTet 1 2 3 5 0; mkTet 1 2 5 6 0; mkTet 7 8 9 10 0].

(** The state that the first launch leaves on [four_tets] with two
    workers, and the state after worker 0 has run phase two on it. *)
Definition four_tets_phase1 : State :=
  Eval vm_compute in
    match LaunchParallel (ParNgb1 (tet0 :: four_tets)) 2 (init_state 4 2) with
    | Ok st => st
    | _ => mkState [] [] []
    end.

Definition four_tets_phase2 : State :=
  Eval vm_compute in
    match ParNgb2 (tet0 :: four_tets) 0 four_tets_phase1 with
    | Ok st => st
    | _ => mkState [] [] []
    end.

(** Scenario S4: the cube of vertices 1..8 cut into six tets around the
    diagonal from vertex 1 to vertex 8. *)
Definition cube_tets : list TetSct :=
  [mkTet 1 2 4 8 0; mkTet 1 2 6 8 0; mkTet 1 3 4 8 0;
   mkTet 1 3 7 8 0; mkTet 1 5 6 8 0; mkTet 1 5 7 8 0].

(** The state that both launches leave on scenario S4 with eight workers,
    of which the last one owns the six tets and a table of four buckets. *)
Definition cube_state : State :=
  Eval vm_compute in
    match neighbours_sched (mesh_of tet0 cube_tets) 8
            [7; 6; 5; 4; 3; 2; 1; 0] [0; 1; 2; 3; 4; 5; 6; 7] with
    | Ok st => st
    | _ => mkState [] [] []
    end.

(** The state that one worker leaves on scenario S4. *)
Definition cube_state1 : State :=
  Eval vm_compute in
    match neighbours_sched (mesh_of tet0 cube_tets) 1 [0] [0] with
    | Ok st => st
    | _ => mkState [] [] []
    end.

(** ** Vocabulary of the frame of phase one *)

(** The used slots of [tb] store faces of the tets [lo..hi], and a link
    leads to a used slot. *)
Definition own_slots (lo hi : Z) (tb : list HshSct) : Prop :=
  (forall s, htet (rd hsh0 tb s) <> 0 ->
             lo <= htet (rd hsh0 tb s) <= hi /\
             0 <= voy (rd hsh0 tb s) < 4) /\
  (forall s, nex (rd hsh0 tb s) <> 0 ->
             htet (rd hsh0 tb (nex (rd hsh0 tb s))) <> 0).

(** What a worker of phase one that owns the tets [lo..hi] may have
    changed in the shared tables [Flg0] and [Ngb0]. *)
Definition frame1 (lo hi : Z) (Flg0 Ngb0 : list Z) (w : Loc) : Prop :=
  own_slots lo hi (ltab w) /\
  length (lFlg w) = length Flg0 /\ length (lNgb w) = length Ngb0 /\
  (forall i, ~ lo <= i <= hi -> rd 0 (lFlg w) i = rd 0 Flg0 i) /\
  (forall x, (forall i j, lo <= i <= hi -> 0 <= j < 4 -> x <> cell i j) ->
             rd 0 (lNgb w) x = rd 0 Ngb0 x).

(** ** Vocabulary of the run on an empty mesh *)

(** The shared state as it is throughout both launches when the mesh has
    no tet: every range is the empty range [1..0] and the shared tables
    are the zero row of cell 0. *)
Definition idle (N : Z) (st : State) : Prop :=
  FlgTab st = repeat 0 1 /\ NgbTab st = repeat 0 4 /\
  forall c, 0 <= c < N ->
    beg (rd par0 (par st) c) = 1 /\ end_ (rd par0 (par st) c) = 0.

(** ** The command line of [main] *)

(** How the part of [main] that reads the command line ends.  The C code
    has no error path but [exit]; the other outcomes flag the ways in
    which it can leave defined behaviour. *)
Inductive run (A : Type) : Type :=
| Ret (a : A)      (* control goes on *)
| Exit (code : Z)  (* [exit(code)] *)
| NullArg          (* the [NULL] that ends [argv] is read as a string *)
| NameTooLong      (* [strcpy] or [strcat] writes past a [char[1000]] *)
| PastArgv         (* [argv] is read beyond its final [NULL] *)
| Spin.            (* the loop has not ended within its fuel *)
Arguments Ret {A} a.
Arguments Exit {A} code.
Arguments NullArg {A}.
Arguments NameTooLong {A}.
Arguments PastArgv {A}.
Arguments Spin {A}.

Definition and_then {A B : Type} (m : run A) (f : A -> run B) : run B :=
  match m with
  | Ret a => f a
  | Exit c => Exit c
  | NullArg => NullArg
  | NameTooLong => NameTooLong
  | PastArgv => PastArgv
  | Spin => Spin
  end.

Notation "x <~ m ;; k" := (and_then m (fun x => k))
  (at level 61, m at next level, right associativity).

(** The macros [MAX] and [MIN]. *)
Definition MAX (a b : Z) : Z := if a >? b then a else b.
Definition MIN (a b : Z) : Z := if a <? b then a else b.

(** [strstr(hay, needle) != NULL]: [needle] occurs in [hay]. *)
Fixpoint strstr (hay needle : String.string) : bool :=
  String.prefix needle hay ||
  match hay with
  | String.EmptyString => false
  | String.String _ h => strstr h needle
  end.

(** [strcpy(Nam, TmpStr); if(!strstr(Nam, ".mesh")) strcat(Nam, ".meshb");]
    on a buffer [char Nam[1000]], in which a string of [n] characters
    takes [n + 1] bytes. *)
Definition set_name (TmpStr : String.string) : run String.string :=
  let n := Z.of_nat (String.length TmpStr) in
  if 1000 <? n + 1 then NameTooLong
  else if strstr TmpStr ".mesh"%string then Ret TmpStr
  else if 1000 <? n + 6 + 1 then NameTooLong
  else Ret (String.append TmpStr ".meshb"%string).

(** [*++ArgVec] when [ArgVec] points to [argv[p]], for the uses of [main],
    which all read the characters of the result at once: [argv] holds
    [argc] strings followed by [NULL]. *)
Definition next_arg (argv : list String.string) (p : Z) : run String.string :=
  let q := p + 1 in
  if (0 <=? q) && (q <? Z.of_nat (length argv))
  then Ret (rd String.EmptyString argv q)
  else if q =? Z.of_nat (length argv) then NullArg
  else PastArgv.

(** What the command line sets: the two file names and the thread count
    [NmbCpu] of [main]. *)
Record Args := mkArgs {
  InpNam : String.string; OutNam : String.string; nproc : Z }.

Section Main.
(** [atoi] belongs to the C library; the model is parametric in it. *)
Variable atoi : String.string -> Z.

(** The loop [for(i=2;i<=ArgCnt;i++)] of [main], with [ArgVec] pointing to
    [argv[p]]. *)
Fixpoint parse (fuel : nat) (argv : list String.string) (i ArgCnt p : Z)
  (a : Args) : run Args :=
  match fuel with
  | O => Spin
  | S fuel' =>
      if negb (i <=? ArgCnt) then Ret a else
      PtrArg <~ next_arg argv p ;;
      if String.eqb PtrArg "-in"%string then
        TmpStr <~ next_arg argv (p + 1) ;;
        nam <~ set_name TmpStr ;;
        parse fuel' argv (i + 1) (ArgCnt - 1) (p + 2)
              (mkArgs nam (OutNam a) (nproc a))
      else if String.eqb PtrArg "-out"%string then
        TmpStr <~ next_arg argv (p + 1) ;;
        nam <~ set_name TmpStr ;;
        parse fuel' argv (i + 1) (ArgCnt - 1) (p + 2)
              (mkArgs (InpNam a) nam (nproc a))
      else if String.eqb PtrArg "-nproc"%string then
        TmpStr <~ next_arg argv (p + 1) ;;
        parse fuel' argv (i + 1) (ArgCnt - 1) (p + 2)
              (mkArgs (InpNam a) (OutNam a) (MIN (MAX (atoi TmpStr) 1) 128))
      else parse fuel' argv (i + 1) ArgCnt (p + 1) a
  end.

(** The loop as [main] enters it. *)
Definition parse_args (argv : list String.string) (a : Args) : run Args :=
  parse (S (length argv)) argv 2 (Z.of_nat (length argv)) 0 a.

(** [main] from its entry to the call of [ScaMsh]: the usage text and
    [exit(0)] without argument, the loop, and the two tests
    [if(!strlen(InpNam))] and [if(!strlen(OutNam))].  [InpNam] and [OutNam]
    are automatic arrays that [main] does not initialise: [junk_in] and
    [junk_out] stand for the strings they hold on entry.  A result [Ret a]
    means that [main] goes on with [ScaMsh(InpNam, ...)],
    [InitParallel(NmbCpu)] and, later, [RecMsh(OutNam, ...)]. *)
Definition main_cmdline (argv : list String.string)
  (junk_in junk_out : String.string) : run Args :=
  if Z.of_nat (length argv) =? 1 then Exit 0 else
  a <~ parse_args argv (mkArgs junk_in junk_out 0) ;;
  if (String.length (InpNam a) =? 0)%nat then Exit 1
  else if (String.length (OutNam a) =? 0)%nat then Exit 1
  else Ret a.

(** The reading of the arguments that follow [argv[0]], from left to
    right, as a recursion on the arguments left. *)
Fixpoint scan (l : list String.string) (a : Args) : run Args :=
  match l with
  | [] => Ret a
  | x :: l' =>
      if String.eqb x "-in"%string then
        match l' with
        | [] => NullArg
        | v :: l'' =>
            nam <~ set_name v ;; scan l'' (mkArgs nam (OutNam a) (nproc a))
        end
      else if String.eqb x "-out"%string then
        match l' with
        | [] => NullArg
        | v :: l'' =>
            nam <~ set_name v ;; scan l'' (mkArgs (InpNam a) nam (nproc a))
        end
      else if String.eqb x "-nproc"%string then
        match l' with
        | [] => NullArg
        | v :: l'' =>
            scan l'' (mkArgs (InpNam a) (OutNam a)
                             (MIN (MAX (atoi v) 1) 128))
        end
      else scan l' a
  end.
End Main.

(** [x] is one of the three options of [main]. *)
Definition is_flag (x : String.string) : bool :=
  String.eqb x "-in"%string || String.eqb x "-out"%string
  || String.eqb x "-nproc"%string.

(** ** Vocabulary of the bounds of the tables *)

(** The links of the table [tb] of [H] buckets and cursor [cp] go upwards
    and stay below the cursor, which is inside the table. *)
Definition chained (H cp : Z) (tb : list HshSct) : Prop :=
  0 < H /\ H <= cp <= Z.of_nat (length tb) /\
  forall s, nex (rd hsh0 tb s) <> 0 -> s < nex (rd hsh0 tb s) < cp.

(** A worker of phase one after the faces [P]: its cursor has advanced at
    most once per face. *)
Definition safe1 (H : Z) (P : list (Z * Z)) (w : Loc) : Prop :=
  chained H (lColPos w) (ltab w) /\
  Z.of_nat (length (ltab w)) = 5 * H /\
  lColPos w <= H + Z.of_nat (length P).

(** [par[]] once the workers [D] have run phase one. *)
Definition built (T N : Z) (D : list Z) (st : State) : Prop :=
  length (par st) = Z.to_nat N /\
  forall c, 0 <= c < N ->
    par_ok T N c (rd par0 (par st) c) /\
    (~ In c D -> ColPos (rd par0 (par st) c) = hsh_siz T N) /\
    (In c D ->
     chained (hsh_siz T N) (ColPos (rd par0 (par st) c))
             (tab (rd par0 (par st) c)) /\
     Z.of_nat (length (tab (rd par0 (par st) c))) = 5 * hsh_siz T N).

(** * Properties *)

(** ** Canonicalisation is a three-element sort *)

Ltac split_cmp :=
  repeat (cbn [fold_left Z.eqb Pos.eqb fst snd idx tv0 tv1 tv2 tv3];
          rewrite ?Z.gtb_ltb;
          match goal with
          | |- context [?a <? ?b] =>
              is_var a; is_var b; destruct (Z.ltb_spec a b)
          end).

Lemma canon_sorted (t : TetSct) (j : Z) :
  distinct_tet t -> 0 <= j < 4 ->
  let '(mn, md, mx) := canon t j in
  0 <= mn < 4 /\ 0 <= md < 4 /\ 0 <= mx < 4 /\
  mn <> j /\ md <> j /\ mx <> j /\ mn <> md /\ md <> mx /\ mn <> mx /\
  md = 6 - mn - mx - j /\
  idx t mn < idx t md < idx t mx.
Proof.
  intros D Hj. destruct t as [a b c d r].
  unfold distinct_tet in D; simpl in D.
  assert (Hc : j = 0 \/ j = 1 \/ j = 2 \/ j = 3) by lia.
  destruct Hc as [-> | [-> | [-> | ->]]];
    unfold canon, canon_step;
    change ((0 + 1) mod 4) with 1; change ((1 + 1) mod 4) with 2;
    change ((2 + 1) mod 4) with 3; change ((3 + 1) mod 4) with 0;
    split_cmp; cbn [fold_left Z.eqb Pos.eqb fst snd idx tv0 tv1 tv2 tv3];
    try lia.
  all: match goal with |- context [?x mod 2 ^ 32] =>
         let y := eval vm_compute in (x mod 2 ^ 32) in
         change (x mod 2 ^ 32) with y end.
  all: cbn [idx tv0 tv1 tv2 tv3]; lia.
Qed.

(** The loop computes the positions of the smallest and of the largest
    vertex index of the face, and [mid] is the position left over. *)
Lemma canon_bounds (t : TetSct) (j : Z) :
  distinct_tet t -> 0 <= j < 4 ->
  forall k, 0 <= k < 4 -> k <> j ->
  let '(mn, md, mx) := canon t j in
  (k = mn \/ k = md \/ k = mx) /\ idx t mn <= idx t k <= idx t mx.
Proof.
  intros D Hj k Hk Hkj.
  pose proof (canon_sorted t j D Hj) as S.
  destruct (canon t j) as [[mn md] mx].
  assert (E : k = mn \/ k = md \/ k = mx) by lia.
  split; [exact E|].
  destruct E as [-> | [-> | ->]]; lia.
Qed.

(** ** Arrays *)

Section ArrayFacts.
Context {A : Type}.
Implicit Types (l : list A) (d v : A).

Lemma length_upd l n v : length (upd l n v) = length l.
Proof.
  revert n; induction l as [|x l IH]; intros [|n]; simpl; auto.
Qed.

Lemma length_wr l k v : length (wr l k v) = length l.
Proof. unfold wr. destruct (k <? 0); auto using length_upd. Qed.

Lemma nth_upd_same l n v d : (n < length l)%nat -> nth n (upd l n v) d = v.
Proof.
  revert n; induction l as [|x l IH]; intros [|n] H; simpl in *;
    try lia; auto. apply IH; lia.
Qed.

Lemma nth_upd_other l n m v d : n <> m -> nth m (upd l n v) d = nth m l d.
Proof.
  revert n m; induction l as [|x l IH]; intros [|n] [|m] H; simpl;
    try congruence; auto.
Qed.

Lemma rd_wr_same l k v d :
  0 <= k < Z.of_nat (length l) -> rd d (wr l k v) k = v.
Proof.
  intros H. unfold rd, wr.
  destruct (Z.ltb_spec k 0); [lia|]. apply nth_upd_same. lia.
Qed.

Lemma rd_wr_other l k k' v d : k <> k' -> rd d (wr l k v) k' = rd d l k'.
Proof.
  intros H. unfold rd, wr.
  destruct (Z.ltb_spec k' 0); auto.
  destruct (Z.ltb_spec k 0); auto.
  apply nth_upd_other. lia.
Qed.

Lemma rd_outside l k d : Z.of_nat (length l) <= k -> rd d l k = d.
Proof.
  intros H. unfold rd. destruct (Z.ltb_spec k 0); auto.
  apply nth_overflow. lia.
Qed.

Lemma wr_outside l k v : Z.of_nat (length l) <= k -> wr l k v = l.
Proof.
  intros H. unfold wr. destruct (Z.ltb_spec k 0); auto.
  assert (G : (length l <= Z.to_nat k)%nat) by lia.
  clear H H0. revert G. generalize (Z.to_nat k).
  induction l as [|x l IH]; intros [|n] G; simpl in *; auto; try lia.
  f_equal. apply IH. lia.
Qed.

Lemma rd_repeat d n k : rd d (repeat d n) k = d.
Proof.
  unfold rd. destruct (k <? 0); auto.
  generalize (Z.to_nat k). induction n; intros [|m]; simpl; auto.
Qed.

Lemma inb_true l k : inb l k = true <-> 0 <= k < Z.of_nat (length l).
Proof. unfold inb. rewrite andb_true_iff, Z.leb_le, Z.ltb_lt. tauto. Qed.
End ArrayFacts.

Lemma length_Zseq a n : length (Zseq a n) = n.
Proof. unfold Zseq. now rewrite length_map, length_seq. Qed.

Lemma In_Zseq a n x : In x (Zseq a n) <-> a <= x < a + Z.of_nat n.
Proof.
  unfold Zseq. rewrite in_map_iff. split.
  - intros (k & <- & H). apply in_seq in H. lia.
  - intros H. exists (Z.to_nat (x - a)). split; [lia|]. apply in_seq. lia.
Qed.

Lemma In_Zrange a b x : In x (Zrange a b) <-> a <= x <= b.
Proof. unfold Zrange. rewrite In_Zseq. lia. Qed.

Lemma Zseq_S a n : Zseq a (S n) = a :: Zseq (a + 1) n.
Proof.
  unfold Zseq. simpl. f_equal; [lia|].
  rewrite <- seq_shift, map_map. apply map_ext. intros; lia.
Qed.

Lemma NoDup_Zseq a n : NoDup (Zseq a n).
Proof.
  revert a; induction n; intros a; [constructor|].
  rewrite Zseq_S. constructor; auto. rewrite In_Zseq. lia.
Qed.

Lemma rd_map_Zseq {A : Type} (f : Z -> A) (d : A) (n : nat) (k : Z) :
  0 <= k < Z.of_nat n -> rd d (map f (Zseq 0 n)) k = f k.
Proof.
  intros H. unfold rd. destruct (Z.ltb_spec k 0); [lia|].
  rewrite nth_indep with (d' := f 0) by (rewrite length_map, length_Zseq; lia).
  rewrite map_nth. f_equal. unfold Zseq.
  rewrite nth_indep with (d' := 0 + Z.of_nat 0%nat)
    by (rewrite length_map, length_seq; lia).
  rewrite (map_nth (fun k => 0 + Z.of_nat k)), seq_nth by lia. lia.
Qed.

(** ** Subdomains *)

Lemma setup_par_length (T N : Z) :
  length (setup_par T N) = Z.to_nat N.
Proof.
  unfold setup_par. now rewrite length_wr, length_map, length_Zseq.
Qed.

Lemma setup_par_rd (T N c : Z) :
  0 <= c < N ->
  rd par0 (setup_par T N) c =
  if c =? N - 1 then set_end (par_init T N c) T else par_init T N c.
Proof.
  intros H. unfold setup_par.
  destruct (Z.eqb_spec c (N - 1)) as [->|Hne].
  - rewrite rd_wr_same by (rewrite length_map, length_Zseq; lia).
    now rewrite rd_map_Zseq by lia.
  - rewrite rd_wr_other by lia. now rewrite rd_map_Zseq by lia.
Qed.

Lemma setup_par_range (T N c : Z) :
  0 <= c < N ->
  let p := rd par0 (setup_par T N) c in
  beg p = c * MshSiz T N + 1 /\
  end_ p = (if c =? N - 1 then T else (c + 1) * MshSiz T N) /\
  HshSiz p = hsh_siz T N /\ HshMsk p = hsh_siz T N - 1 /\
  NmbCpu p = N.
Proof.
  intros H. cbv zeta. rewrite setup_par_rd by lia.
  destruct (c =? N - 1); simpl; auto.
Qed.

(** C6: for [NmbTet >= 1] and [NmbCpu] in [1,128], every tet index of
    [1..NmbTet] lies in the range [[par[c].beg, par[c].end]] of exactly one
    worker [c], and every range stays inside [1..NmbTet]. *)
Theorem subdomains_partition (T N : Z) :
  1 <= T -> 1 <= N <= 128 ->
  (forall k, 1 <= k <= T ->
     exists c, 0 <= c < N /\
       beg (rd par0 (setup_par T N) c) <= k <= end_ (rd par0 (setup_par T N) c) /\
       forall c', 0 <= c' < N ->
         beg (rd par0 (setup_par T N) c') <= k
           <= end_ (rd par0 (setup_par T N) c') ->
         c' = c) /\
  (forall c k, 0 <= c < N ->
     beg (rd par0 (setup_par T N) c) <= k <= end_ (rd par0 (setup_par T N) c) ->
     1 <= k <= T).
Proof.
  intros HT HN.
  assert (HM : MshSiz T N = T / N) by (apply Z.quot_div_nonneg; lia).
  assert (HM0 : 0 <= T / N) by (apply Z.div_pos; lia).
  assert (HMN : N * (T / N) <= T) by (apply Z.mul_div_le; lia).
  assert (R : forall c, 0 <= c < N ->
            beg (rd par0 (setup_par T N) c) = c * (T / N) + 1 /\
            end_ (rd par0 (setup_par T N) c) =
              if c =? N - 1 then T else (c + 1) * (T / N)).
  { intros c Hc. destruct (setup_par_range T N c Hc) as (-> & -> & _).
    now rewrite HM. }
  split.
  - intros k Hk.
    set (M := T / N) in *.
    destruct (Z.eq_dec M 0) as [M0|M0].
    + exists (N - 1). split; [lia|].
      destruct (R (N - 1)) as (-> & ->); [lia|]. rewrite Z.eqb_refl.
      split; [nia|].
      intros c' Hc'. destruct (R c' Hc') as (-> & ->).
      destruct (Z.eqb_spec c' (N - 1)); [lia|]. nia.
    + assert (Hq : M * ((k - 1) / M) <= k - 1 < M * ((k - 1) / M + 1)).
      { pose proof (Z.mul_div_le (k - 1) M).
        pose proof (Z.mul_succ_div_gt (k - 1) M). lia. }
      assert (Hq0 : 0 <= (k - 1) / M) by (apply Z.div_pos; lia).
      set (q := (k - 1) / M) in *.
      destruct (Z_lt_le_dec q (N - 1)) as [Hlt|Hge].
      * exists q. split; [lia|].
        destruct (R q) as (-> & ->); [lia|].
        destruct (Z.eqb_spec q (N - 1)); [lia|]. split; [nia|].
        intros c' Hc'. destruct (R c' Hc') as (-> & ->).
        destruct (Z.eqb_spec c' (N - 1)); nia.
      * exists (N - 1). split; [lia|].
        destruct (R (N - 1)) as (-> & ->); [lia|]. rewrite Z.eqb_refl.
        split; [nia|].
        intros c' Hc'. destruct (R c' Hc') as (-> & ->).
        destruct (Z.eqb_spec c' (N - 1)); [lia|]. nia.
  - intros c k Hc. destruct (R c Hc) as (-> & ->).
    destruct (Z.eqb_spec c (N - 1)); nia.
Qed.

Lemma subdomains_partition_witness :
  (exists c, 0 <= c < 4 /\
     beg (rd par0 (setup_par 10 4) c) <= 7 <= end_ (rd par0 (setup_par 10 4) c) /\
     forall c', 0 <= c' < 4 ->
       beg (rd par0 (setup_par 10 4) c') <= 7
         <= end_ (rd par0 (setup_par 10 4) c') ->
       c' = c).
Proof.
  apply (proj1 (subdomains_partition 10 4 ltac:(lia) ltac:(lia)) 7). lia.
Defined.

(** C4: for a tet with pairwise distinct vertex indices and a face position
    [j] in 0..3, the canonicalisation loop yields [min] and [max] with
    [t.idx[min]] the smallest and [t.idx[max]] the largest vertex index of
    the face opposite [j], and [mid = 6 - min - max - j] is the remaining
    position of 0..3, different from [j], [min] and [max], so [t.idx[mid]]
    lies strictly between them. *)
Theorem canon_min_mid_max (t : TetSct) (j : Z) :
  distinct_tet t -> 0 <= j < 4 ->
  let '(mn, md, mx) := canon t j in
  (forall k, 0 <= k < 4 -> k <> j -> idx t mn <= idx t k <= idx t mx) /\
  0 <= mn < 4 /\ 0 <= mx < 4 /\ mn <> j /\ mx <> j /\
  md = 6 - mn - mx - j /\ 0 <= md < 4 /\
  md <> j /\ md <> mn /\ md <> mx /\
  idx t mn < idx t md < idx t mx.
Proof.
  intros D Hj.
  pose proof (canon_sorted t j D Hj) as S.
  pose proof (canon_bounds t j D Hj) as B.
  destruct (canon t j) as [[mn md] mx].
  split; [intros k Hk Hkj; apply (B k Hk Hkj)|].
  repeat split; try lia.
Qed.

Lemma canon_min_mid_max_witness :
  let '(mn, md, mx) := canon (mkTet 40 10 30 20 0) 1 in
  (forall k, 0 <= k < 4 -> k <> 1 ->
     idx (mkTet 40 10 30 20 0) mn <= idx (mkTet 40 10 30 20 0) k
       <= idx (mkTet 40 10 30 20 0) mx) /\
  0 <= mn < 4 /\ 0 <= mx < 4 /\ mn <> 1 /\ mx <> 1 /\
  md = 6 - mn - mx - 1 /\ 0 <= md < 4 /\
  md <> 1 /\ md <> mn /\ md <> mx /\
  idx (mkTet 40 10 30 20 0) mn < idx (mkTet 40 10 30 20 0) md
    < idx (mkTet 40 10 30 20 0) mx.
Proof.
  apply (canon_min_mid_max (mkTet 40 10 30 20 0) 1).
  - unfold distinct_tet; simpl; lia.
  - lia.
Defined.

(** ** Hash size and hash key *)

Lemma dec_exact_nonneg (T N : Z) : 0 <= dec_exact T N.
Proof. apply Z.log2_up_nonneg. Qed.

(** [dec] is [dec_exact], or one more where the logarithm overshoots. *)
Lemma dec_cases (T N : Z) :
  (dec T N = dec_exact T N /\
   (N + 2 * T = N * 2 ^ dec_exact T N ->
    log_overshoots (dec_exact T N) = false)) \/
  (dec T N = dec_exact T N + 1 /\
   N + 2 * T = N * 2 ^ dec_exact T N /\
   log_overshoots (dec_exact T N) = true).
Proof.
  unfold dec.
  destruct (Z.eqb_spec (N + 2 * T) (N * 2 ^ dec_exact T N)) as [E|E];
    cbn [andb].
  - destruct (log_overshoots (dec_exact T N)) eqn:O; [right|left]; auto.
  - left. split; [reflexivity|]. intros X. contradiction.
Qed.

Lemma dec_nonneg (T N : Z) : 0 <= dec T N.
Proof.
  pose proof (dec_exact_nonneg T N).
  destruct (dec_cases T N) as [(-> & _)|(-> & _)]; lia.
Qed.

Lemma hsh_siz_pow2 (T N : Z) : hsh_siz T N = 2 ^ dec T N.
Proof.
  unfold hsh_siz. rewrite Z.shiftl_mul_pow2 by apply dec_nonneg. lia.
Qed.

Lemma hsh_siz_pos (T N : Z) : 0 < hsh_siz T N.
Proof. rewrite hsh_siz_pow2. apply Z.pow_pos_nonneg; [lia|apply dec_nonneg]. Qed.

(** [(2T + N - 1) / N] is the ceiling of [2T / N]. *)
Lemma ceil_le (T N x : Z) :
  0 < N -> ((2 * T + N - 1) / N <= x <-> 2 * T <= N * x).
Proof.
  intros HN.
  pose proof (Z.mul_div_le (2 * T + N - 1) N HN).
  pose proof (Z.mul_succ_div_gt (2 * T + N - 1) N HN).
  split; intros; nia.
Qed.

(** [dec_exact] is the least exponent [d] with [1 + 2T/N <= 2^d]. *)
Lemma dec_exact_least (T N : Z) :
  0 <= T -> 1 <= N ->
  N + 2 * T <= N * 2 ^ dec_exact T N /\
  forall d, 0 <= d -> N + 2 * T <= N * 2 ^ d -> dec_exact T N <= d.
Proof.
  intros HT HN. unfold dec_exact.
  set (a := 1 + (2 * T + N - 1) / N).
  assert (Ha : 0 < a).
  { unfold a. assert (0 <= (2 * T + N - 1) / N) by (apply Z.div_pos; lia). lia. }
  assert (Hle : forall d, 0 <= d -> (N + 2 * T <= N * 2 ^ d <-> a <= 2 ^ d)).
  { intros d Hd. unfold a.
    pose proof (ceil_le T N (2 ^ d - 1) ltac:(lia)). lia. }
  split.
  - apply Hle; [apply Z.log2_up_nonneg|].
    apply Z.log2_up_le_pow2; [lia|]. lia.
  - intros d Hd Hb. apply Z.log2_up_le_pow2; [lia|]. now apply Hle.
Qed.

(** The exact exponent of a power of two. *)
Lemma dec_exact_pow2 (T N k : Z) :
  0 <= T -> 1 <= N -> 0 <= k -> N + 2 * T = N * 2 ^ k -> dec_exact T N = k.
Proof.
  intros HT HN Hk E. destruct (dec_exact_least T N HT HN) as (Hu & Hl).
  pose proof (dec_exact_nonneg T N) as H0.
  specialize (Hl k Hk ltac:(lia)).
  destruct (Z_lt_le_dec (dec_exact T N) k) as [X|X]; [|lia].
  pose proof (Z.pow_lt_mono_r 2 (dec_exact T N) k ltac:(lia) Hk X). nia.
Qed.

(** [HshSiz] is at least [1 + 2T/N] and at most twice that. *)
Lemma dec_ge (T N : Z) :
  0 <= T -> 1 <= N -> N + 2 * T <= N * 2 ^ dec T N.
Proof.
  intros HT HN. destruct (dec_exact_least T N HT HN) as (Hu & _).
  pose proof (dec_exact_nonneg T N) as H0.
  destruct (dec_cases T N) as [(-> & _)|(-> & _)]; [exact Hu|].
  rewrite Z.pow_add_r by lia. change (2 ^ 1) with 2.
  assert (0 < 2 ^ dec_exact T N) by (apply Z.pow_pos_nonneg; lia). nia.
Qed.

Lemma dec_exact_lt (T N : Z) :
  0 <= T -> 1 <= N -> N * 2 ^ dec_exact T N < 2 * N + 4 * T.
Proof.
  intros HT HN. destruct (dec_exact_least T N HT HN) as (Lo & Min).
  pose proof (dec_exact_nonneg T N) as D0.
  destruct (Z.eq_dec (dec_exact T N) 0) as [E|E].
  - rewrite E. change (2 ^ 0) with 1. lia.
  - destruct (Z_le_gt_dec (N + 2 * T) (N * 2 ^ (dec_exact T N - 1)))
      as [X|X].
    + specialize (Min (dec_exact T N - 1) ltac:(lia) X). lia.
    + replace (dec_exact T N) with (dec_exact T N - 1 + 1) at 1 by lia.
      rewrite Z.pow_add_r by lia. change (2 ^ 1) with 2. lia.
Qed.

Lemma dec_le (T N : Z) :
  0 <= T -> 1 <= N -> N * 2 ^ dec T N <= 2 * N + 4 * T.
Proof.
  intros HT HN. pose proof (dec_exact_lt T N HT HN) as Lt.
  pose proof (dec_exact_nonneg T N) as H0.
  destruct (dec_cases T N) as [(-> & _)|(-> & E & _)]; [lia|].
  rewrite Z.pow_add_r by lia. change (2 ^ 1) with 2. lia.
Qed.

Lemma hsh_siz_ge (T N : Z) :
  0 <= T -> 1 <= N -> N + 2 * T <= N * hsh_siz T N.
Proof. intros HT HN. rewrite hsh_siz_pow2. now apply dec_ge. Qed.

(** Where the logarithm does not overshoot, [HshSiz] is the least power
    of two that is at least [1 + 2T/N]. *)
Lemma hsh_siz_least (T N : Z) :
  0 <= T -> 1 <= N -> dec T N = dec_exact T N ->
  least_pow2_ge (N + 2 * T) N (hsh_siz T N).
Proof.
  intros HT HN Ed. rewrite hsh_siz_pow2, Ed.
  destruct (dec_exact_least T N HT HN) as (Hu & Hl).
  split; [|split].
  - exists (dec_exact T N). split; [apply dec_exact_nonneg|reflexivity].
  - exact Hu.
  - intros d Hd Hb. apply Z.pow_le_mono_r; [lia|]. now apply Hl.
Qed.

(** *** The exponent as a real logarithm *)

Lemma ln_2_pos : (0 < ln 2)%R.
Proof. rewrite <- ln_1. apply ln_increasing; lra. Qed.

Lemma ln_pow2 (d : Z) : 0 <= d -> (ln (IZR (2 ^ d)) = IZR d * ln 2)%R.
Proof.
  intros Hd. rewrite <- (Z2Nat.id d Hd) at 1. rewrite <- pow_IZR.
  rewrite ln_pow by lra. rewrite INR_IZR_INZ, Z2Nat.id by lia. reflexivity.
Qed.

(** [dec_exact T N] is the ceiling of [log(1 + 2T/N) / log(2)]. *)
Lemma dec_exact_is_ceil (T N : Z) :
  0 <= T -> 1 <= N ->
  (IZR (dec_exact T N) - 1 < dec_arg T N <= IZR (dec_exact T N))%R.
Proof.
  intros HT HN. destruct (dec_exact_least T N HT HN) as (Hu & Hl).
  pose proof (dec_exact_nonneg T N) as Hd. set (d := dec_exact T N) in *.
  pose proof ln_2_pos as L2.
  assert (HNr : (0 < IZR N)%R) by (apply IZR_lt; lia).
  assert (HTr : (0 <= IZR T)%R) by (apply IZR_le; lia).
  set (x := (1 + 2 * IZR T / IZR N)%R).
  assert (Ex : (x * IZR N = IZR (N + 2 * T))%R).
  { unfold x. rewrite plus_IZR, mult_IZR. field. lra. }
  assert (Hx1 : (1 <= x)%R).
  { unfold x. assert (0 <= 2 * IZR T / IZR N)%R; [|lra].
    apply Rmult_le_pos; [lra|]. apply Rlt_le, Rinv_0_lt_compat, HNr. }
  assert (Up : (x <= IZR (2 ^ d))%R).
  { apply (Rmult_le_reg_r (IZR N)); [exact HNr|]. rewrite Ex.
    rewrite <- mult_IZR. apply IZR_le. lia. }
  unfold dec_arg. fold x. split.
  - apply (Rmult_lt_reg_r (ln 2)); [exact L2|].
    unfold Rdiv. rewrite Rmult_assoc, Rinv_l by lra. rewrite Rmult_1_r.
    destruct (Z_lt_le_dec d 1) as [Hd0|Hd1].
    + assert (E0 : d = 0) by lia. rewrite E0.
      assert (0 <= ln x)%R.
      { destruct (Req_dec x 1) as [->|Hne]; [rewrite ln_1; lra|].
        rewrite <- ln_1. apply Rlt_le, ln_increasing; lra. }
      lra.
    + assert (Lo : (IZR (2 ^ (d - 1)) < x)%R).
      { apply (Rmult_lt_reg_r (IZR N)); [exact HNr|]. rewrite Ex.
        rewrite <- mult_IZR. apply IZR_lt.
        destruct (Z_lt_le_dec (N * 2 ^ (d - 1)) (N + 2 * T)) as [|X]; [lia|].
        specialize (Hl (d - 1) ltac:(lia) ltac:(lia)). lia. }
      assert (P : (0 < IZR (2 ^ (d - 1)))%R).
      { apply IZR_lt. apply Z.pow_pos_nonneg; lia. }
      pose proof (ln_increasing _ _ P Lo) as Q.
      rewrite ln_pow2 in Q by lia. rewrite minus_IZR in Q. lra.
  - apply (Rmult_le_reg_r (ln 2)); [exact L2|].
    unfold Rdiv. rewrite Rmult_assoc, Rinv_l by lra. rewrite Rmult_1_r.
    rewrite <- ln_pow2 by lia.
    destruct (Req_dec x (IZR (2 ^ d))) as [->|Hne]; [lra|].
    apply Rlt_le, ln_increasing; lra.
Qed.

(** At a power of two the logarithm is the exponent. *)
Lemma dec_arg_pow2 (T N k : Z) :
  1 <= N -> 0 <= k -> N + 2 * T = N * 2 ^ k -> dec_arg T N = IZR k.
Proof.
  intros HN Hk E. pose proof ln_2_pos as L2.
  assert (HNr : (0 < IZR N)%R) by (apply IZR_lt; lia).
  assert (Ex : (1 + 2 * IZR T / IZR N = IZR (2 ^ k))%R).
  { apply (Rmult_eq_reg_r (IZR N)); [|lra].
    assert (Er : (IZR (2 ^ k) * IZR N = IZR N + 2 * IZR T)%R).
    { rewrite <- mult_IZR. replace (2 ^ k * N) with (N + 2 * T) by lia.
      rewrite plus_IZR, mult_IZR. reflexivity. }
    rewrite Er. field. lra. }
  unfold dec_arg. rewrite Ex, ln_pow2 by lia. field. lra.
Qed.

Lemma land_mask (x d : Z) : 0 <= d -> Z.land x (2 ^ d - 1) = x mod 2 ^ d.
Proof.
  intros Hd. rewrite <- Z.land_ones by lia. now rewrite Z.ones_equiv, <- Z.sub_1_r.
Qed.

Lemma hash_mod (T N : Z) (k : Z * Z * Z) :
  hash (hsh_siz T N - 1) k =
  (31 * fst (fst k) + 7 * snd (fst k) + 3 * snd k) mod hsh_siz T N.
Proof.
  destruct k as [[a b] c]. unfold hash. rewrite hsh_siz_pow2.
  apply land_mask, dec_nonneg.
Qed.

(** C5, as the code has it, for [NmbTet] and [NmbCpu] in the range of
    [int]: [HshSiz = 2^dec] is a power of two that is at
    least [1 + 2 * NmbTet / NmbCpu] and at most twice that.  It is the
    least such power of two, [dec] being the ceiling of
    [log(1 + 2 * NmbTet / NmbCpu) / log(2)], unless
    [1 + 2 * NmbTet / NmbCpu] is a power of two [2^k] at which the
    quotient of the two double logarithms lies above [k] (29 and 31):
    there [ceil] returns [k + 1] and [HshSiz] is [2^(k+1)].  Every [par[c]]
    holds [HshSiz] together with [HshMsk = HshSiz - 1], and the key of a
    canonical face is [(31*v_min + 7*v_mid + 3*v_max) mod HshSiz]. *)
Theorem hash_size_and_key (T N : Z) :
  0 <= T < 2 ^ 31 -> 1 <= N < 2 ^ 31 ->
  hsh_siz T N = 2 ^ dec T N /\
  N + 2 * T <= N * hsh_siz T N <= 2 * N + 4 * T /\
  (forall k, 0 <= k -> N + 2 * T = N * 2 ^ k -> log_overshoots k = true ->
     dec_arg T N = IZR k /\ dec T N = k + 1 /\ hsh_siz T N = 2 ^ (k + 1)) /\
  ((forall k, 0 <= k -> N + 2 * T = N * 2 ^ k -> log_overshoots k = false) ->
     (IZR (dec T N) - 1 < dec_arg T N <= IZR (dec T N))%R /\
     least_pow2_ge (N + 2 * T) N (hsh_siz T N)) /\
  (forall c, 0 <= c < N ->
     HshSiz (rd par0 (setup_par T N) c) = hsh_siz T N /\
     HshMsk (rd par0 (setup_par T N) c) = hsh_siz T N - 1) /\
  forall v_min v_mid v_max,
    hash (hsh_siz T N - 1) (v_min, v_mid, v_max) =
    (31 * v_min + 7 * v_mid + 3 * v_max) mod hsh_siz T N.
Proof.
  intros (HT & _) (HN & _). split; [apply hsh_siz_pow2|].
  split; [rewrite hsh_siz_pow2; split; [now apply dec_ge|now apply dec_le]|].
  split; [|split; [|split]].
  - intros k Hk E O.
    pose proof (dec_exact_pow2 T N k HT HN Hk E) as Ek.
    assert (Ed : dec T N = k + 1).
    { destruct (dec_cases T N) as [(_ & X)|(-> & _)]; [|lia].
      rewrite Ek in X. rewrite (X E) in O. discriminate. }
    split; [now apply dec_arg_pow2|]. split; [exact Ed|].
    now rewrite hsh_siz_pow2, Ed.
  - intros No.
    assert (Ed : dec T N = dec_exact T N).
    { destruct (dec_cases T N) as [(-> & _)|(_ & E & O)]; [reflexivity|].
      rewrite (No _ (dec_exact_nonneg T N) E) in O. discriminate. }
    split; [rewrite Ed; now apply dec_exact_is_ceil|].
    now apply hsh_siz_least.
  - intros c Hc. destruct (setup_par_range T N c Hc) as (_ & _ & -> & -> & _).
    auto.
  - intros a b c. apply (hash_mod T N (a, b, c)).
Qed.

Lemma hash_size_and_key_witness :
  hsh_siz 2 1 = 2 ^ dec 2 1 /\
  1 + 2 * 2 <= 1 * hsh_siz 2 1 <= 2 * 1 + 4 * 2 /\
  (forall k, 0 <= k -> 1 + 2 * 2 = 1 * 2 ^ k -> log_overshoots k = true ->
     dec_arg 2 1 = IZR k /\ dec 2 1 = k + 1 /\ hsh_siz 2 1 = 2 ^ (k + 1)) /\
  ((forall k, 0 <= k -> 1 + 2 * 2 = 1 * 2 ^ k -> log_overshoots k = false) ->
     (IZR (dec 2 1) - 1 < dec_arg 2 1 <= IZR (dec 2 1))%R /\
     least_pow2_ge (1 + 2 * 2) 1 (hsh_siz 2 1)) /\
  (forall c, 0 <= c < 1 ->
     HshSiz (rd par0 (setup_par 2 1) c) = hsh_siz 2 1 /\
     HshMsk (rd par0 (setup_par 2 1) c) = hsh_siz 2 1 - 1) /\
  forall v_min v_mid v_max,
    hash (hsh_siz 2 1 - 1) (v_min, v_mid, v_max) =
    (31 * v_min + 7 * v_mid + 3 * v_max) mod hsh_siz 2 1.
Proof. apply (hash_size_and_key 2 1); lia. Defined.

(** At [NmbTet = 2^29 - 1] and two workers [1 + 2 * NmbTet / NmbCpu] is
    [2^29], where the logarithm overshoots: [HshSiz] is [2^30]. *)
Lemma hash_size_overshoot :
  dec_exact (2 ^ 29 - 1) 2 = 29 /\ dec (2 ^ 29 - 1) 2 = 30 /\
  hsh_siz (2 ^ 29 - 1) 2 = 2 ^ 30.
Proof. repeat split; vm_compute; reflexivity. Qed.

(** C5 as stated fails for two tets and one worker: 4 is a power of two
    and is at least [2 * 2 / 1], but [HshSiz] is 8. *)
Lemma hash_size_not_least_above_twice_load :
  hsh_siz 2 1 = 8 /\ ~ least_pow2_ge (2 * 2) 1 (hsh_siz 2 1).
Proof.
  split; [reflexivity|].
  intros (_ & _ & L). specialize (L 2 ltac:(lia) ltac:(lia)).
  change (hsh_siz 2 1) with 8 in L. lia.
Qed.

(** ** Boundary extraction *)

Section Extraction.
Variables (tets : list TetSct) (Ngb : list Z).

Lemma fill_inner (i : Z) (js : list Z) (a : Z * list TriSct) :
  fold_left
    (fun a j =>
       if is_bnd tets Ngb i j
       then (fst a + 1, snd a ++ [mk_tri tets Ngb i j]) else a)
    js a =
  (fst a + Z.of_nat (length (filter (bnd_face tets Ngb) (map (pair i) js))),
   snd a ++ map (tri_of tets Ngb)
                (filter (bnd_face tets Ngb) (map (pair i) js))).
Proof.
  revert a; induction js as [|j js IH]; intros [n l]; simpl.
  - now rewrite Z.add_0_r, app_nil_r.
  - rewrite IH. change (bnd_face tets Ngb (i, j)) with (is_bnd tets Ngb i j).
    destruct (is_bnd tets Ngb i j); cbn [fst snd length map]; [|reflexivity].
    change (tri_of tets Ngb (i, j)) with (mk_tri tets Ngb i j).
    rewrite <- app_assoc. cbn [app]. f_equal. lia.
Qed.

Lemma fill_outer (rows : list Z) (a : Z * list TriSct) :
  fold_left (fill_row tets Ngb) rows a =
  let L := filter (bnd_face tets Ngb)
                  (flat_map (fun i => map (pair i) [0; 1; 2; 3]) rows) in
  (fst a + Z.of_nat (length L), snd a ++ map (tri_of tets Ngb) L).
Proof.
  revert a; induction rows as [|i rows IH]; intros [n l].
  - simpl. now rewrite Z.add_0_r, app_nil_r.
  - cbn [fold_left flat_map]. unfold fill_row at 2.
    rewrite fill_inner, IH. cbv zeta.
    cbn [fst snd]. rewrite filter_app, length_app, map_app, app_assoc.
    f_equal. lia.
Qed.

Lemma count_inner (i : Z) (js : list Z) (n : Z) :
  fold_left (fun n j => if is_bnd tets Ngb i j then n + 1 else n) js n =
  n + Z.of_nat (length (filter (bnd_face tets Ngb) (map (pair i) js))).
Proof.
  revert n; induction js as [|j js IH]; intros n; simpl; [lia|].
  rewrite IH. change (bnd_face tets Ngb (i, j)) with (is_bnd tets Ngb i j).
  destruct (is_bnd tets Ngb i j); cbn [length]; lia.
Qed.

Lemma count_outer (rows : list Z) (n : Z) :
  fold_left (count_row tets Ngb) rows n =
  n + Z.of_nat
        (length (filter (bnd_face tets Ngb)
                        (flat_map (fun i => map (pair i) [0; 1; 2; 3]) rows))).
Proof.
  revert n; induction rows as [|i rows IH]; intros n.
  - simpl. lia.
  - cbn [fold_left flat_map]. unfold count_row at 2.
    rewrite count_inner, IH.
    rewrite filter_app, length_app. lia.
Qed.

Lemma fill_tri_spec (T : Z) :
  fill_tri tets Ngb T =
  (Z.of_nat (length (emitted tets Ngb T)),
   map (tri_of tets Ngb) (emitted tets Ngb T)).
Proof. unfold fill_tri. now rewrite fill_outer. Qed.

Lemma count_tri_spec (T : Z) :
  count_tri tets Ngb T = Z.of_nat (length (emitted tets Ngb T)).
Proof. unfold count_tri. now rewrite count_outer. Qed.
End Extraction.

Lemma In_faces (a b i j : Z) :
  In (i, j) (faces a b) <-> a <= i <= b /\ 0 <= j < 4.
Proof.
  unfold faces. rewrite in_flat_map. split.
  - intros (x & Hx & Hin). apply In_Zrange in Hx.
    simpl in Hin.
    repeat (destruct Hin as [Hin|Hin]; [inversion Hin; subst; lia|]).
    contradiction.
  - intros (Hi & Hj). exists i. split; [now apply In_Zrange|].
    assert (E : j = 0 \/ j = 1 \/ j = 2 \/ j = 3) by lia.
    simpl. destruct E as [-> | [-> | [-> | ->]]]; auto 6.
Qed.

Lemma is_bnd_true (tets : list TetSct) (Ngb : list Z) (i j : Z) :
  is_bnd tets Ngb i j = true <->
  ngb Ngb i j = 0 \/
  (ref (tet_at tets i) <> ref (tet_at tets (ngb Ngb i j)) /\ i > ngb Ngb i j).
Proof.
  unfold is_bnd.
  rewrite orb_true_iff, andb_true_iff, negb_true_iff, Z.eqb_eq, Z.eqb_neq,
    Z.gtb_ltb, Z.ltb_lt.
  lia.
Qed.

Lemma In_emitted (tets : list TetSct) (Ngb : list Z) (T i j : Z) :
  In (i, j) (emitted tets Ngb T) <->
  1 <= i <= T /\ 0 <= j < 4 /\
  (ngb Ngb i j = 0 \/
   (ref (tet_at tets i) <> ref (tet_at tets (ngb Ngb i j)) /\ i > ngb Ngb i j)).
Proof.
  unfold emitted, bnd_face. rewrite filter_In, In_faces. cbn [fst snd].
  rewrite is_bnd_true. tauto.
Qed.

(** C1: once both phases have produced the adjacency table, the extraction
    loops emit a triangle for face [j] of tet [i] exactly when
    [NgbTab[i][j] = 0], or the references of tet [i] and of its neighbour
    differ and [i] is strictly greater than the neighbour id; the triangle
    has the vertices [tet[i].idx[tvpf[j][k]]], reference 0 without a
    neighbour and 1 otherwise; and both the counting loop and the final
    [NmbTri] give the number of such faces. *)
Theorem boundary_extraction (msh : MshSct) (N : Z) (st : State) :
  neighbours msh N = Ok st ->
  let tets := tet msh in
  let Ngb := NgbTab st in
  let L := emitted tets Ngb (NmbTet msh) in
  (forall i j,
     In (i, j) L <->
     1 <= i <= NmbTet msh /\ 0 <= j < 4 /\
     (ngb Ngb i j = 0 \/
      (ref (tet_at tets i) <> ref (tet_at tets (ngb Ngb i j)) /\
       i > ngb Ngb i j))) /\
  (forall i j,
     tri_idx (mk_tri tets Ngb i j) =
       [idx (tet_at tets i) (rd 0 (rd [] tvpf j) 0);
        idx (tet_at tets i) (rd 0 (rd [] tvpf j) 1);
        idx (tet_at tets i) (rd 0 (rd [] tvpf j) 2)] /\
     tri_ref (mk_tri tets Ngb i j) = (if ngb Ngb i j =? 0 then 0 else 1)) /\
  tvpf = [[1; 2; 3]; [2; 0; 3]; [3; 0; 1]; [0; 2; 1]] /\
  count_tri tets Ngb (NmbTet msh) = Z.of_nat (length L) /\
  SetNgb msh N =
    Ok (mkMsh (NmbTet msh) tets (Z.of_nat (length L))
              (map (tri_of tets Ngb) L)).
Proof.
  intros Hn tets Ngb L. split; [|split; [|split; [|split]]].
  - intros i j. apply In_emitted.
  - intros i j. split; reflexivity.
  - reflexivity.
  - apply count_tri_spec.
  - unfold SetNgb. rewrite Hn. cbn [bind].
    fold tets Ngb. rewrite fill_tri_spec. reflexivity.
Qed.

Lemma boundary_extraction_witness :
  count_tri (tet0 :: two_tets 7 8) (NgbTab two_tets_state) 2 =
  Z.of_nat (length (emitted (tet0 :: two_tets 7 8) (NgbTab two_tets_state) 2)).
Proof.
  pose proof (boundary_extraction (mesh_of tet0 (two_tets 7 8)) 1
                two_tets_state ltac:(vm_compute; reflexivity)) as H.
  exact (proj1 (proj2 (proj2 (proj2 H)))).
Defined.

(** ** Frame of phase two *)

Lemma foldM_inv {A S : Type} (f : S -> A -> res S) (P : S -> Prop)
  (l : list A) :
  (forall s a s', In a l -> P s -> f s a = Ok s' -> P s') ->
  forall s s', P s -> foldM f l s = Ok s' -> P s'.
Proof.
  induction l as [|a l IH]; intros Hf s s' Hs E; simpl in E.
  - now inversion E; subst.
  - destruct (f s a) as [s1| |] eqn:E1; simpl in E; try discriminate.
    apply (IH (fun s a s' Hin => Hf s a s' (or_intror Hin)) s1 s'); auto.
    apply (Hf s a s1); simpl; auto.
Qed.

Lemma frame2_refl (lo hi : Z) (st : State) : frame2 lo hi st st.
Proof. unfold frame2; auto. Qed.

Lemma face2_frame (tets : list TetSct) (c lo hi i j : Z) (st0 st st' : State) :
  lo <= i <= hi -> 0 <= j < 4 ->
  frame2 lo hi st0 st -> face2 tets c i st j = Ok st' -> frame2 lo hi st0 st'.
Proof.
  intros Hi Hj (F1 & F2 & F3 & F4) E. unfold face2 in E.
  destruct (negb (ngb (NgbTab st) i j =? 0)).
  { inversion E; subst. unfold frame2; auto. }
  destruct (canon (tet_at tets i) j) as [[mn md] mx].
  destruct (negb (md <? 4)); [discriminate|].
  destruct (foldM _ _ None) as [[m|]| |]; simpl in E; try discriminate;
    inversion E; subst; clear E; unfold frame2; cbn [par FlgTab NgbTab].
  - repeat split; auto.
    + now rewrite length_wr.
    + intros x Hx. rewrite rd_wr_other; auto.
      intros <-. now apply (Hx i j).
  - auto.
Qed.

Lemma tet2_frame (tets : list TetSct) (c lo hi i : Z) (st0 st st' : State) :
  lo <= i <= hi ->
  frame2 lo hi st0 st -> tet2 tets c st i = Ok st' -> frame2 lo hi st0 st'.
Proof.
  intros Hi F E. unfold tet2 in E.
  destruct (rd 0 (FlgTab st) i =? 4); [now inversion E; subst|].
  revert E. apply foldM_inv; auto.
  intros s j s' Hin Fs Es. apply (face2_frame tets c lo hi i j st0 s s'); auto.
  simpl in Hin. lia.
Qed.

(** C8: phase two, run as worker [c], leaves [par[]] (hence every hash
    table) and [FlgTab] as they were, and changes no cell of [NgbTab] other
    than [NgbTab[i][j]] with [i] in [[par[c].beg, par[c].end]]. *)
Theorem phase_two_frame (tets : list TetSct) (c : Z) (st st' : State) :
  ParNgb2 tets c st = Ok st' ->
  par st' = par st /\ FlgTab st' = FlgTab st /\
  length (NgbTab st') = length (NgbTab st) /\
  forall x,
    (forall i j,
       beg (rd par0 (par st) c) <= i <= end_ (rd par0 (par st) c) ->
       0 <= j < 4 -> x <> cell i j) ->
    rd 0 (NgbTab st') x = rd 0 (NgbTab st) x.
Proof.
  unfold ParNgb2. intros E.
  change (frame2 (beg (rd par0 (par st) c)) (end_ (rd par0 (par st) c)) st st').
  revert E. apply foldM_inv; [|apply frame2_refl].
  intros s i s' Hin Fs Es. apply In_Zrange in Hin.
  now apply (tet2_frame tets c _ _ i st s s').
Qed.

(** ** Runs on small meshes *)

(** C7 fails on three disjoint tets and eight workers: the seven first
    workers have empty ranges, the last one owns the three tets and a
    table of [5 * HshSiz = 10] slots; after ten of its twelve faces the
    cursor [ColPos] is 10, and the eleventh face is stored in [tab[10]]. *)
Theorem phase_one_overflows_table (r : TetSct) :
  let tets := r :: three_tets in
  exists st w,
    LaunchParallel (ParNgb1 tets) 7 (init_state 3 8) = Ok st /\
    (beg (rd par0 (par st) 7), end_ (rd par0 (par st) 7),
     HshSiz (rd par0 (par st) 7), HshMsk (rd par0 (par st) 7)) = (1, 3, 2, 1) /\
    (w' <- foldM (tet1 tets 1) [1; 2]
             (mkLoc (repeat hsh0 (Z.to_nat (5 * 2))) 2 (FlgTab st) (NgbTab st)) ;;
     foldM (face1 tets 1 3) [0; 1] w') = Ok w /\
    lColPos w = 10 /\ length (ltab w) = 10%nat /\
    inb (ltab w) (lColPos w) = false /\
    face1 tets 1 3 w 2 = OutOfBounds /\
    ParNgb1 tets 7 st = OutOfBounds /\
    neighbours (mesh_of r three_tets) 8 = OutOfBounds.
Proof.
  cbv zeta. eexists. eexists.
  split; [vm_compute; reflexivity|].
  split; [vm_compute; reflexivity|].
  split; [vm_compute; reflexivity|].
  repeat split; vm_compute; reflexivity.
Qed.

(** C3 fails on the same mesh: one worker completes with an adjacency
    table, eight workers write outside the table of the last worker. *)
Theorem eight_workers_leave_defined_behaviour (r : TetSct) :
  (exists st, neighbours (mesh_of r three_tets) 1 = Ok st /\
              NgbTab st = repeat 0 16) /\
  neighbours (mesh_of r three_tets) 8 = OutOfBounds.
Proof.
  split; [eexists; split|]; vm_compute; reflexivity.
Qed.

(** C10 fails on scenario S2/S3 with two workers: after phase one, worker 0
    probes face 2 of tet 1 (key [(1,2,4)], [BasKey = 1]) in the table of
    worker 1, whose bucket 1 is empty; the walk reads [msh->tet[0]], and
    the outcome of its test is decided by that unwritten cell. *)
Theorem phase_two_reads_unwritten_tet (r : TetSct) (a b : Z) :
  let tets := r :: two_tets a b in
  exists st,
    LaunchParallel (ParNgb1 tets) 2 (init_state 2 2) = Ok st /\
    (beg (rd par0 (par st) 0), end_ (rd par0 (par st) 0)) = (1, 1) /\
    rd 0 (FlgTab st) 1 <> 4 /\
    ngb (NgbTab st) 1 2 = 0 /\
    canon (tet_at tets 1) 2 = (0, 1, 3) /\
    fkey tets (1, 2) = (1, 2, 4) /\
    hash32 (HshMsk (rd par0 (par st) 0)) (1, 2, 4) = 1 /\
    let s := rd hsh0 (tab (rd par0 (par st) 1)) 1 in
    htet s = 0 /\ tet_at tets (htet s) = r /\
    same_face tets s (1, 2, 4) =
      (tv0 r =? 1) && (tv0 r =? 2) && (tv0 r =? 4).
Proof.
  cbv zeta. eexists.
  split; [vm_compute; reflexivity|].
  repeat split; try (vm_compute; congruence).
Qed.

(** C2 as stated fails on two copies of one tet: every face is shared by
    the two tets only, and all four faces of tet 2 point back to tet 1. *)
Lemma duplicate_tet_has_four_back_pointers :
  let msh := mesh_of tet0 [mkTet 1 2 3 4 0; mkTet 1 2 3 4 0] in
  wf_mesh msh /\ distinct_mesh msh /\ shared_le2 msh /\
  exists st, neighbours msh 1 = Ok st /\
             ngb (NgbTab st) 1 0 = 2 /\
             ~ unique_back_pointer (tet msh) (NgbTab st) 1 0 2.
Proof.
  cbv zeta. split; [|split; [|split]].
  - split; [vm_compute; congruence|reflexivity].
  - intros i Hi. change (NmbTet _) with 2 in Hi.
    assert (E : i = 1 \/ i = 2) by lia.
    destruct E as [-> | ->]; vm_compute; repeat split; congruence.
  - intros f g h (Hf & _) (Hg & _) (Hh & _) _ _.
    change (NmbTet _) with 2 in *. lia.
  - eexists. split; [vm_compute; reflexivity|].
    split; [reflexivity|].
    intros (j2 & _ & U).
    assert (E0 : 0 = j2) by (apply U; [lia|reflexivity]).
    assert (E1 : 1 = j2) by (apply U; [lia|reflexivity]).
    lia.
Qed.

(** ** Chains of a hash table *)

Lemma same_face_skey (tets : list TetSct) (s : HshSct) (k : Z * Z * Z) :
  same_face tets s k = true <-> skey tets s = k.
Proof.
  unfold same_face, skey. destruct k as [[a b] c].
  rewrite !andb_true_iff, !Z.eqb_eq. split.
  - intros [[-> ->] ->]. reflexivity.
  - intros E. inversion E. auto.
Qed.

Lemma holds_skey (tets : list TetSct) (s : HshSct) (f : Z * Z) :
  holds tets s f -> skey tets s = fkey tets f.
Proof.
  intros (E1 & _ & E3). unfold skey, fkey, ckey. rewrite E1.
  destruct (canon (tet_at tets (fst f)) (snd f)) as [[mn md] mx].
  inversion E3. reflexivity.
Qed.

Lemma skey_set_nex (tets : list TetSct) (s : HshSct) (n : Z) :
  skey tets (set_nex s n) = skey tets s.
Proof. reflexivity. Qed.

Lemma holds_set_nex (tets : list TetSct) (s : HshSct) (n : Z) (f : Z * Z) :
  holds tets s f -> holds tets (set_nex s n) f.
Proof. intros H. exact H. Qed.

Lemma holds_store (tets : list TetSct) (s : HshSct) (i j : Z) :
  holds tets (store s i j (canon (tet_at tets i) j)) (i, j).
Proof.
  unfold holds, store. cbn [fst snd].
  destruct (canon (tet_at tets i) j) as [[mn md] mx].
  simpl. auto.
Qed.

Lemma walk1_find (fuel : nat) (tets : list TetSct) (i j : Z)
  (pos k : Z * Z * Z) (key : Z) (w : Loc) :
  walk1 fuel tets i j pos k key w =
  match find_chain fuel tets (ltab w) k key with
  | Ok (Hit s) => Ok (link i j (rd hsh0 (ltab w) s) w)
  | Ok (Miss e) => append1 i j pos e w
  | OutOfBounds => OutOfBounds
  | OutOfFuel => OutOfFuel
  end.
Proof.
  revert key; induction fuel as [|fuel IH]; intros key; simpl; auto.
  destruct (negb (inb (ltab w) key)); auto.
  destruct (same_face tets (rd hsh0 (ltab w) key) k); auto.
  destruct (negb (nex (rd hsh0 (ltab w) key) =? 0)); auto.
Qed.

Lemma reach_snoc (tb : list HshSct) (a b c : Z) :
  reach tb a b -> nex (rd hsh0 tb b) = c -> c <> 0 -> reach tb a c.
Proof.
  induction 1 as [a|a b' c' E Hb R IH]; intros Hn Hc.
  - eapply reach_step; eauto. constructor.
  - eapply reach_step; eauto.
Qed.

Section Chains.
Variables (tets : list TetSct) (msk H : Z) (tb : list HshSct) (cp : Z).
Variable A : list (Z * Z).
Hypothesis Inv : tab_inv tets msk H tb cp A.

Lemma reach_bounds (a b : Z) : 0 <= a < cp -> reach tb a b -> a <= b < cp.
Proof.
  intros Ha R. induction R as [a|a b c E Hb R IH]; [lia|].
  destruct (ti_nex _ _ _ _ _ _ Inv a Ha) as (B1 & B2 & _); [congruence|].
  rewrite E in *. specialize (IH ltac:(lia)). lia.
Qed.

Lemma reach_used (a b : Z) :
  0 <= a < cp -> htet (rd hsh0 tb a) <> 0 -> reach tb a b ->
  htet (rd hsh0 tb b) <> 0 /\
  hash msk (skey tets (rd hsh0 tb b)) = hash msk (skey tets (rd hsh0 tb a)).
Proof.
  intros Ha Hu R. induction R as [a|a b c E Hb R IH]; [auto|].
  destruct (ti_nex _ _ _ _ _ _ Inv a Ha) as (B1 & B2 & B3 & B4); [congruence|].
  rewrite E in *.
  destruct (ti_over _ _ _ _ _ _ Inv b ltac:(lia)) as (U & _).
  destruct (IH ltac:(lia) U) as (IH1 & IH2). split; [auto|congruence].
Qed.

(** Every used slot is on the chain of the bucket its key hashes to. *)
Lemma used_reach (Hhash : forall k, 0 <= hash msk k < H) (s : Z) :
  0 <= s < cp -> htet (rd hsh0 tb s) <> 0 ->
  reach tb (hash msk (skey tets (rd hsh0 tb s))) s /\
  htet (rd hsh0 tb (hash msk (skey tets (rd hsh0 tb s)))) <> 0.
Proof.
  intros [Hs0 Hs]. revert Hs.
  pattern s. apply Z_lt_induction; [|exact Hs0]. clear s Hs0.
  intros s IH Hs Hu.
  destruct (Z_lt_le_dec s H) as [Hp|Ho].
  - assert (0 <= s).
    { destruct (Z_lt_le_dec s 0); [|lia]. exfalso. apply Hu.
      unfold rd. destruct (Z.ltb_spec s 0); [reflexivity|lia]. }
    rewrite (ti_prim _ _ _ _ _ _ Inv s) by (auto; lia).
    split; [constructor|auto].
  - destruct (ti_over _ _ _ _ _ _ Inv s ltac:(lia)) as (_ & p & Hp & Ep).
    pose proof (ti_size _ _ _ _ _ _ Inv) as Sz.
    destruct (ti_nex _ _ _ _ _ _ Inv p ltac:(lia)) as (_ & _ & Up & Eh);
      [lia|].
    rewrite Ep in Eh. rewrite <- Eh.
    destruct (IH p ltac:(lia) ltac:(lia) Up) as (R & U0).
    split; [|exact U0]. eapply reach_snoc; eauto. lia.
Qed.

(** The walk ends when the fuel covers the used part of the table. *)
Lemma find_chain_spec (k : Z * Z * Z) (fuel : nat) (key : Z) :
  0 <= key < cp -> cp - key <= Z.of_nat fuel ->
  exists r, find_chain fuel tets tb k key = Ok r /\
    match r with
    | Hit s => reach tb key s /\ skey tets (rd hsh0 tb s) = k
    | Miss e => reach tb key e /\ nex (rd hsh0 tb e) = 0 /\
                forall s, reach tb key s -> skey tets (rd hsh0 tb s) <> k
    end.
Proof.
  pose proof (ti_size _ _ _ _ _ _ Inv) as Sz.
  revert key; induction fuel as [|fuel IH]; intros key Hk Hf; [lia|].
  simpl.
  assert (Hin : inb tb key = true) by (apply inb_true; lia).
  rewrite Hin. cbn [negb].
  destruct (same_face tets (rd hsh0 tb key) k) eqn:Es.
  - exists (Hit key). split; [reflexivity|]. split; [constructor|].
    now apply same_face_skey.
  - assert (Hne : skey tets (rd hsh0 tb key) <> k).
    { intros E. apply same_face_skey in E. congruence. }
    destruct (Z.eqb_spec (nex (rd hsh0 tb key)) 0) as [E0|E0]; cbn [negb].
    + exists (Miss key). split; [reflexivity|].
      split; [constructor|]. split; [exact E0|].
      intros s R. inversion R; subst; [exact Hne|congruence].
    + destruct (ti_nex _ _ _ _ _ _ Inv key Hk E0) as (B1 & B2 & _).
      destruct (IH (nex (rd hsh0 tb key)) ltac:(lia) ltac:(lia))
        as (r & Er & Hr).
      exists r. split; [exact Er|].
      destruct r as [s|e].
      * destruct Hr as (R & K). split; [|exact K].
        eapply reach_step; eauto.
      * destruct Hr as (R & Z0 & No). split; [eapply reach_step; eauto|].
        split; [exact Z0|].
        intros s Rs. inversion Rs; subst; [exact Hne|]. now apply No.
Qed.
End Chains.

Lemma rd_wr {X : Type} (l : list X) (k k' : Z) (v d : X) :
  0 <= k < Z.of_nat (length l) ->
  rd d (wr l k v) k' = if k' =? k then v else rd d l k'.
Proof.
  intros Hk. destruct (Z.eqb_spec k' k) as [->|Hne].
  - now apply rd_wr_same.
  - apply rd_wr_other. congruence.
Qed.

(** ** Insertions keep the table invariant *)

Lemma tab_inv_init (tets : list TetSct) (msk H : Z) :
  0 < H ->
  tab_inv tets msk H (repeat hsh0 (Z.to_nat (5 * H))) H [].
Proof.
  intros HH. constructor.
  - rewrite repeat_length. lia.
  - intros s _. apply rd_repeat.
  - intros s _ _. apply rd_repeat.
  - intros s _ Hu. rewrite rd_repeat in Hu. now elim Hu.
  - intros s _ Hu. rewrite rd_repeat in Hu. now elim Hu.
  - intros s _ Hu. rewrite rd_repeat in Hu. now elim Hu.
  - intros s Hs. lia.
  - intros f [].
Qed.

Section Insert.
Variables (tets : list TetSct) (msk H : Z) (tb : list HshSct) (cp : Z).
Variable A : list (Z * Z).
Hypothesis Inv : tab_inv tets msk H tb cp A.
Variables i j : Z.
Hypothesis Hi : i <> 0.

(** The face goes into the empty bucket [b]. *)
Lemma insert_bucket (b : Z) :
  b = hash msk (fkey tets (i, j)) -> 0 <= b < H ->
  htet (rd hsh0 tb b) = 0 ->
  tab_inv tets msk H
    (wr tb b (store (rd hsh0 tb b) i j (canon (tet_at tets i) j))) cp
    ((i, j) :: A).
Proof.
  intros Eb Hb He.
  destruct Inv as [Sz Zr Em Fi Pr Nx Ov Al].
  assert (Hbl : 0 <= b < Z.of_nat (length tb)) by lia.
  assert (E0 : rd hsh0 tb b = hsh0) by (apply Em; auto).
  set (v := store (rd hsh0 tb b) i j (canon (tet_at tets i) j)).
  assert (Hv : holds tets v (i, j)) by apply holds_store.
  assert (Nv : nex v = 0).
  { unfold v, store. rewrite E0.
    destruct (canon (tet_at tets i) j) as [[? ?] ?]. reflexivity. }
  assert (Tv : htet v = i) by apply Hv.
  assert (R : forall s, rd hsh0 (wr tb b v) s = if s =? b then v else rd hsh0 tb s)
    by (intros s; now apply rd_wr).
  constructor.
  - now rewrite length_wr.
  - intros s Hs. rewrite R. destruct (Z.eqb_spec s b); [lia|auto].
  - intros s Hs. rewrite R. destruct (Z.eqb_spec s b); [congruence|auto].
  - intros s Hs. rewrite R. destruct (Z.eqb_spec s b).
    + intros _. exists (i, j). split; [now left|exact Hv].
    + intros Hu. destruct (Fi s Hs Hu) as (f & Hf & Hh).
      exists f. split; [now right|exact Hh].
  - intros s Hs. rewrite R. destruct (Z.eqb_spec s b) as [->|].
    + intros _. now rewrite (holds_skey _ _ _ Hv).
    + auto.
  - intros s Hs. rewrite R. destruct (Z.eqb_spec s b) as [->|Hsb].
    + congruence.
    + intros Hn. destruct (Nx s Hs Hn) as (B1 & B2 & B3 & B4).
      rewrite R. destruct (Z.eqb_spec (nex (rd hsh0 tb s)) b); [lia|auto].
  - intros s Hs. rewrite R. destruct (Z.eqb_spec s b); [lia|].
    destruct (Ov s Hs) as (U & p & Hp & Ep). split; [exact U|].
    exists p. split; [exact Hp|]. rewrite R.
    destruct (Z.eqb_spec p b) as [->|]; [|exact Ep].
    rewrite E0 in Ep. simpl in Ep. lia.
  - intros f [<-|Hf].
    + split; [exact Hi|]. exists b. split; [lia|].
      rewrite R, Z.eqb_refl. exact Hv.
    + destruct (Al f Hf) as (F0 & s & Hs & Hh). split; [exact F0|].
      exists s. split; [exact Hs|]. rewrite R.
      destruct (Z.eqb_spec s b) as [->|]; [|exact Hh].
      destruct Hh as (Ht & _). congruence.
Qed.

(** The face goes into slot [cp], linked from the end [e] of its chain. *)
Lemma insert_append (e : Z) :
  0 <= e < cp -> htet (rd hsh0 tb e) <> 0 -> nex (rd hsh0 tb e) = 0 ->
  hash msk (skey tets (rd hsh0 tb e)) = hash msk (fkey tets (i, j)) ->
  cp < Z.of_nat (length tb) ->
  let tab1 := wr tb e (set_nex (rd hsh0 tb e) cp) in
  tab_inv tets msk H
    (wr tab1 cp (store (rd hsh0 tab1 cp) i j (canon (tet_at tets i) j)))
    (cp + 1) ((i, j) :: A).
Proof.
  intros He Ue Ne Eh Hcp tab1.
  destruct Inv as [Sz Zr Em Fi Pr Nx Ov Al].
  assert (R1 : forall s, rd hsh0 tab1 s =
                 if s =? e then set_nex (rd hsh0 tb e) cp else rd hsh0 tb s)
    by (intros s; apply rd_wr; lia).
  assert (E0 : rd hsh0 tab1 cp = hsh0).
  { rewrite R1. destruct (Z.eqb_spec cp e); [lia|]. apply Zr. lia. }
  set (v := store (rd hsh0 tab1 cp) i j (canon (tet_at tets i) j)).
  assert (Hv : holds tets v (i, j)) by apply holds_store.
  assert (Nv : nex v = 0).
  { unfold v, store. rewrite E0.
    destruct (canon (tet_at tets i) j) as [[? ?] ?]. reflexivity. }
  assert (Tv : htet v = i) by apply Hv.
  assert (R : forall s, rd hsh0 (wr tab1 cp v) s =
                if s =? cp then v
                else if s =? e then set_nex (rd hsh0 tb e) cp
                else rd hsh0 tb s).
  { intros s. rewrite rd_wr by (unfold tab1; rewrite length_wr; lia).
    now rewrite R1. }
  constructor.
  - unfold tab1. rewrite !length_wr. lia.
  - intros s Hs. rewrite R.
    destruct (Z.eqb_spec s cp); [lia|]. destruct (Z.eqb_spec s e); [lia|].
    apply Zr. lia.
  - intros s Hs. rewrite R.
    destruct (Z.eqb_spec s cp); [lia|].
    destruct (Z.eqb_spec s e) as [->|]; [simpl; congruence|auto].
  - intros s Hs. rewrite R.
    destruct (Z.eqb_spec s cp).
    { intros _. exists (i, j). split; [now left|exact Hv]. }
    destruct (Z.eqb_spec s e) as [->|].
    + intros _. destruct (Fi e He Ue) as (f & Hf & Hh).
      exists f. split; [now right|]. now apply holds_set_nex.
    + intros Hu. destruct (Fi s ltac:(lia) Hu) as (f & Hf & Hh).
      exists f. split; [now right|exact Hh].
  - intros s Hs. rewrite R.
    destruct (Z.eqb_spec s cp); [lia|].
    destruct (Z.eqb_spec s e) as [->|].
    + intros _. rewrite skey_set_nex. auto.
    + auto.
  - intros s Hs. rewrite R.
    destruct (Z.eqb_spec s cp); [congruence|].
    destruct (Z.eqb_spec s e) as [->|Hse].
    + intros _. cbn [nex set_nex]. split; [lia|]. split; [lia|].
      split; [exact Ue|]. rewrite skey_set_nex, R, Z.eqb_refl.
      now rewrite (holds_skey _ _ _ Hv).
    + intros Hn. destruct (Nx s ltac:(lia) Hn) as (B1 & B2 & B3 & B4).
      split; [lia|]. split; [lia|]. split; [exact B3|].
      rewrite R. destruct (Z.eqb_spec (nex (rd hsh0 tb s)) cp); [lia|].
      destruct (Z.eqb_spec (nex (rd hsh0 tb s)) e) as [En|]; [|exact B4].
      rewrite skey_set_nex. now rewrite <- En.
  - intros s Hs. rewrite R.
    destruct (Z.eqb_spec s cp) as [->|Hsc].
    + split; [congruence|]. exists e. split; [lia|].
      rewrite R. destruct (Z.eqb_spec e cp); [lia|].
      now rewrite Z.eqb_refl.
    + assert (Hs' : H <= s < cp) by lia.
      destruct (Ov s Hs') as (U & p & Hp & Ep).
      split.
      * destruct (Z.eqb_spec s e) as [->|]; [exact Ue|exact U].
      * exists p. split; [exact Hp|]. rewrite R.
        destruct (Z.eqb_spec p cp); [lia|].
        destruct (Z.eqb_spec p e) as [->|]; [lia|exact Ep].
  - intros f [<-|Hf].
    + split; [exact Hi|]. exists cp. split; [lia|].
      rewrite R, Z.eqb_refl. exact Hv.
    + destruct (Al f Hf) as (F0 & s & Hs & Hh). split; [exact F0|].
      exists s. split; [lia|]. rewrite R.
      destruct (Z.eqb_spec s cp); [lia|].
      destruct (Z.eqb_spec s e) as [->|]; [|exact Hh].
      now apply holds_set_nex.
Qed.
End Insert.

(** ** Lookups *)

Section Lookup.
Variables (tets : list TetSct) (msk H : Z) (tb : list HshSct) (cp : Z).
Variable A : list (Z * Z).
Hypothesis Inv : tab_inv tets msk H tb cp A.
Hypothesis Hhash : forall k, 0 <= hash msk k < H.

(** A walk from a used bucket: a hit is a face of [A] with the key, a miss
    ends on the last slot of the chain and no face of [A] has the key. *)
Lemma lookup_used (k : Z * Z * Z) :
  htet (rd hsh0 tb (hash msk k)) <> 0 ->
  exists r, find_chain (length tb) tets tb k (hash msk k) = Ok r /\
    match r with
    | Hit s => 0 <= s < cp /\
               exists g, In g A /\ holds tets (rd hsh0 tb s) g /\
                         fkey tets g = k
    | Miss e => 0 <= e < cp /\ htet (rd hsh0 tb e) <> 0 /\
                nex (rd hsh0 tb e) = 0 /\
                hash msk (skey tets (rd hsh0 tb e)) = hash msk k /\
                forall g, In g A -> fkey tets g <> k
    end.
Proof.
  intros Hu. pose proof (ti_size _ _ _ _ _ _ Inv) as Sz.
  pose proof (Hhash k) as Hb.
  destruct (find_chain_spec tets msk H tb cp A Inv k (length tb) (hash msk k))
    as (r & Er & Hr); [lia|lia|].
  exists r. split; [exact Er|].
  assert (Pb : hash msk (skey tets (rd hsh0 tb (hash msk k))) = hash msk k)
    by (apply (ti_prim _ _ _ _ _ _ Inv); auto).
  destruct r as [s|e].
  - destruct Hr as (R & K).
    assert (Hb' : 0 <= hash msk k < cp) by lia.
    pose proof (reach_bounds _ _ _ _ _ _ Inv _ _ Hb' R) as Bs.
    destruct (reach_used _ _ _ _ _ _ Inv _ _ Hb' Hu R) as (Us & _).
    split; [lia|].
    destruct (ti_fill _ _ _ _ _ _ Inv s ltac:(lia) Us) as (g & Hg & Hh).
    exists g. split; [exact Hg|]. split; [exact Hh|].
    now rewrite <- (holds_skey _ _ _ Hh).
  - destruct Hr as (R & N0 & No).
    assert (Hb' : 0 <= hash msk k < cp) by lia.
    pose proof (reach_bounds _ _ _ _ _ _ Inv _ _ Hb' R) as Bs.
    destruct (reach_used _ _ _ _ _ _ Inv _ _ Hb' Hu R) as (Ue & He).
    split; [lia|]. split; [exact Ue|]. split; [exact N0|].
    split; [congruence|].
    intros g Hg Ek.
    destruct (ti_all _ _ _ _ _ _ Inv g Hg) as (G0 & s & Hs & Hh).
    assert (Us : htet (rd hsh0 tb s) <> 0) by (destruct Hh as (-> & _); exact G0).
    destruct (used_reach _ _ _ _ _ _ Inv Hhash s Hs Us) as (Rs & _).
    rewrite (holds_skey _ _ _ Hh), Ek in Rs.
    apply (No s Rs). now rewrite (holds_skey _ _ _ Hh).
Qed.

(** Behind an empty bucket there is no face with that hash. *)
Lemma lookup_empty (k : Z * Z * Z) :
  htet (rd hsh0 tb (hash msk k)) = 0 ->
  forall g, In g A -> fkey tets g <> k.
Proof.
  intros He g Hg Ek.
  destruct (ti_all _ _ _ _ _ _ Inv g Hg) as (G0 & s & Hs & Hh).
  assert (Us : htet (rd hsh0 tb s) <> 0) by (destruct Hh as (-> & _); exact G0).
  destruct (used_reach _ _ _ _ _ _ Inv Hhash s Hs Us) as (_ & U).
  rewrite (holds_skey _ _ _ Hh), Ek in U. contradiction.
Qed.
End Lookup.

(** ** Faces of one tet *)

Lemma idx_inj (t : TetSct) (a b : Z) :
  distinct_tet t -> 0 <= a < 4 -> 0 <= b < 4 -> idx t a = idx t b -> a = b.
Proof.
  intros D Ha Hb. destruct t as [x0 x1 x2 x3 r].
  unfold distinct_tet in D; simpl in D.
  assert (Ea : a = 0 \/ a = 1 \/ a = 2 \/ a = 3) by lia.
  assert (Eb : b = 0 \/ b = 1 \/ b = 2 \/ b = 3) by lia.
  destruct Ea as [-> | [-> | [-> | ->]]];
    destruct Eb as [-> | [-> | [-> | ->]]]; simpl; lia.
Qed.

(** Two faces of a tet with distinct vertices have different keys. *)
Lemma ckey_inj (t : TetSct) (j j' : Z) :
  distinct_tet t -> 0 <= j < 4 -> 0 <= j' < 4 ->
  ckey t j = ckey t j' -> j = j'.
Proof.
  intros D Hj Hj' E. unfold ckey in E.
  pose proof (canon_sorted t j D Hj) as S.
  pose proof (canon_sorted t j' D Hj') as S'.
  destruct (canon t j) as [[mn md] mx].
  destruct (canon t j') as [[mn' md'] mx'].
  inversion E as [[E1 E2 E3]].
  apply idx_inj in E1; auto; try lia.
  apply idx_inj in E2; auto; try lia.
  apply idx_inj in E3; auto; try lia.
Qed.

(** The components of a canonical key are strictly increasing. *)
Lemma ckey_increasing (t : TetSct) (j : Z) :
  distinct_tet t -> 0 <= j < 4 ->
  fst (fst (ckey t j)) < snd (fst (ckey t j)) < snd (ckey t j).
Proof.
  intros D Hj. unfold ckey.
  pose proof (canon_sorted t j D Hj) as S.
  destruct (canon t j) as [[mn md] mx]. simpl. lia.
Qed.

Lemma face_eq_dec (f g : Z * Z) : {f = g} + {f <> g}.
Proof. decide equality; apply Z.eq_dec. Qed.

Lemma key_eq_dec (k k' : Z * Z * Z) : {k = k'} + {k <> k'}.
Proof. repeat decide equality. Qed.

(** ** Cells of the adjacency table *)

Lemma cell_inj (i j i' j' : Z) :
  0 <= j < 4 -> 0 <= j' < 4 -> cell i j = cell i' j' -> i = i' /\ j = j'.
Proof. unfold cell. lia. Qed.

Lemma ngb_wr (Ngb : list Z) (a b v i j : Z) :
  0 <= cell a b < Z.of_nat (length Ngb) -> 0 <= b < 4 -> 0 <= j < 4 ->
  ngb (wr Ngb (cell a b) v) i j =
  if face_eq_dec (i, j) (a, b) then v else ngb Ngb i j.
Proof.
  intros Hc Hb Hj. unfold ngb. rewrite rd_wr by exact Hc.
  destruct (face_eq_dec (i, j) (a, b)) as [E|E].
  - inversion E; subst. now rewrite Z.eqb_refl.
  - destruct (Z.eqb_spec (cell i j) (cell a b)) as [Ec|]; [|reflexivity].
    apply cell_inj in Ec; auto. destruct Ec; subst. now elim E.
Qed.

Lemma nzc_range (x : Z) : 0 <= nzc x <= 1.
Proof. unfold nzc. destruct (x =? 0); lia. Qed.

Lemma nz_range (Ngb : list Z) (i : Z) : 0 <= nz Ngb i <= 4.
Proof.
  unfold nz.
  pose proof (nzc_range (ngb Ngb i 0)). pose proof (nzc_range (ngb Ngb i 1)).
  pose proof (nzc_range (ngb Ngb i 2)). pose proof (nzc_range (ngb Ngb i 3)).
  lia.
Qed.

Lemma nz_wr (Ngb : list Z) (a b v i : Z) :
  0 <= cell a b < Z.of_nat (length Ngb) -> 0 <= b < 4 ->
  nz (wr Ngb (cell a b) v) i =
  if i =? a then nz Ngb a - nzc (ngb Ngb a b) + nzc v else nz Ngb i.
Proof.
  intros Hc Hb. unfold nz. rewrite !ngb_wr by (auto; lia).
  destruct (Z.eqb_spec i a) as [->|Hne].
  - assert (E : b = 0 \/ b = 1 \/ b = 2 \/ b = 3) by lia.
    destruct E as [-> | [-> | [-> | ->]]];
      repeat match goal with
             | |- context [face_eq_dec ?x ?y] =>
                 let E := fresh "E" in
                 destruct (face_eq_dec x y) as [E|E];
                 [try discriminate E|try (now elim E)]
             end; lia.
  - repeat match goal with
           | |- context [face_eq_dec ?x ?y] =>
               let E := fresh "E" in
               destruct (face_eq_dec x y) as [E|E];
               [inversion E; subst; now elim Hne|]
           end. reflexivity.
Qed.

Lemma wrap8_small (x : Z) : -128 <= x < 128 -> wrap 8 x = x.
Proof.
  intros Hx. unfold wrap. change (2 ^ (8 - 1)) with 128.
  change (2 ^ 8) with 256. rewrite Z.mod_small; lia.
Qed.

Lemma wrap32_small (x : Z) : - 2 ^ 31 <= x < 2 ^ 31 -> wrap 32 x = x.
Proof.
  intros Hx. unfold wrap. change (32 - 1) with 31.
  change (2 ^ 32) with (2 * 2 ^ 31). rewrite Z.mod_small; lia.
Qed.

Lemma rd_incr (Flg : list Z) (i x : Z) :
  0 <= i < Z.of_nat (length Flg) -> -128 <= rd 0 Flg i + 1 < 128 ->
  rd 0 (incr Flg i) x = if x =? i then rd 0 Flg i + 1 else rd 0 Flg x.
Proof.
  intros Hi Hv. unfold incr. rewrite rd_wr by exact Hi.
  now rewrite wrap8_small.
Qed.

Lemma length_incr (Flg : list Z) (i : Z) : length (incr Flg i) = length Flg.
Proof. apply length_wr. Qed.

(** Linking two unlinked faces of different tets keeps the counters. *)
Lemma flg_inv_link (T : Z) (Flg Ngb : list Z) (i j m j' : Z) :
  length Flg = Z.to_nat (T + 1) -> length Ngb = Z.to_nat (4 * (T + 1)) ->
  1 <= i <= T -> 1 <= m <= T -> i <> m -> 0 <= j < 4 -> 0 <= j' < 4 ->
  ngb Ngb i j = 0 -> ngb Ngb m j' = 0 ->
  flg_inv Flg Ngb ->
  flg_inv (incr (incr Flg i) m) (wr (wr Ngb (cell i j) m) (cell m j') i).
Proof.
  intros LF LN Hi Hm Him Hj Hj' Zi Zm F x.
  assert (Ci : 0 <= cell i j < Z.of_nat (length Ngb)) by (unfold cell; lia).
  assert (Cm : 0 <= cell m j' < Z.of_nat (length (wr Ngb (cell i j) m)))
    by (rewrite length_wr; unfold cell; lia).
  pose proof (nz_range Ngb i). pose proof (nz_range Ngb m).
  rewrite rd_incr; [|rewrite length_incr; lia|].
  2:{ rewrite rd_incr by (rewrite ?F; lia).
      destruct (Z.eqb_spec m i); [lia|]. rewrite F. lia. }
  rewrite !rd_incr by (rewrite ?F; lia).
  rewrite nz_wr by auto. rewrite !nz_wr by auto.
  rewrite ngb_wr by (auto; lia).
  destruct (face_eq_dec (m, j') (i, j)) as [E|_]; [inversion E; lia|].
  rewrite Zi, Zm. rewrite (Z.eqb_sym m i).
  destruct (Z.eqb_spec x m) as [->|Hxm].
  - destruct (Z.eqb_spec i m); [lia|]. rewrite ?F.
    unfold nzc. simpl.
    destruct (Z.eqb_spec i 0); lia.
  - destruct (Z.eqb_spec x i) as [->|Hxi].
    + rewrite ?F. unfold nzc. simpl.
      destruct (Z.eqb_spec m 0); lia.
    + apply F.
Qed.

(** ** The adjacency invariant under the two outcomes of a face *)

Section NgbInv.
Variables (tets : list TetSct) (T : Z) (Ngb0 : list Z).
Hypothesis Htwo : at_most_two tets T.
Variable P : list (Z * Z).
Hypothesis HP : forall f, In f P -> valid T f.
Variable f : Z * Z.
Hypothesis Hf : valid T f.
Hypothesis HfP : ~ In f P.

(** The face has no partner yet. *)
Lemma ngb_inv_insert (Ngb : list Z) :
  (forall g, In g P -> fkey tets g <> fkey tets f) ->
  ngb_inv tets Ngb0 P Ngb -> ngb_inv tets Ngb0 (P ++ [f]) Ngb.
Proof.
  intros No I i j Hj. destruct (I i j Hj) as (I1 & I2). split.
  - intros g Hx Hg (Ne & Ek).
    apply in_app_iff in Hx. apply in_app_iff in Hg. simpl in Hx, Hg.
    destruct Hx as [Hx|[Hx|[]]].
    + destruct Hg as [Hg|[Hg|[]]].
      * apply I1; auto. now split.
      * subst g. exfalso. apply (No (i, j) Hx). auto.
    + subst f. destruct Hg as [Hg|[Hg|[]]]; [|congruence].
      exfalso. apply (No g Hg). auto.
  - intros Hno. apply I2. intros g Hx Hg.
    apply Hno; apply in_app_iff; auto.
Qed.

(** The face is linked with its partner [g] of [P]. *)
Lemma ngb_inv_link (Ngb : list Z) (g : Z * Z) :
  length Ngb = Z.to_nat (4 * (T + 1)) ->
  In g P -> partners tets f g ->
  ngb_inv tets Ngb0 P Ngb ->
  ngb_inv tets Ngb0 (P ++ [f])
    (wr (wr Ngb (cell (fst f) (snd f)) (fst g)) (cell (fst g) (snd g)) (fst f)).
Proof.
  intros LN Hg (Ng & Ek) I i j Hj.
  pose proof (HP g Hg) as Vg.
  destruct f as [fi fj], g as [gi gj]. cbn [fst snd] in *.
  destruct Hf as (Hf1 & Hf2), Vg as (Hg1 & Hg2). cbn [fst snd] in *.
  rewrite ngb_wr; [|rewrite length_wr; unfold cell; lia|lia|lia].
  rewrite ngb_wr; [|unfold cell; lia|lia|lia].
  destruct (I i j Hj) as (I1 & I2).
  assert (Three : forall x, In x P -> fkey tets x = fkey tets (fi, fj) ->
                            x = (gi, gj)).
  { intros x Hx Ex.
    assert (Vf : valid T (fi, fj)) by (split; auto).
    assert (Vg : valid T (gi, gj)) by (split; auto).
    destruct (Htwo (fi, fj) (gi, gj) x Vf Vg (HP x Hx)) as [E|[E|E]];
      [congruence|congruence|congruence| |congruence].
    subst x. contradiction. }
  destruct (face_eq_dec (i, j) (gi, gj)) as [Eg|Neg].
  { inversion Eg; subst i j. split.
    - intros h _ Hh (Nh & Eh). apply in_app_iff in Hh. simpl in Hh.
      destruct Hh as [Hh|[Hh|[]]]; [|now subst h].
      exfalso. apply Nh. apply Three; auto. congruence.
    - intros Hno. exfalso. apply (Hno (fi, fj)).
      + apply in_app_iff; auto.
      + apply in_app_iff; simpl; auto.
      + split; [congruence|auto]. }
  destruct (face_eq_dec (i, j) (fi, fj)) as [Ef|Nef].
  { inversion Ef; subst i j. split.
    - intros h _ Hh (Nh & Eh). apply in_app_iff in Hh. simpl in Hh.
      destruct Hh as [Hh|[Hh|[]]]; [|congruence].
      now rewrite (Three h Hh Eh).
    - intros Hno. exfalso. apply (Hno (gi, gj)).
      + apply in_app_iff; simpl; auto.
      + apply in_app_iff; auto.
      + split; auto. }
  split.
  - intros h Hx Hh (Nh & Eh). apply in_app_iff in Hx. simpl in Hx.
    destruct Hx as [Hx|[Hx|[]]]; [|congruence].
    apply in_app_iff in Hh. simpl in Hh.
    destruct Hh as [Hh|[Hh|[]]].
    + apply I1; auto. now split.
    + subst h. exfalso. apply Neg. apply Three; auto.
  - intros Hno. apply I2. intros h Hx Hh.
    apply Hno; apply in_app_iff; auto.
Qed.
End NgbInv.

(** ** Loops *)

Lemma foldM_app {X S : Type} (f : S -> X -> res S) (l1 l2 : list X) (s : S) :
  foldM f (l1 ++ l2) s = (s' <- foldM f l1 s ;; foldM f l2 s').
Proof.
  revert s; induction l1 as [|a l1 IH]; intros s; simpl; [reflexivity|].
  destruct (f s a); simpl; auto.
Qed.

(** Two nested loops are one loop over the pairs of their indices. *)
Lemma foldM_flat {S : Type} (g : Z -> S -> Z -> res S) (js rows : list Z)
  (s : S) :
  foldM (fun w i => foldM (g i) js w) rows s =
  foldM (fun w f => g (fst f) w (snd f))
        (flat_map (fun i => map (pair i) js) rows) s.
Proof.
  revert s; induction rows as [|i rows IH]; intros s; [reflexivity|].
  cbn [foldM flat_map]. rewrite foldM_app.
  assert (E : forall l w, foldM (g i) l w =
                          foldM (fun w f => g (fst f) w (snd f))
                                (map (pair i) l) w).
  { induction l as [|j l IHl]; intros w; simpl; [reflexivity|].
    destruct (g i w j); simpl; auto. }
  rewrite E. destruct (foldM _ (map (pair i) js) s); simpl; auto.
Qed.

(** A loop whose body maintains an invariant on the elements already
    visited runs to its end. *)
Lemma foldM_prefix {X S : Type} (f : S -> X -> res S)
  (I : list X -> S -> Prop) (l : list X) :
  (forall P a R s, l = P ++ a :: R -> I P s ->
                   exists s', f s a = Ok s' /\ I (P ++ [a]) s') ->
  forall s, I [] s -> exists s', foldM f l s = Ok s' /\ I l s'.
Proof.
  intros Hstep.
  assert (G : forall rest P s, l = P ++ rest -> I P s ->
                               exists s', foldM f rest s = Ok s' /\ I l s').
  { induction rest as [|a rest IH]; intros P s E HI.
    - rewrite app_nil_r in E. subst P. exists s. split; [reflexivity|exact HI].
    - destruct (Hstep P a rest s E HI) as (s1 & E1 & I1).
      destruct (IH (P ++ [a]) s1) as (s' & E' & I').
      + rewrite <- app_assoc. exact E.
      + exact I1.
      + exists s'. split; [|exact I']. simpl. rewrite E1. exact E'. }
  intros s. apply (G l []). reflexivity.
Qed.

(** The same for a loop that is known to have run to its end. *)
Lemma foldM_prefix_part {X S : Type} (f : S -> X -> res S)
  (I : list X -> S -> Prop) (l : list X) :
  (forall P a R s s', l = P ++ a :: R -> I P s -> f s a = Ok s' ->
                      I (P ++ [a]) s') ->
  forall s s', I [] s -> foldM f l s = Ok s' -> I l s'.
Proof.
  intros Hstep.
  assert (G : forall rest P s s', l = P ++ rest -> I P s ->
                                  foldM f rest s = Ok s' -> I l s').
  { induction rest as [|a rest IH]; intros P s s' E HI Ef.
    - rewrite app_nil_r in E. subst P. simpl in Ef. now injection Ef as <-.
    - simpl in Ef. destruct (f s a) as [s1| |] eqn:E1; cbn [bind] in Ef;
        try discriminate.
      apply (IH (P ++ [a]) s1 s'); auto.
      + rewrite <- app_assoc. exact E.
      + now apply (Hstep P a rest s s1). }
  intros s s'. apply (G l []). reflexivity.
Qed.

Lemma NoDup_faces (a b : Z) : NoDup (faces a b).
Proof.
  unfold faces, Zrange. generalize (Z.to_nat (b - a + 1)). intros n.
  revert a; induction n as [|n IH]; intros a; [constructor|].
  rewrite Zseq_S. cbn [flat_map].
  assert (N4 : NoDup (map (pair a) [0; 1; 2; 3])).
  { repeat constructor; simpl; intuition congruence. }
  apply NoDup_app; [exact N4|apply IH|].
  intros [i j] H1 H2. apply in_map_iff in H1. destruct H1 as (x & E & _).
  inversion E; subst. apply in_flat_map in H2.
  destruct H2 as (y & Hy & Hin). apply In_Zseq in Hy.
  apply in_map_iff in Hin. destruct Hin as (z & Ez & _). inversion Ez. lia.
Qed.

Lemma length_faces (a b : Z) :
  Z.of_nat (length (faces a b)) = 4 * Z.of_nat (Z.to_nat (b - a + 1)).
Proof.
  unfold faces, Zrange. generalize (Z.to_nat (b - a + 1)). intros n.
  revert a; induction n as [|n IH]; intros a; [reflexivity|].
  rewrite Zseq_S. cbn [flat_map]. rewrite length_app, length_map.
  cbn [length]. specialize (IH (a + 1)). lia.
Qed.

(** ** Phase one, one worker *)

Section Worker1.
Variables (tets : list TetSct) (T msk H lo hi : Z) (Ngb0 : list Z).
Hypothesis Hhash : forall k, 0 <= hash msk k < H.
Hypothesis HH : 0 < H.
Hypothesis Hlo : 1 <= lo.
Hypothesis Hhi : hi <= T.
Hypothesis Hdist : forall i, 1 <= i <= T -> distinct_tet (tet_at tets i).
Hypothesis Htwo : at_most_two tets T.
Hypothesis Hzero :
  forall i j, lo <= i <= hi -> 0 <= j < 4 -> ngb Ngb0 i j = 0.

(** One face: the body of the inner loop keeps [inv1], and it leaves the
    table only when the cursor stands at its end. *)
Lemma face1_gen (P R : list (Z * Z)) (f : Z * Z) (w : Loc) :
  faces lo hi = P ++ f :: R ->
  inv1 tets T msk H Ngb0 P w ->
  match face1 tets msk (fst f) w (snd f) with
  | Ok w' => inv1 tets T msk H Ngb0 (P ++ [f]) w'
  | OutOfBounds => lColPos w = 5 * H
  | OutOfFuel => False
  end.
Proof.
  intros EP [(A & TI & AP & PA) Hcp Ltab Lflg Lngb NI FI].
  destruct f as [i j]. cbn [fst snd].
  assert (Hin : In (i, j) (faces lo hi)) by (rewrite EP; apply in_elt).
  apply In_faces in Hin. destruct Hin as (Hi & Hj).
  assert (HPr : forall g, In g P -> lo <= fst g <= hi /\ 0 <= snd g < 4).
  { intros [gi gj] Hg. apply In_faces. rewrite EP. apply in_or_app; auto. }
  assert (HPv : forall g, In g P -> valid T g).
  { intros g Hg. destruct (HPr g Hg). split; lia. }
  assert (Vf : valid T (i, j)) by (split; cbn [fst snd]; lia).
  assert (HfP : ~ In (i, j) P).
  { pose proof (NoDup_faces lo hi) as ND. rewrite EP in ND.
    apply NoDup_remove_2 in ND. intros X. apply ND. apply in_or_app; auto. }
  assert (HlenP : Z.of_nat (length P) < 4 * (hi - lo + 1)).
  { pose proof (length_faces lo hi) as L. rewrite EP, length_app in L.
    cbn [length] in L. lia. }
  assert (LP1 : Z.of_nat (length (P ++ [(i, j)])) = Z.of_nat (length P) + 1).
  { rewrite length_app. simpl. lia. }
  pose proof (Hdist i ltac:(lia)) as D.
  pose proof (canon_sorted _ j D Hj) as S.
  pose proof (ti_size _ _ _ _ _ _ TI) as Sz.
  assert (PAk : (forall g, In g A -> fkey tets g <> fkey tets (i, j)) ->
                forall g, In g P -> fkey tets g <> fkey tets (i, j)).
  { intros No g Hg E. destruct (PA g Hg) as (g' & Hg' & E').
    apply (No g' Hg'). congruence. }
  unfold face1.
  assert (Ek : fkey tets (i, j) = ckey (tet_at tets i) j) by reflexivity.
  unfold ckey in Ek.
  destruct (canon (tet_at tets i) j) as [[mn md] mx] eqn:Ec.
  destruct (Z.ltb_spec md 4) as [_|]; [|lia]. cbn [negb].
  rewrite <- Ek. set (k := fkey tets (i, j)) in *.
  pose proof (Hhash k) as Hb.
  assert (Hinb : inb (ltab w) (hash msk k) = true) by (apply inb_true; lia).
  rewrite Hinb. cbn [negb].
  destruct (Z.eqb_spec (htet (rd hsh0 (ltab w) (hash msk k))) 0) as [He|Hu].
  - (* empty bucket *)
    pose proof (lookup_empty _ _ _ _ _ _ TI Hhash k He) as No.
    constructor; cbn [ltab lColPos lFlg lNgb]; auto.
    + exists ((i, j) :: A). split; [|split].
      * rewrite <- Ec. apply insert_bucket; auto; lia.
      * intros g [<-|Hg]; apply in_or_app; simpl; auto.
      * intros g Hg. apply in_app_iff in Hg. simpl in Hg.
        destruct Hg as [Hg|[<-|[]]].
        -- destruct (PA g Hg) as (g' & Hg' & E'). exists g'. simpl; auto.
        -- exists (i, j). simpl; auto.
    + lia.
    + now rewrite length_wr.
    + apply (ngb_inv_insert tets T Ngb0 P (i, j)); auto.
  - (* used bucket: walk the chain *)
    rewrite walk1_find.
    destruct (lookup_used _ _ _ _ _ _ TI Hhash k Hu) as (r & Er & Hr).
    rewrite Er. destruct r as [s|e].
    + (* the face is in the table: link *)
      destruct Hr as (Bs & g & Hg & (Ht & Hv & _) & Egk).
      pose proof (AP g Hg) as HgP.
      destruct (HPr g HgP) as (Rg1 & Rg2).
      assert (Ngf : g <> (i, j)) by (intros ->; contradiction).
      assert (Zf : ngb (lNgb w) i j = 0).
      { destruct (NI i j Hj) as (_ & I2). rewrite I2; [now apply Hzero|].
        intros h Hx. contradiction. }
      assert (Zg : ngb (lNgb w) (fst g) (snd g) = 0).
      { destruct (NI (fst g) (snd g) Rg2) as (_ & I2).
        rewrite I2; [now apply Hzero|].
        rewrite <- surjective_pairing.
        intros h _ Hh (Nh & Eh).
        assert (K1 : fkey tets (i, j) = fkey tets g) by (fold k; congruence).
        assert (K2 : fkey tets g = fkey tets h) by congruence.
        destruct (Htwo (i, j) g h Vf (HPv g HgP) (HPv h Hh) K1 K2)
          as [E|[E|E]]; [congruence| |congruence].
        subst h. contradiction. }
      assert (Nt : i <> fst g).
      { intros E. apply Ngf. rewrite (surjective_pairing g), <- E.
        f_equal. apply (ckey_inj (tet_at tets i)); auto.
        unfold k, fkey in Egk. rewrite <- E in Egk. exact Egk. }
      unfold link. rewrite Ht, Hv.
      constructor; cbn [ltab lColPos lFlg lNgb]; auto.
      * exists A. split; [exact TI|]. split.
        -- intros h Hh. apply in_or_app; auto.
        -- intros h Hh. apply in_app_iff in Hh. simpl in Hh.
           destruct Hh as [Hh|[<-|[]]]; [now apply PA|].
           exists g. auto.
      * lia.
      * now rewrite !length_incr.
      * now rewrite !length_wr.
      * apply (ngb_inv_link tets T Ngb0 Htwo P HPv (i, j) Vf HfP (lNgb w) g);
          auto. split; auto.
      * apply (flg_inv_link T); auto; lia.
    + (* the face is new: append it to the chain *)
      destruct Hr as (Be & Ue & Ne & Eh & No).
      unfold append1.
      destruct (inb (ltab w) (lColPos w)) eqn:Hinc; cbn [negb].
      2:{ unfold inb in Hinc. apply andb_false_iff in Hinc.
          rewrite Z.leb_gt, Z.ltb_ge in Hinc. lia. }
      assert (Hroom : lColPos w < Z.of_nat (length (ltab w))).
      { apply inb_true in Hinc. lia. }
      constructor; cbn [ltab lColPos lFlg lNgb]; auto.
      * exists ((i, j) :: A). split; [|split].
        -- rewrite <- Ec. apply insert_append; auto; lia.
        -- intros g [<-|Hg]; apply in_or_app; simpl; auto.
        -- intros g Hg. apply in_app_iff in Hg. simpl in Hg.
           destruct Hg as [Hg|[<-|[]]].
           ++ destruct (PA g Hg) as (g' & Hg' & E'). exists g'. simpl; auto.
           ++ exists (i, j). simpl; auto.
      * lia.
      * now rewrite !length_wr.
      * apply (ngb_inv_insert tets T Ngb0 P (i, j)); auto.
Qed.

(** The state of a worker before its first face. *)
Lemma inv1_init (Flg0 : list Z) :
  length Flg0 = Z.to_nat (T + 1) -> length Ngb0 = Z.to_nat (4 * (T + 1)) ->
  flg_inv Flg0 Ngb0 ->
  inv1 tets T msk H Ngb0 []
       (mkLoc (repeat hsh0 (Z.to_nat (5 * H))) H Flg0 Ngb0).
Proof.
  intros LF LN F0.
  constructor; cbn [ltab lColPos lFlg lNgb]; auto.
  - exists []. split; [now apply tab_inv_init|]. split.
    + intros f [].
    + intros f [].
  - simpl. lia.
  - rewrite repeat_length. lia.
  - intros i j Hj. split; [intros g []|reflexivity].
Qed.

(** The loops of [ParNgb1] over the tets [lo..hi], when they have run to
    their end. *)
Lemma worker1_part (Flg0 : list Z) (w : Loc) :
  length Flg0 = Z.to_nat (T + 1) -> length Ngb0 = Z.to_nat (4 * (T + 1)) ->
  flg_inv Flg0 Ngb0 ->
  foldM (tet1 tets msk) (Zrange lo hi)
        (mkLoc (repeat hsh0 (Z.to_nat (5 * H))) H Flg0 Ngb0) = Ok w ->
  inv1 tets T msk H Ngb0 (faces lo hi) w.
Proof.
  intros LF LN F0.
  unfold tet1. rewrite foldM_flat. fold (faces lo hi).
  apply (foldM_prefix_part _ (fun P w => inv1 tets T msk H Ngb0 P w)).
  - intros P f R s s' E I Ef.
    pose proof (face1_gen P R f s E I) as G. now rewrite Ef in G.
  - now apply inv1_init.
Qed.

Hypothesis Hload : hi - lo + 1 <= H.

(** One face, when the range of the worker fits its table: the body of the
    inner loop succeeds. *)
Lemma face1_step (P R : list (Z * Z)) (f : Z * Z) (w : Loc) :
  faces lo hi = P ++ f :: R ->
  inv1 tets T msk H Ngb0 P w ->
  exists w', face1 tets msk (fst f) w (snd f) = Ok w' /\
             inv1 tets T msk H Ngb0 (P ++ [f]) w'.
Proof.
  intros EP I. pose proof (face1_gen P R f w EP I) as G.
  destruct (face1 tets msk (fst f) w (snd f)) as [w'| |];
    [eauto| |contradiction].
  exfalso. pose proof (i1_cp _ _ _ _ _ _ _ I) as Hcp.
  pose proof (length_faces lo hi) as L. rewrite EP, length_app in L.
  cbn [length] in L. lia.
Qed.

(** The loops of [ParNgb1] over the tets [lo..hi]. *)
Lemma worker1_run (Flg0 : list Z) :
  length Flg0 = Z.to_nat (T + 1) -> length Ngb0 = Z.to_nat (4 * (T + 1)) ->
  flg_inv Flg0 Ngb0 ->
  exists w,
    foldM (tet1 tets msk) (Zrange lo hi)
          (mkLoc (repeat hsh0 (Z.to_nat (5 * H))) H Flg0 Ngb0) = Ok w /\
    inv1 tets T msk H Ngb0 (faces lo hi) w.
Proof.
  intros LF LN F0.
  unfold tet1. rewrite foldM_flat. fold (faces lo hi).
  apply (foldM_prefix _ (fun P w => inv1 tets T msk H Ngb0 P w)).
  - intros P f R w E I. now apply (face1_step P R f w).
  - now apply inv1_init.
Qed.
End Worker1.

(** ** Subdomains, again *)

Lemma setup_par_ok (T N c : Z) :
  0 <= T -> 1 <= N -> 0 <= c < N ->
  par_ok T N c (rd par0 (setup_par T N) c) /\
  ColPos (rd par0 (setup_par T N) c) = hsh_siz T N.
Proof.
  intros HT HN Hc. unfold par_ok, dbeg, dend.
  assert (HM : MshSiz T N = T / N) by (apply Z.quot_div_nonneg; lia).
  rewrite setup_par_rd by lia.
  destruct (c =? N - 1); cbn; rewrite ?HM; auto 10.
Qed.

Section Domains.
Variables T N : Z.
Hypothesis HT : 1 <= T.
Hypothesis HN : 1 <= N.

Lemma MshSiz_bounds : 0 <= T / N /\ N * (T / N) <= T.
Proof.
  split; [apply Z.div_pos; lia|apply Z.mul_div_le; lia].
Qed.

Lemma dom_inside (c k : Z) :
  0 <= c < N -> dbeg T N c <= k <= dend T N c -> 1 <= k <= T.
Proof.
  pose proof MshSiz_bounds as (M0 & MN).
  unfold dbeg, dend. intros Hc. destruct (Z.eqb_spec c (N - 1)); nia.
Qed.

Lemma dom_disjoint (c c' k : Z) :
  0 <= c < N -> 0 <= c' < N ->
  dbeg T N c <= k <= dend T N c -> dbeg T N c' <= k <= dend T N c' ->
  c = c'.
Proof.
  pose proof MshSiz_bounds as (M0 & MN).
  unfold dbeg, dend. intros Hc Hc'.
  destruct (Z.eqb_spec c (N - 1)); destruct (Z.eqb_spec c' (N - 1)); nia.
Qed.

Lemma dom_cover (k : Z) :
  1 <= k <= T -> exists c, 0 <= c < N /\ dbeg T N c <= k <= dend T N c.
Proof.
  pose proof MshSiz_bounds as (M0 & MN).
  intros Hk. unfold dbeg, dend. set (M := T / N) in *.
  destruct (Z.eq_dec M 0) as [E0|E0].
  - exists (N - 1). rewrite Z.eqb_refl. nia.
  - assert (Hq : M * ((k - 1) / M) <= k - 1 < M * ((k - 1) / M + 1)).
    { pose proof (Z.mul_div_le (k - 1) M).
      pose proof (Z.mul_succ_div_gt (k - 1) M). lia. }
    assert (Hq0 : 0 <= (k - 1) / M) by (apply Z.div_pos; lia).
    set (q := (k - 1) / M) in *.
    destruct (Z_lt_le_dec q (N - 1)) as [Hlt|Hge].
    + exists q. destruct (Z.eqb_spec q (N - 1)); nia.
    + exists (N - 1). rewrite Z.eqb_refl. nia.
Qed.

Lemma dom_size (c : Z) :
  0 <= c < N -> T - (N - 1) * (T / N) <= hsh_siz T N ->
  dend T N c - dbeg T N c + 1 <= hsh_siz T N.
Proof.
  pose proof MshSiz_bounds as (M0 & MN).
  pose proof (hsh_siz_ge T N ltac:(lia) HN) as Hge.
  unfold dbeg, dend. intros Hc Hl.
  destruct (Z.eqb_spec c (N - 1)); nia.
Qed.

Lemma In_dfaces (c i j : Z) :
  In (i, j) (dfaces T N c) <->
  dbeg T N c <= i <= dend T N c /\ 0 <= j < 4.
Proof. apply In_faces. Qed.
End Domains.

Lemma hash_range (T N : Z) (k : Z * Z * Z) :
  0 <= hash (hsh_siz T N - 1) k < hsh_siz T N.
Proof. rewrite hash_mod. apply Z.mod_pos_bound, hsh_siz_pos. Qed.

(** ** Phase one, all workers *)

Section Phase1.
Variables (tets : list TetSct) (T N : Z).
Hypothesis HT : 1 <= T.
Hypothesis HN : 1 <= N.
Hypothesis Hdist : forall i, 1 <= i <= T -> distinct_tet (tet_at tets i).
Hypothesis Htwo : at_most_two tets T.
Variable sched : list Z.
Hypothesis Hsched : schedule N sched.

(** Worker [c], whose turn comes after the workers [D], finds its rows
    untouched and runs the loops of [ParNgb1] on its subdomain. *)
Lemma worker_pre (D R : list Z) (c : Z) (st : State) :
  sched = D ++ c :: R ->
  g1 tets T N D st ->
  0 <= c < N /\ ~ In c D /\
  1 <= dbeg T N c /\ dend T N c <= T /\
  (forall i j, dbeg T N c <= i <= dend T N c -> 0 <= j < 4 ->
               ngb (NgbTab st) i j = 0) /\
  ParNgb1 tets c st =
    (w <- foldM (tet1 tets (hsh_siz T N - 1))
                (Zrange (dbeg T N c) (dend T N c))
                (mkLoc (repeat hsh0 (Z.to_nat (5 * hsh_siz T N)))
                       (hsh_siz T N) (FlgTab st) (NgbTab st)) ;;
     Ok (mkState
           (wr (par st) c
               (mkPar (dbeg T N c) (dend T N c) N (hsh_siz T N)
                      (hsh_siz T N - 1) (lColPos w) (ltab w)))
           (lFlg w) (lNgb w))).
Proof.
  intros ED [Lp Po Td Dn Lf Ln Fl Ng].
  destruct Hsched as (ND & Hsc).
  assert (Hc : 0 <= c < N) by (apply Hsc; rewrite ED; apply in_elt).
  assert (HcD : ~ In c D).
  { rewrite ED in ND.
    apply NoDup_remove_2 in ND. intros X. apply ND. apply in_or_app; auto. }
  assert (HD : forall c', In c' D -> 0 <= c' < N).
  { intros c' X. apply Hsc. rewrite ED. apply in_or_app; auto. }
  destruct (Po c Hc) as (Eb & Ee & Es & Em & En).
  pose proof (Td c Hc HcD) as Ec.
  split; [exact Hc|]. split; [exact HcD|]. split; [|split; [|split]].
  - unfold dbeg. pose proof (MshSiz_bounds T N HT HN). nia.
  - pose proof (dom_inside T N HT HN c (dend T N c) Hc) as X.
    destruct (Z_lt_le_dec (dend T N c) (dbeg T N c)) as [Y|Y]; [|lia].
    unfold dbeg in Y. pose proof (MshSiz_bounds T N HT HN). nia.
  - intros i j Hi Hj. destruct (Ng i j Hj) as (_ & N2). apply N2.
    intros c' g Hc' Hin _ _. apply In_dfaces in Hin. apply HcD.
    rewrite (dom_disjoint T N HT HN c c' i); auto. tauto.
  - unfold ParNgb1. now rewrite Eb, Ee, Es, Em, En, Ec.
Qed.

(** The shared state once worker [c] has stored what its loops built. *)
Lemma g1_extend (D R : list Z) (c : Z) (st : State) (w : Loc) :
  sched = D ++ c :: R ->
  g1 tets T N D st ->
  inv1 tets T (hsh_siz T N - 1) (hsh_siz T N) (NgbTab st)
       (faces (dbeg T N c) (dend T N c)) w ->
  g1 tets T N (D ++ [c])
     (mkState
        (wr (par st) c
            (mkPar (dbeg T N c) (dend T N c) N (hsh_siz T N)
                   (hsh_siz T N - 1) (lColPos w) (ltab w)))
        (lFlg w) (lNgb w)).
Proof.
  intros ED G [(A & TI & AP & PA) Hcp Ltab Lflg Lngb NI FI].
  destruct (worker_pre D R c st ED G) as (Hc & HcD & _).
  destruct G as [Lp Po Td Dn Lf Ln Fl Ng].
  destruct Hsched as (ND & Hsc).
  assert (HD : forall c', In c' D -> 0 <= c' < N).
  { intros c' X. apply Hsc. rewrite ED. apply in_or_app; auto. }
  assert (Rp : forall c', rd par0 (wr (par st) c
                 (mkPar (dbeg T N c) (dend T N c) N (hsh_siz T N)
                        (hsh_siz T N - 1) (lColPos w) (ltab w))) c' =
               if c' =? c
               then mkPar (dbeg T N c) (dend T N c) N (hsh_siz T N)
                          (hsh_siz T N - 1) (lColPos w) (ltab w)
               else rd par0 (par st) c')
    by (intros c'; apply rd_wr; lia).
  constructor; cbn [par FlgTab NgbTab]; auto.
  - now rewrite length_wr.
  - intros c' Hc'. rewrite Rp. destruct (Z.eqb_spec c' c) as [->|]; auto.
    unfold par_ok. cbn. auto.
  - intros c' Hc' Hn. rewrite Rp. destruct (Z.eqb_spec c' c) as [->|]; auto.
    + exfalso. apply Hn. apply in_or_app; simpl; auto.
    + apply Td; auto. intros X. apply Hn. apply in_or_app; auto.
  - intros c' Hc'. rewrite Rp. apply in_app_iff in Hc'. simpl in Hc'.
    destruct (Z.eqb_spec c' c) as [->|Hne].
    + exists A. cbn. auto.
    + destruct Hc' as [X|[X|[]]]; [auto|congruence].
  - intros i j Hj. destruct (NI i j Hj) as (I1 & I2).
    destruct (Ng i j Hj) as (N1 & N2). split.
    + intros c' g Hc' Hin Hg Pg. apply in_app_iff in Hc'. simpl in Hc'.
      destruct Hc' as [X|[X|[]]].
      * rewrite I2; [now apply (N1 c' g)|].
        intros h Hx. exfalso. apply HcD.
        apply In_dfaces in Hin. apply (In_dfaces T N c) in Hx.
        rewrite (dom_disjoint T N HT HN c c' i); auto. tauto. tauto.
      * subst c'. now apply I1.
    + intros Hno. rewrite I2.
      * apply N2. intros c' g Hc' Hin Hg. apply (Hno c' g); auto.
        apply in_or_app; auto.
      * intros g Hin Hg. apply (Hno c g); auto.
        apply in_or_app; simpl; auto.
Qed.

(** A worker that has run to its end leaves its table built. *)
Lemma ParNgb1_part (D R : list Z) (c : Z) (st st' : State) :
  sched = D ++ c :: R ->
  g1 tets T N D st ->
  ParNgb1 tets c st = Ok st' ->
  g1 tets T N (D ++ [c]) st'.
Proof.
  intros ED G E.
  destruct (worker_pre D R c st ED G) as (Hc & HcD & Hlo & Hhi & Hz & Ep).
  rewrite Ep in E.
  destruct (foldM _ _ _) as [w| |] eqn:Ew; cbn [bind] in E;
    try discriminate.
  injection E as <-. apply (g1_extend D R c st w ED G).
  destruct G as [Lp Po Td Dn Lf Ln Fl Ng].
  apply (worker1_part tets T (hsh_siz T N - 1) (hsh_siz T N)
           (dbeg T N c) (dend T N c) (NgbTab st)
           (hash_range T N) (hsh_siz_pos T N) Hlo Hhi Hdist Htwo Hz
           (FlgTab st) w Lf Ln Fl Ew).
Qed.

Lemma init_state_g1 : g1 tets T N [] (init_state T N).
Proof.
  constructor; cbn [init_state par FlgTab NgbTab].
  - apply setup_par_length.
  - intros c Hc. apply setup_par_ok; lia.
  - intros c Hc _. apply setup_par_ok; lia.
  - intros c [].
  - apply repeat_length.
  - apply repeat_length.
  - intros i. unfold nz, ngb. rewrite !rd_repeat. reflexivity.
  - intros i j Hj. split; [intros c g []|].
    intros _. unfold ngb. apply rd_repeat.
Qed.

(** A first launch that has run to its end leaves every table built. *)
Lemma phase1_part (st : State) :
  LaunchSched (ParNgb1 tets) sched (init_state T N) = Ok st ->
  g1 tets T N sched st.
Proof.
  unfold LaunchSched.
  apply (foldM_prefix_part _ (fun D st => g1 tets T N D st)).
  - intros D c R s s' E G Es. now apply (ParNgb1_part D R c s s').
  - apply init_state_g1.
Qed.

Hypothesis Hload : T - (N - 1) * (T / N) <= hsh_siz T N.

Lemma ParNgb1_step (D R : list Z) (c : Z) (st : State) :
  sched = D ++ c :: R ->
  g1 tets T N D st ->
  exists st', ParNgb1 tets c st = Ok st' /\ g1 tets T N (D ++ [c]) st'.
Proof.
  intros ED G.
  destruct (worker_pre D R c st ED G) as (Hc & HcD & Hlo & Hhi & Hz & Ep).
  pose proof (dom_size T N HT HN c Hc Hload) as Hsz.
  destruct (worker1_run tets T (hsh_siz T N - 1) (hsh_siz T N)
              (dbeg T N c) (dend T N c) (NgbTab st)
              (hash_range T N) (hsh_siz_pos T N) Hlo Hhi Hdist Htwo Hz Hsz
              (FlgTab st) (g1_lflg _ _ _ _ _ G) (g1_lngb _ _ _ _ _ G)
              (g1_flg _ _ _ _ _ G)) as (w & Ew & I).
  rewrite Ep, Ew. cbn [bind].
  eexists. split; [reflexivity|]. now apply (g1_extend D R c st w).
Qed.

(** The first launch completes and leaves every table built. *)
Lemma phase1_run :
  exists st, LaunchSched (ParNgb1 tets) sched (init_state T N) = Ok st /\
             g1 tets T N sched st.
Proof.
  unfold LaunchSched.
  apply (foldM_prefix _ (fun D st => g1 tets T N D st)).
  - intros D c R st E G. now apply (ParNgb1_step D R c st).
  - apply init_state_g1.
Qed.
End Phase1.

(** ** The walk of phase two *)

(** The [int] key of [ParNgb2] is the 64-bit key of [ParNgb1] as long as the
    table has fewer than [2^31] buckets. *)
Lemma hash32_hash (d : Z) (k : Z * Z * Z) :
  0 <= d <= 31 -> hash32 (2 ^ d - 1) k = hash (2 ^ d - 1) k.
Proof.
  intros Hd. destruct k as [[a b] c]. unfold hash32, hash.
  set (x := 31 * a + 7 * b + 3 * c).
  rewrite !land_mask by lia.
  assert (Hp : 0 < 2 ^ d) by (apply Z.pow_pos_nonneg; lia).
  assert (Hle : 2 ^ d <= 2 ^ 31) by (apply Z.pow_le_mono_r; lia).
  assert (E : wrap 32 x mod 2 ^ d = x mod 2 ^ d).
  { unfold wrap. change (32 - 1) with 31.
    rewrite (Z.mod_eq (x + 2 ^ 31) (2 ^ 32)) by lia.
    set (q := (x + 2 ^ 31) / 2 ^ 32).
    assert (E32 : 2 ^ 32 = 2 ^ (32 - d) * 2 ^ d).
    { rewrite <- Z.pow_add_r by lia. f_equal. lia. }
    rewrite E32.
    replace (x + 2 ^ 31 - 2 ^ (32 - d) * 2 ^ d * q - 2 ^ 31)
      with (x + (- (2 ^ (32 - d) * q)) * 2 ^ d) by lia.
    apply Z.mod_add. lia. }
  rewrite E. apply wrap32_small.
  pose proof (Z.mod_pos_bound x (2 ^ d) Hp). lia.
Qed.

Lemma walk2_find (tets : list TetSct) (tb : list HshSct) (k : Z * Z * Z) :
  (forall s, 0 <= nex (rd hsh0 tb s) < 2 ^ 31) ->
  forall fuel key,
  walk2 fuel tets tb k key =
  match find_chain fuel tets tb k key with
  | Ok (Hit s) => Ok (Some (htet (rd hsh0 tb s)))
  | Ok (Miss _) => Ok None
  | OutOfBounds => OutOfBounds
  | OutOfFuel => OutOfFuel
  end.
Proof.
  intros Hn. induction fuel as [|fuel IH]; intros key; simpl; auto.
  destruct (negb (inb tb key)); auto.
  destruct (same_face tets (rd hsh0 tb key) k); auto.
  destruct (negb (nex (rd hsh0 tb key) =? 0)); auto.
  rewrite wrap32_small by (pose proof (Hn key); lia). apply IH.
Qed.

Section Walk2.
Variables (tets : list TetSct) (msk H : Z) (tb : list HshSct) (cp : Z).
Variable A : list (Z * Z).
Hypothesis Inv : tab_inv tets msk H tb cp A.
Hypothesis Hhash : forall k, 0 <= hash msk k < H.
Hypothesis Hsmall : Z.of_nat (length tb) <= 2 ^ 31.

Lemma nex_small (s : Z) : 0 <= nex (rd hsh0 tb s) < 2 ^ 31.
Proof.
  pose proof (ti_size _ _ _ _ _ _ Inv) as Sz.
  destruct (Z_lt_le_dec s 0) as [Hs|Hs].
  { unfold rd. destruct (Z.ltb_spec s 0); [simpl; lia|lia]. }
  destruct (Z_lt_le_dec s cp) as [Hc|Hc].
  - destruct (Z.eq_dec (nex (rd hsh0 tb s)) 0) as [->|Hn]; [lia|].
    destruct (ti_nex _ _ _ _ _ _ Inv s ltac:(lia) Hn) as (B & _). lia.
  - rewrite (ti_zero _ _ _ _ _ _ Inv s Hc). simpl. lia.
Qed.

(** A probe of the table with a key of distinct components. *)
Lemma walk2_spec (k : Z * Z * Z) :
  fst (fst k) <> snd (fst k) ->
  exists r, walk2 (length tb) tets tb k (hash msk k) = Ok r /\
    match r with
    | Some m => exists g, In g A /\ fkey tets g = k /\ m = fst g
    | None => forall g, In g A -> fkey tets g <> k
    end.
Proof.
  intros Hk. pose proof (ti_size _ _ _ _ _ _ Inv) as Sz.
  pose proof (Hhash k) as Hb.
  destruct (Z.eq_dec (htet (rd hsh0 tb (hash msk k))) 0) as [He|Hu].
  - exists None. split; [|now apply (lookup_empty _ _ _ _ _ _ Inv Hhash)].
    destruct (length tb) as [|n] eqn:El; [simpl in Sz; lia|].
    cbn [walk2].
    assert (Hin : inb tb (hash msk k) = true) by (apply inb_true; lia).
    rewrite Hin. cbn [negb].
    assert (Hb' : 0 <= hash msk k < H) by lia.
    rewrite (ti_empty _ _ _ _ _ _ Inv _ Hb' He).
    assert (Es : same_face tets hsh0 k = false).
    { destruct (same_face tets hsh0 k) eqn:E; [|reflexivity].
      apply same_face_skey in E. destruct k as [[a b] c].
      unfold skey in E. cbn in E. inversion E. cbn in Hk. congruence. }
    rewrite Es. reflexivity.
  - rewrite (walk2_find tets tb k nex_small).
    destruct (lookup_used _ _ _ _ _ _ Inv Hhash k Hu) as (r & Er & Hr).
    rewrite Er. destruct r as [s|e].
    + destruct Hr as (_ & g & Hg & (Ht & _) & Ek).
      exists (Some (htet (rd hsh0 tb s))). split; [reflexivity|].
      exists g. auto.
    + destruct Hr as (_ & _ & _ & _ & No).
      exists None. split; [reflexivity|exact No].
Qed.
End Walk2.

(** ** Phase two *)

Section Phase2.
Variables (tets : list TetSct) (T N : Z).
Hypothesis HT : 1 <= T.
Hypothesis HN : 1 <= N.
Hypothesis Hdist : forall i, 1 <= i <= T -> distinct_tet (tet_at tets i).
Hypothesis Htwo : at_most_two tets T.
Hypothesis Hsmall : 5 * hsh_siz T N <= 2 ^ 31.
Variables s1 s2 : list Z.
Hypothesis Hs1 : schedule N s1.
Hypothesis Hs2 : schedule N s2.
Variable st1 : State.
Hypothesis G1 : g1 tets T N s1 st1.

Lemma In_workers (c : Z) : In c (Zseq 0 (Z.to_nat N)) <-> 0 <= c < N.
Proof. rewrite In_Zseq. lia. Qed.

Lemma dfaces_valid (c : Z) (g : Z * Z) :
  0 <= c < N -> In g (dfaces T N c) -> valid T g /\ dbeg T N c <= fst g <= dend T N c.
Proof.
  intros Hc Hg. destruct g as [gi gj]. apply In_dfaces in Hg.
  destruct Hg as (Hg1 & Hg2).
  pose proof (dom_inside T N HT HN c gi Hc Hg1).
  split; [split; cbn [fst snd]; lia|exact Hg1].
Qed.

(** After phase one a cell holds the partner of its face inside the
    subdomain, or zero. *)
Lemma local_spec (c i j : Z) :
  0 <= c < N -> dbeg T N c <= i <= dend T N c -> 0 <= j < 4 ->
  (forall g, In g (dfaces T N c) -> partners tets (i, j) g ->
             ngb (NgbTab st1) i j = fst g) /\
  ((forall g, In g (dfaces T N c) -> ~ partners tets (i, j) g) ->
   ngb (NgbTab st1) i j = 0).
Proof.
  intros Hc Hi Hj. destruct (g1_ngb _ _ _ _ _ G1 i j Hj) as (N1 & N2).
  assert (Hin : In (i, j) (dfaces T N c)) by (apply In_dfaces; auto).
  split.
  - intros g Hg Pg. apply (N1 c g); auto. now apply Hs1.
  - intros Hno. apply N2. intros c' g Hc' Hin' Hg.
    apply Hs1 in Hc'. apply In_dfaces in Hin'.
    assert (c = c') by (apply (dom_disjoint T N HT HN c c' i); tauto).
    subst c'. now apply Hno.
Qed.

Lemma nonzero_final (c i j : Z) :
  0 <= c < N -> dbeg T N c <= i <= dend T N c -> 0 <= j < 4 ->
  ngb (NgbTab st1) i j <> 0 ->
  cell_final tets T (NgbTab st1) (i, j).
Proof.
  intros Hc Hi Hj Hnz. destruct (local_spec c i j Hc Hi Hj) as (L1 & L2).
  assert (Vf : valid T (i, j)).
  { pose proof (dom_inside T N HT HN c i Hc Hi). split; cbn [fst snd]; lia. }
  split; cbn [fst snd].
  - intros g Vg (Ng & Eg).
    destruct (Z.eq_dec (ngb (NgbTab st1) i j) (fst g)) as [|Ne]; [assumption|].
    exfalso. apply Hnz. apply L2. intros h Hh (Nh & Eh).
    destruct (dfaces_valid c h Hc Hh) as (Vh & _).
    destruct (Htwo (i, j) g h Vf Vg Vh) as [E|[E|E]]; try congruence.
    subst h. apply Ne. apply L1; auto. split; auto.
  - intros Hno. exfalso. apply Hnz. apply L2. intros h Hh.
    apply Hno. now apply (dfaces_valid c h).
Qed.

Lemma zero_no_local (c i j : Z) (g : Z * Z) :
  0 <= c < N -> dbeg T N c <= i <= dend T N c -> 0 <= j < 4 ->
  ngb (NgbTab st1) i j = 0 ->
  In g (dfaces T N c) -> ~ partners tets (i, j) g.
Proof.
  intros Hc Hi Hj Hz Hg Pg.
  destruct (local_spec c i j Hc Hi Hj) as (L1 & _).
  destruct (dfaces_valid c g Hc Hg) as ((Vg & _) & _).
  rewrite (L1 g Hg Pg) in Hz. lia.
Qed.

Lemma dec_small : 0 <= dec T N <= 31.
Proof.
  split; [apply dec_nonneg|].
  rewrite hsh_siz_pow2 in Hsmall.
  destruct (Z_le_gt_dec (dec T N) 31) as [|Hgt]; [assumption|].
  assert (2 ^ 32 <= 2 ^ dec T N) by (apply Z.pow_le_mono_r; lia).
  change (2 ^ 32) with (2 * 2 ^ 31) in *. lia.
Qed.

(** The loop over the other workers finds the partner of a face that has
    none in its own subdomain, if there is one. *)
Lemma probe_run (c i j : Z) :
  0 <= c < N -> dbeg T N c <= i <= dend T N c -> 0 <= j < 4 ->
  exists r,
    foldM (probe tets (par st1) c (fkey tets (i, j))
                 (hash (hsh_siz T N - 1) (fkey tets (i, j))))
          (Zseq 0 (Z.to_nat N)) None = Ok r /\
    match r with
    | Some m => exists n g, 0 <= n < N /\ n <> c /\ In g (dfaces T N n) /\
                            fkey tets g = fkey tets (i, j) /\ m = fst g
    | None => forall n g, 0 <= n < N -> n <> c -> In g (dfaces T N n) ->
                          fkey tets g <> fkey tets (i, j)
    end.
Proof.
  intros Hc Hi Hj. set (k := fkey tets (i, j)).
  assert (Hk : fst (fst k) <> snd (fst k)).
  { pose proof (dom_inside T N HT HN c i Hc Hi) as Vi.
    pose proof (ckey_increasing (tet_at tets i) j (Hdist i Vi) Hj) as X.
    unfold k, fkey. cbn [fst snd]. lia. }
  destruct (foldM_prefix
              (probe tets (par st1) c k (hash (hsh_siz T N - 1) k))
              (fun Dn r =>
                 match r with
                 | Some m => exists n g, 0 <= n < N /\ n <> c /\
                                         In g (dfaces T N n) /\
                                         fkey tets g = k /\ m = fst g
                 | None => forall n g, In n Dn -> n <> c ->
                                       In g (dfaces T N n) -> fkey tets g <> k
                 end)
              (Zseq 0 (Z.to_nat N))) with (s := @None Z) as (r & Er & Hr).
  - intros Dn n R r E Ir.
    assert (Hn : 0 <= n < N) by (apply In_workers; rewrite E; apply in_elt).
    destruct r as [m|]; [exists (Some m); split; [reflexivity|exact Ir]|].
    unfold probe. destruct (Z.eqb_spec n c) as [->|Hnc].
    + exists None. split; [reflexivity|].
      intros n' g Hn' Hne. apply in_app_iff in Hn'. simpl in Hn'.
      destruct Hn' as [X|[X|[]]]; [now apply Ir|congruence].
    + destruct (g1_done _ _ _ _ _ G1 n (proj2 (proj2 Hs1 n) Hn))
        as (A & TI & AP & PA & Lt).
      destruct (walk2_spec tets _ _ _ _ A TI (hash_range T N)
                  ltac:(lia) k Hk) as (r & Er & Hr).
      rewrite Er. exists r. split; [reflexivity|].
      destruct r as [m|].
      * destruct Hr as (g & Hg & Eg & Em). exists n, g. auto 6.
      * intros n' g Hn' Hne Hg. apply in_app_iff in Hn'. simpl in Hn'.
        destruct Hn' as [X|[X|[]]]; [now apply (Ir n' g)|]. subst n'.
        destruct (PA g Hg) as (g' & Hg' & E'). rewrite <- E'. now apply Hr.
  - intros n g [].
  - exists r. split; [exact Er|]. destruct r as [m|]; [exact Hr|].
    intros n g Hn. apply Hr. now apply In_workers.
Qed.

Lemma g2_extend_same (F : list (Z * Z)) (st : State) (i j : Z) :
  g2 tets T st1 F st -> ~ In (i, j) F -> 0 <= j < 4 ->
  cell_final tets T (NgbTab st1) (i, j) ->
  g2 tets T st1 (F ++ [(i, j)]) st.
Proof.
  intros [Gp Gf Gl GF Gd Gt] Hn Hj Cf. constructor; auto.
  - intros f Hf. apply in_app_iff in Hf. simpl in Hf.
    destruct Hf as [X|[<-|[]]]; auto.
  - intros f Hf. apply in_app_iff in Hf. simpl in Hf.
    destruct Hf as [X|[<-|[]]]; auto.
    unfold cell_final in *. cbn [fst snd] in *. now rewrite (Gt i j Hn Hj).
  - intros i' j' Hn' Hj'. apply Gt; auto.
    intros X. apply Hn'. apply in_or_app; auto.
Qed.

(** One face of phase two. *)
Lemma face2_step (F : list (Z * Z)) (c i j : Z) (st : State) :
  0 <= c < N -> dbeg T N c <= i <= dend T N c -> 0 <= j < 4 -> ~ In (i, j) F ->
  g2 tets T st1 F st ->
  exists st', face2 tets c i st j = Ok st' /\
              g2 tets T st1 (F ++ [(i, j)]) st'.
Proof.
  intros Hc Hi Hj Hn G. pose proof G as [Gp Gf Gl GF Gd Gt].
  pose proof (dom_inside T N HT HN c i Hc Hi) as Vi.
  assert (Vf : valid T (i, j)) by (split; cbn [fst snd]; lia).
  unfold face2. rewrite (Gt i j Hn Hj).
  destruct (Z.eqb_spec (ngb (NgbTab st1) i j) 0) as [Hz|Hnz]; cbn [negb].
  2:{ exists st. split; [reflexivity|].
      apply g2_extend_same; auto. now apply (nonzero_final c). }
  rewrite Gp.
  destruct (g1_par _ _ _ _ _ G1 c Hc) as (_ & _ & _ & Em & En).
  rewrite Em, En.
  pose proof (canon_sorted _ j (Hdist i Vi) Hj) as S.
  assert (Ek : fkey tets (i, j) = ckey (tet_at tets i) j) by reflexivity.
  unfold ckey in Ek.
  destruct (canon (tet_at tets i) j) as [[mn md] mx] eqn:Ec.
  destruct (Z.ltb_spec md 4) as [_|]; [|lia]. cbn [negb].
  rewrite <- Ek.
  replace (hash32 (hsh_siz T N - 1) (fkey tets (i, j)))
    with (hash (hsh_siz T N - 1) (fkey tets (i, j)))
    by (rewrite hsh_siz_pow2; symmetry; apply hash32_hash, dec_small).
  destruct (probe_run c i j Hc Hi Hj) as (r & Er & Hr).
  rewrite Er. cbn [bind]. destruct r as [m|].
  - destruct Hr as (n & g & Hn' & Hnc & Hg & Eg & ->).
    destruct (dfaces_valid n g Hn' Hg) as (Vg & Dg).
    assert (Ng : g <> (i, j)).
    { intros ->. apply Hnc. cbn [fst] in Dg.
      apply (dom_disjoint T N HT HN n c i); auto. }
    eexists. split; [reflexivity|].
    assert (Hcell : 0 <= cell i j < Z.of_nat (length (NgbTab st))).
    { rewrite Gl, (g1_lngb _ _ _ _ _ G1). unfold cell. lia. }
    constructor; cbn [par FlgTab NgbTab]; auto.
    + now rewrite length_wr.
    + intros f Hf. apply in_app_iff in Hf. simpl in Hf.
      destruct Hf as [X|[<-|[]]]; auto.
    + intros f Hf. apply in_app_iff in Hf. simpl in Hf.
      destruct Hf as [X|[<-|[]]].
      * pose proof (Gd f X) as Cf. pose proof (GF f X) as Hf2.
        unfold cell_final in *. rewrite ngb_wr by auto.
        destruct (face_eq_dec (fst f, snd f) (i, j)) as [E|_]; [|exact Cf].
        exfalso. apply Hn. now rewrite <- E, <- surjective_pairing.
      * unfold cell_final. cbn [fst snd]. rewrite ngb_wr by auto.
        destruct (face_eq_dec (i, j) (i, j)) as [_|X]; [|now elim X].
        split.
        -- intros h Vh (Nh & Eh).
           destruct (Htwo (i, j) g h Vf Vg Vh) as [E|[E|E]]; congruence.
        -- intros Hno. exfalso. apply (Hno g Vg). split; auto.
    + intros i' j' Hn2 Hj'. rewrite ngb_wr by auto.
      destruct (face_eq_dec (i', j') (i, j)) as [E|_].
      * exfalso. apply Hn2. rewrite E. apply in_or_app; simpl; auto.
      * apply Gt; auto. intros X. apply Hn2. apply in_or_app; auto.
  - exists st. split; [reflexivity|].
    apply g2_extend_same; auto.
    split; cbn [fst snd]; [|auto].
    intros g Vg Pg. exfalso.
    destruct (dom_cover T N HT HN (fst g) (proj1 Vg)) as (n & Hn' & Dn).
    assert (Hg : In g (dfaces T N n)).
    { rewrite (surjective_pairing g). apply In_dfaces; auto.
      split; [exact Dn|apply Vg]. }
    destruct (Z.eq_dec n c) as [->|Hnc].
    + now apply (zero_no_local c i j g).
    + apply (Hr n g Hn' Hnc Hg). apply Pg.
Qed.

Lemma g2_extend_row (F : list (Z * Z)) (J : list Z) (c i : Z) (st : State) :
  0 <= c < N -> dbeg T N c <= i <= dend T N c ->
  (forall j, In j J -> ~ In (i, j) F) -> NoDup J ->
  (forall j, In j J -> 0 <= j < 4 /\ ngb (NgbTab st1) i j <> 0) ->
  g2 tets T st1 F st ->
  g2 tets T st1 (F ++ map (pair i) J) st.
Proof.
  intros Hc Hi. revert F. induction J as [|j J IH]; intros F Hn ND HJ G.
  - simpl. now rewrite app_nil_r.
  - inversion ND as [|? ? Nj ND']; subst.
    destruct (HJ j (or_introl eq_refl)) as (Hj & Hz).
    cbn [map].
    replace (F ++ (i, j) :: map (pair i) J)
      with ((F ++ [(i, j)]) ++ map (pair i) J)
      by (now rewrite <- app_assoc).
    apply IH; auto.
    + intros j' Hj' X. apply in_app_iff in X. simpl in X.
      destruct X as [X|[X|[]]]; [apply (Hn j'); simpl; auto|].
      inversion X; subst. contradiction.
    + intros j' Hj'. apply HJ. now right.
    + apply g2_extend_same; auto.
      * apply Hn. now left.
      * now apply (nonzero_final c).
Qed.

(** One tet of phase two. *)
Lemma tet2_step (F : list (Z * Z)) (c i : Z) (st : State) :
  0 <= c < N -> dbeg T N c <= i <= dend T N c -> (forall j, ~ In (i, j) F) ->
  g2 tets T st1 F st ->
  exists st', tet2 tets c st i = Ok st' /\
              g2 tets T st1 (F ++ map (pair i) [0; 1; 2; 3]) st'.
Proof.
  intros Hc Hi Hn G. unfold tet2. rewrite (g2_flg _ _ _ _ _ G).
  destruct (Z.eqb_spec (rd 0 (FlgTab st1) i) 4) as [E4|_].
  - exists st. split; [reflexivity|].
    rewrite (g1_flg _ _ _ _ _ G1 i) in E4. unfold nz in E4.
    assert (Q : forall x, nzc x = 1 -> x <> 0).
    { intros x. unfold nzc. destruct (Z.eqb_spec x 0); lia. }
    pose proof (nzc_range (ngb (NgbTab st1) i 0)).
    pose proof (nzc_range (ngb (NgbTab st1) i 1)).
    pose proof (nzc_range (ngb (NgbTab st1) i 2)).
    pose proof (nzc_range (ngb (NgbTab st1) i 3)).
    apply (g2_extend_row F [0; 1; 2; 3] c i st); auto.
    + repeat constructor; simpl; intuition congruence.
    + intros j Hj. simpl in Hj.
      split; [lia|]. apply Q.
      destruct Hj as [<-|[<-|[<-|[<-|[]]]]]; lia.
  - destruct (foldM_prefix (face2 tets c i)
                (fun J s => g2 tets T st1 (F ++ map (pair i) J) s)
                [0; 1; 2; 3]) with (s := st) as (st' & E' & G').
    + intros J j R s E Gs.
      assert (Hj : In j [0; 1; 2; 3]) by (rewrite E; apply in_elt).
      assert (NJ : ~ In j J).
      { assert (ND : NoDup [0; 1; 2; 3])
          by (repeat constructor; simpl; intuition congruence).
        rewrite E in ND. apply NoDup_remove_2 in ND.
        intros X. apply ND. apply in_or_app; auto. }
      destruct (face2_step (F ++ map (pair i) J) c i j s) as (s' & Es & Gs');
        auto.
      * simpl in Hj. lia.
      * intros X. apply in_app_iff in X. destruct X as [X|X].
        -- now apply (Hn j).
        -- apply in_map_iff in X. destruct X as (j' & Ej & Hj').
           inversion Ej; subst. contradiction.
      * exists s'. split; [exact Es|].
        now rewrite map_app, app_assoc.
    + simpl. now rewrite app_nil_r.
    + exists st'. split; [exact E'|exact G'].
Qed.

(** One worker of phase two. *)
Lemma ParNgb2_step (D R : list Z) (c : Z) (st : State) :
  s2 = D ++ c :: R ->
  g2 tets T st1 (flat_map (dfaces T N) D) st ->
  exists st', ParNgb2 tets c st = Ok st' /\
              g2 tets T st1 (flat_map (dfaces T N) (D ++ [c])) st'.
Proof.
  intros ED G.
  destruct Hs2 as (ND2 & Hin2).
  assert (Hc : 0 <= c < N) by (apply Hin2; rewrite ED; apply in_elt).
  assert (HD : forall c', In c' D -> 0 <= c' < N).
  { intros c' X. apply Hin2. rewrite ED. apply in_or_app; auto. }
  assert (HcD : ~ In c D).
  { rewrite ED in ND2.
    apply NoDup_remove_2 in ND2. intros X. apply ND2. apply in_or_app; auto. }
  unfold ParNgb2. rewrite (g2_par _ _ _ _ _ G).
  destruct (g1_par _ _ _ _ _ G1 c Hc) as (-> & -> & _).
  destruct (foldM_prefix (tet2 tets c)
              (fun Q s =>
                 g2 tets T st1
                    (flat_map (dfaces T N) D ++
                     flat_map (fun i => map (pair i) [0; 1; 2; 3]) Q) s)
              (Zrange (dbeg T N c) (dend T N c))) with (s := st)
    as (st' & E' & G').
  - intros Q i R' s E Gs.
    assert (Hi : dbeg T N c <= i <= dend T N c).
    { apply In_Zrange. rewrite E. apply in_elt. }
    assert (NQ : ~ In i Q).
    { pose proof (NoDup_Zseq (dbeg T N c)
                    (Z.to_nat (dend T N c - dbeg T N c + 1))) as ND.
      fold (Zrange (dbeg T N c) (dend T N c)) in ND.
      rewrite E in ND. apply NoDup_remove_2 in ND.
      intros X. apply ND. apply in_or_app; auto. }
    assert (Nf : forall j, ~ In (i, j)
                   (flat_map (dfaces T N) D ++
                    flat_map (fun i => map (pair i) [0; 1; 2; 3]) Q)).
    2: destruct (tet2_step _ c i s Hc Hi Nf Gs) as (s' & Es & Gs').
    + intros j X. apply in_app_iff in X. destruct X as [X|X].
      * apply in_flat_map in X. destruct X as (c' & Hc' & X).
        apply In_dfaces in X. apply HcD.
        rewrite (dom_disjoint T N HT HN c c' i); auto. tauto.
      * apply in_flat_map in X. destruct X as (i' & Hi' & X).
        apply in_map_iff in X. destruct X as (j' & Ej & _).
        inversion Ej; subst. contradiction.
    + exists s'. split; [exact Es|].
      now rewrite flat_map_app, app_assoc, <- app_assoc; cbn [flat_map];
        rewrite app_nil_r, app_assoc.
  - simpl. now rewrite app_nil_r.
  - exists st'. split; [exact E'|].
    rewrite flat_map_app. cbn [flat_map]. now rewrite app_nil_r.
Qed.

Lemma g2_start : g2 tets T st1 [] st1.
Proof. constructor; auto; intros f []. Qed.

(** The second launch completes and treats every face. *)
Lemma phase2_run :
  exists st, LaunchSched (ParNgb2 tets) s2 st1 = Ok st /\
             g2 tets T st1 (flat_map (dfaces T N) s2) st.
Proof.
  unfold LaunchSched.
  apply (foldM_prefix _
           (fun D st => g2 tets T st1 (flat_map (dfaces T N) D) st)).
  - intros D c R st E G. now apply (ParNgb2_step D R c st).
  - apply g2_start.
Qed.
End Phase2.

(** ** Both phases *)

Lemma face_eqb_eq (f g : Z * Z) : face_eqb f g = true <-> f = g.
Proof.
  destruct f, g. unfold face_eqb. cbn [fst snd].
  rewrite andb_true_iff, !Z.eqb_eq. split; [intros []|intros E; inversion E];
    subst; auto.
Qed.

Lemma key_eqb_eq (k k' : Z * Z * Z) : key_eqb k k' = true <-> k = k'.
Proof.
  destruct k as [[a b] c], k' as [[a' b'] c']. unfold key_eqb. cbn [fst snd].
  rewrite !andb_true_iff, !Z.eqb_eq.
  split; [intros [[]]|intros E; inversion E]; subst; auto.
Qed.

Lemma shared_at_most_two (msh : MshSct) :
  distinct_mesh msh -> shared_le2 msh ->
  at_most_two (tet msh) (NmbTet msh).
Proof.
  intros D S f g h Vf Vg Vh E1 E2.
  assert (Q : forall a b, valid (NmbTet msh) a -> valid (NmbTet msh) b ->
                fkey (tet msh) a = fkey (tet msh) b -> fst a = fst b -> a = b).
  { intros [ai aj] [bi bj] (Va & Va') (Vb & Vb') E Ei.
    cbn [fst snd] in *. subst bi. f_equal.
    apply (ckey_inj (tet_at (tet msh) ai)); auto. }
  destruct (S f g h Vf Vg Vh E1 E2) as [E|[E|E]].
  - left. now apply Q.
  - right; left. apply Q; auto. congruence.
  - right; right. now apply Q.
Qed.

(** A final cell holds what [partner_of] computes. *)
Lemma cell_final_partner_gen (tets : list TetSct) (T : Z) (Ngb : list Z)
  (f : Z * Z) :
  cell_final tets T Ngb f ->
  ngb Ngb (fst f) (snd f) = partner_of tets T f.
Proof.
  intros (C1 & C2). unfold partner_of.
  destruct (find _ (faces 1 T)) as [g|] eqn:Ef.
  - apply find_some in Ef. destruct Ef as (Hg & Hp).
    apply andb_true_iff in Hp. destruct Hp as (Hne & Hk).
    apply key_eqb_eq in Hk.
    apply C1.
    + destruct g as [gi gj]. apply In_faces in Hg. split; tauto.
    + split; [|exact Hk]. intros ->.
      rewrite (proj2 (face_eqb_eq f f) eq_refl) in Hne. discriminate.
  - apply C2. intros g (V1 & V2) (Ne & Ek).
    assert (Hg : In g (faces 1 T)).
    { rewrite (surjective_pairing g). apply In_faces. auto. }
    pose proof (find_none _ _ Ef g Hg) as X. cbn beta in X.
    apply andb_false_iff in X. destruct X as [X|X].
    + apply negb_false_iff, face_eqb_eq in X. contradiction.
    + rewrite (proj2 (key_eqb_eq _ _) Ek) in X. discriminate.
Qed.

Section Correct.
Variables (msh : MshSct) (N : Z).
Hypothesis Hwf : wf_mesh msh.
Hypothesis Hdist : distinct_mesh msh.
Hypothesis Hsh : shared_le2 msh.
Hypothesis HN : 1 <= N.
Hypothesis Hload : last_fits (NmbTet msh) N.
Hypothesis Hint : int_indexed (NmbTet msh) N.
Variables s1 s2 : list Z.
Hypothesis Hs1 : schedule N s1.
Hypothesis Hs2 : schedule N s2.

(** Once the first launch has built every table, the second one completes
    and every cell of the table is final. *)
Lemma final_after_phase1 (st1 : State) :
  g1 (tet msh) (NmbTet msh) N s1 st1 ->
  exists st,
    (if 1 <? N then LaunchSched (ParNgb2 (tet msh)) s2 st1 else Ok st1)
      = Ok st /\
    length (NgbTab st) = Z.to_nat (4 * (NmbTet msh + 1)) /\
    forall i j, 0 <= j < 4 ->
      (1 <= i <= NmbTet msh ->
       cell_final (tet msh) (NmbTet msh) (NgbTab st) (i, j)) /\
      (~ 1 <= i <= NmbTet msh -> ngb (NgbTab st) i j = 0).
Proof.
  clear Hload. intros G1. destruct Hwf as (HT & _).
  pose proof (shared_at_most_two msh Hdist Hsh) as Htwo.
  set (T := NmbTet msh) in *. set (tets := tet msh) in *.
  assert (Out : forall i j, 0 <= j < 4 -> ~ 1 <= i <= T ->
                            ngb (NgbTab st1) i j = 0).
  { intros i j Hj Hi. destruct (g1_ngb _ _ _ _ _ G1 i j Hj) as (_ & N2).
    apply N2. intros c g Hc Hin. exfalso. apply Hi.
    apply Hs1 in Hc. apply In_dfaces in Hin.
    apply (dom_inside T N HT HN c i); tauto. }
  destruct (Z.ltb_spec 1 N) as [HN2|HN1].
  - destruct (phase2_run tets T N HT HN Hdist Htwo Hint s1 s2 Hs1 Hs2 st1 G1)
      as (st2 & E2 & G2).
    exists st2. split; [exact E2|]. split.
    { rewrite (g2_len _ _ _ _ _ G2). apply (g1_lngb _ _ _ _ _ G1). }
    intros i j Hj. split.
    + intros Hi. apply (g2_done _ _ _ _ _ G2).
      destruct (dom_cover T N HT HN i Hi) as (c & Hc & Dc).
      apply in_flat_map. exists c. split; [now apply Hs2|].
      apply In_dfaces; auto.
    + intros Hi. rewrite (g2_todo _ _ _ _ _ G2); auto.
      intros X. apply in_flat_map in X. destruct X as (c & Hc & X).
      apply Hs2 in Hc. apply In_dfaces in X. apply Hi.
      apply (dom_inside T N HT HN c i); tauto.
  - assert (N = 1) by lia. subst N.
    exists st1. split; [reflexivity|].
    split; [apply (g1_lngb _ _ _ _ _ G1)|].
    intros i j Hj. split; [|now apply Out].
    intros Hi.
    assert (D0 : dbeg T 1 0 <= i <= dend T 1 0).
    { unfold dbeg, dend. rewrite Z.div_1_r.
      change (0 =? 1 - 1) with true. cbv iota. lia. }
    destruct (local_spec tets T 1 HT HN s1 Hs1 st1 G1 0 i j ltac:(lia) D0 Hj)
      as (L1 & L2).
    assert (V : forall g, valid T g -> In g (dfaces T 1 0)).
    { intros [gi gj] (V1 & V2). apply In_dfaces. split; [|exact V2].
      unfold dbeg, dend. rewrite Z.div_1_r.
      change (0 =? 1 - 1) with true. cbv iota. cbn [fst snd] in *. lia. }
    split; cbn [fst snd].
    + intros g Vg Pg. apply L1; auto.
    + intros Hno. apply L2. intros g Hg. apply Hno.
      now apply (dfaces_valid T 1 HT HN 0 g).
Qed.

(** A table whose cells are final is the one the mesh determines. *)
Lemma final_is_spec (st : State) :
  length (NgbTab st) = Z.to_nat (4 * (NmbTet msh + 1)) ->
  (forall i j, 0 <= j < 4 ->
     (1 <= i <= NmbTet msh ->
      cell_final (tet msh) (NmbTet msh) (NgbTab st) (i, j)) /\
     (~ 1 <= i <= NmbTet msh -> ngb (NgbTab st) i j = 0)) ->
  NgbTab st = ngb_spec (tet msh) (NmbTet msh).
Proof.
  intros L C. destruct Hwf as (HT & _).
  set (T := NmbTet msh) in *. set (tets := tet msh) in *.
  apply (nth_ext _ _ 0 0).
  - unfold ngb_spec. now rewrite L, length_map, length_Zseq.
  - intros n Hn. rewrite L in Hn.
    assert (Rn : forall l : list Z, nth n l 0 = rd 0 l (Z.of_nat n)).
    { intros l. unfold rd. destruct (Z.ltb_spec (Z.of_nat n) 0); [lia|].
      now rewrite Nat2Z.id. }
    rewrite !Rn. unfold ngb_spec. rewrite rd_map_Zseq by lia.
    set (x := Z.of_nat n).
    assert (Hx : 0 <= x) by lia.
    pose proof (Z.div_mod x 4 ltac:(lia)) as Dm.
    pose proof (Z.mod_pos_bound x 4 ltac:(lia)) as Mb.
    assert (En : rd 0 (NgbTab st) x = ngb (NgbTab st) (x / 4) (x mod 4)).
    { unfold ngb, cell. f_equal. lia. }
    rewrite En. destruct (C (x / 4) (x mod 4) Mb) as (C1 & C2).
    destruct (Z.leb_spec 1 (x / 4)); destruct (Z.leb_spec (x / 4) T);
      cbn [andb]; try (apply C2; lia).
    apply (cell_final_partner_gen tets T (NgbTab st) (x / 4, x mod 4)).
    apply C1. lia.
Qed.

(** Two launches that have run to their end leave every cell final,
    whether or not the range of the last worker was known to fit. *)
Lemma neighbours_sched_part (st : State) :
  neighbours_sched msh N s1 s2 = Ok st ->
  length (NgbTab st) = Z.to_nat (4 * (NmbTet msh + 1)) /\
  forall i j, 0 <= j < 4 ->
    (1 <= i <= NmbTet msh ->
     cell_final (tet msh) (NmbTet msh) (NgbTab st) (i, j)) /\
    (~ 1 <= i <= NmbTet msh -> ngb (NgbTab st) i j = 0).
Proof.
  clear Hload. unfold neighbours_sched.
  destruct (LaunchSched (ParNgb1 (tet msh)) s1 (init_state (NmbTet msh) N))
    as [st1| |] eqn:E1; cbn [bind]; try discriminate.
  intros E.
  pose proof (phase1_part (tet msh) (NmbTet msh) N (proj1 Hwf) HN Hdist
                (shared_at_most_two msh Hdist Hsh) s1 Hs1 st1 E1) as G1.
  destruct (final_after_phase1 st1 G1) as (st2 & E2 & C).
  rewrite E2 in E. injection E as <-. exact C.
Qed.

Lemma neighbours_sched_part_spec (st : State) :
  neighbours_sched msh N s1 s2 = Ok st ->
  NgbTab st = ngb_spec (tet msh) (NmbTet msh).
Proof.
  clear Hload. intros E. destruct (neighbours_sched_part st E) as (L & C).
  now apply final_is_spec.
Qed.

(** Both launches complete, and every cell of the table is final. *)
Lemma neighbours_sched_final :
  exists st, neighbours_sched msh N s1 s2 = Ok st /\
    length (NgbTab st) = Z.to_nat (4 * (NmbTet msh + 1)) /\
    forall i j, 0 <= j < 4 ->
      (1 <= i <= NmbTet msh ->
       cell_final (tet msh) (NmbTet msh) (NgbTab st) (i, j)) /\
      (~ 1 <= i <= NmbTet msh -> ngb (NgbTab st) i j = 0).
Proof.
  destruct (phase1_run (tet msh) (NmbTet msh) N (proj1 Hwf) HN Hdist
              (shared_at_most_two msh Hdist Hsh) s1 Hs1 Hload)
    as (st1 & E1 & G1).
  destruct (final_after_phase1 st1 G1) as (st & E2 & C).
  exists st. split; [|exact C].
  unfold neighbours_sched. rewrite E1. exact E2.
Qed.

(** The table is the one the mesh determines, whatever the worker count. *)
Lemma neighbours_sched_spec :
  exists st, neighbours_sched msh N s1 s2 = Ok st /\
             NgbTab st = ngb_spec (tet msh) (NmbTet msh).
Proof.
  destruct neighbours_sched_final as (st & E & L & C).
  exists st. split; [exact E|]. now apply final_is_spec.
Qed.
End Correct.

Lemma schedule_Zseq (N : Z) : 0 <= N -> schedule N (Zseq 0 (Z.to_nat N)).
Proof.
  intros HN. split; [apply NoDup_Zseq|]. intros c. rewrite In_Zseq. lia.
Qed.

(** The same with the workers taken in increasing id. *)
Lemma neighbours_final (msh : MshSct) (N : Z) :
  wf_mesh msh -> distinct_mesh msh -> shared_le2 msh -> 1 <= N ->
  last_fits (NmbTet msh) N -> int_indexed (NmbTet msh) N ->
  exists st, neighbours msh N = Ok st /\
    length (NgbTab st) = Z.to_nat (4 * (NmbTet msh + 1)) /\
    forall i j, 0 <= j < 4 ->
      (1 <= i <= NmbTet msh ->
       cell_final (tet msh) (NmbTet msh) (NgbTab st) (i, j)) /\
      (~ 1 <= i <= NmbTet msh -> ngb (NgbTab st) i j = 0).
Proof.
  intros W D S HN L I.
  apply (neighbours_sched_final msh N W D S HN L I);
    apply schedule_Zseq; lia.
Qed.

Lemma neighbours_spec (msh : MshSct) (N : Z) :
  wf_mesh msh -> distinct_mesh msh -> shared_le2 msh -> 1 <= N ->
  last_fits (NmbTet msh) N -> int_indexed (NmbTet msh) N ->
  exists st, neighbours msh N = Ok st /\
             NgbTab st = ngb_spec (tet msh) (NmbTet msh).
Proof.
  intros W D S HN L I.
  apply (neighbours_sched_spec msh N W D S HN L I);
    apply schedule_Zseq; lia.
Qed.

(** A run that comes to its end leaves the table of the mesh, whether or
    not the tets of the last worker were known to fit its table. *)
Lemma neighbours_part_spec (msh : MshSct) (N : Z) (st : State) :
  wf_mesh msh -> distinct_mesh msh -> shared_le2 msh -> 1 <= N ->
  int_indexed (NmbTet msh) N ->
  neighbours msh N = Ok st ->
  NgbTab st = ngb_spec (tet msh) (NmbTet msh).
Proof.
  intros W D S HN I.
  apply (neighbours_sched_part_spec msh N W D S HN I);
    apply schedule_Zseq; lia.
Qed.

Lemma phase_two_frame_witness :
  par two_tets_phase2 = par two_tets_phase1 /\
  FlgTab two_tets_phase2 = FlgTab two_tets_phase1 /\
  length (NgbTab two_tets_phase2) = length (NgbTab two_tets_phase1) /\
  forall x,
    (forall i j,
       beg (rd par0 (par two_tets_phase1) 0) <= i
         <= end_ (rd par0 (par two_tets_phase1) 0) ->
       0 <= j < 4 -> x <> cell i j) ->
    rd 0 (NgbTab two_tets_phase2) x = rd 0 (NgbTab two_tets_phase1) x.
Proof.
  apply (phase_two_frame (tet0 :: two_tets 7 8) 0). vm_compute. reflexivity.
Defined.

(** ** Determinism *)

(** Two worker counts that both keep the tables within their bounds give
    the same adjacency table, in whatever order the workers of each launch
    run. *)
Lemma neighbours_deterministic (msh : MshSct) (N1 N2 : Z)
  (s1 s2 s1' s2' : list Z) :
  wf_mesh msh -> distinct_mesh msh -> shared_le2 msh ->
  1 <= N1 -> last_fits (NmbTet msh) N1 -> int_indexed (NmbTet msh) N1 ->
  1 <= N2 -> last_fits (NmbTet msh) N2 -> int_indexed (NmbTet msh) N2 ->
  schedule N1 s1 -> schedule N1 s2 -> schedule N2 s1' -> schedule N2 s2' ->
  exists st1 st2,
    neighbours_sched msh N1 s1 s2 = Ok st1 /\
    neighbours_sched msh N2 s1' s2' = Ok st2 /\
    NgbTab st1 = NgbTab st2.
Proof.
  intros W D S H1 L1 I1 H2 L2 I2 S1 S2 S1' S2'.
  destruct (neighbours_sched_spec msh N1 W D S H1 L1 I1 s1 s2 S1 S2)
    as (st1 & E1 & T1).
  destruct (neighbours_sched_spec msh N2 W D S H2 L2 I2 s1' s2' S1' S2')
    as (st2 & E2 & T2).
  exists st1, st2. repeat split; auto. congruence.
Qed.

(** Scenario S5: on ten thousand tets, one, four and eight workers give
    the same table. *)
Lemma ten_thousand_tets_deterministic (msh : MshSct) :
  NmbTet msh = 10000 ->
  wf_mesh msh -> distinct_mesh msh -> shared_le2 msh ->
  exists st1 st4 st8,
    neighbours msh 1 = Ok st1 /\ neighbours msh 4 = Ok st4 /\
    neighbours msh 8 = Ok st8 /\
    NgbTab st1 = NgbTab st4 /\ NgbTab st4 = NgbTab st8.
Proof.
  intros ET W D S.
  assert (F : forall N, In N [1; 4; 8] ->
                last_fits (NmbTet msh) N /\ int_indexed (NmbTet msh) N).
  { intros N HN. rewrite ET. unfold last_fits, int_indexed.
    simpl in HN. destruct HN as [<-|[<-|[<-|[]]]]; vm_compute;
      split; discriminate. }
  destruct (F 1) as (L1 & I1); [simpl; auto|].
  destruct (F 4) as (L4 & I4); [simpl; auto|].
  destruct (F 8) as (L8 & I8); [simpl; auto|].
  destruct (neighbours_spec msh 1 W D S ltac:(lia) L1 I1) as (st1 & E1 & T1).
  destruct (neighbours_spec msh 4 W D S ltac:(lia) L4 I4) as (st4 & E4 & T4).
  destruct (neighbours_spec msh 8 W D S ltac:(lia) L8 I8) as (st8 & E8 & T8).
  exists st1, st4, st8. repeat split; auto; congruence.
Qed.

(** ** Symmetry of the adjacency *)

(** A nonzero final cell names a partner of its face. *)
Lemma final_partner (tets : list TetSct) (T : Z) (Ngb : list Z) (f : Z * Z) :
  cell_final tets T Ngb f -> ngb Ngb (fst f) (snd f) <> 0 ->
  exists g, valid T g /\ partners tets f g /\
            ngb Ngb (fst f) (snd f) = fst g.
Proof.
  intros C Hnz. pose proof (cell_final_partner_gen tets T Ngb f C) as E.
  unfold partner_of in E.
  destruct (find _ (faces 1 T)) as [g|] eqn:Ef; [|congruence].
  apply find_some in Ef. destruct Ef as (Hg & Hp).
  apply andb_true_iff in Hp. destruct Hp as (Hne & Hk).
  apply key_eqb_eq in Hk.
  exists g. split; [|split; [split|]]; auto.
  - destruct g as [gi gj]. apply In_faces in Hg. split; tauto.
  - intros ->. rewrite (proj2 (face_eqb_eq f f) eq_refl) in Hne. discriminate.
Qed.

(** C2, as the code has it: on a mesh whose tets have pairwise distinct
    vertex indices, whose faces are shared by at most two tets and of
    which no two tets have more than one face in common, with table slots
    that an [int] can index, a run of both launches, in whatever order
    their workers run, that comes to its end leaves a table in which,
    whenever [NgbTab[i][j] = m] is nonzero, [m] is a tet of the mesh,
    exactly one face position [j2] of [m] holds [NgbTab[m][j2] = i], and
    face [j2] of [m] has the canonical key of face [j] of [i].  The run
    does come to its end when the table of the last worker holds its
    tets. *)
Theorem neighbour_symmetry (msh : MshSct) (N : Z) (s1 s2 : list Z) :
  wf_mesh msh -> distinct_mesh msh -> shared_le2 msh ->
  one_common_face msh ->
  1 <= N -> int_indexed (NmbTet msh) N ->
  schedule N s1 -> schedule N s2 ->
  (last_fits (NmbTet msh) N ->
   exists st, neighbours_sched msh N s1 s2 = Ok st) /\
  forall st, neighbours_sched msh N s1 s2 = Ok st ->
    forall i j m,
      1 <= i <= NmbTet msh -> 0 <= j < 4 ->
      ngb (NgbTab st) i j = m -> m <> 0 ->
      1 <= m <= NmbTet msh /\
      unique_back_pointer (tet msh) (NgbTab st) i j m.
Proof.
  intros W D S O HN I S1 S2. split.
  { intros L.
    destruct (neighbours_sched_final msh N W D S HN L I s1 s2 S1 S2)
      as (st & E & _).
    now exists st. }
  intros st E i j m Hi Hj Em Hm.
  destruct (neighbours_sched_part msh N W D S HN I s1 s2 S1 S2 st E)
    as (_ & C).
  destruct (C i j Hj) as (Ci & _). specialize (Ci Hi).
  destruct (final_partner _ _ _ _ Ci) as (g & Vg & (Ng & Eg) & Ef).
  { cbn [fst snd]. congruence. }
  destruct g as [gi gj]. destruct Vg as (Vg1 & Vg2). cbn [fst snd] in *.
  assert (Emg : m = gi) by congruence. rewrite Emg in *. clear Emg m Hm.
  split; [exact Vg1|].
  assert (Hne : gi <> i).
  { intros ->. apply Ng. f_equal.
    apply (ckey_inj (tet_at (tet msh) i)); auto. }
  destruct (C gi gj Vg2) as (Cg & _). specialize (Cg Vg1).
  destruct Cg as (Cg1 & _). cbn [fst snd] in Cg1.
  exists gj. split.
  - split; [exact Vg2|]. split; [|exact Eg].
    apply (Cg1 (i, j)); [split; cbn [fst snd]; auto|].
    split; [congruence|auto].
  - intros j' Hj' Ej'.
    destruct (C gi j' Hj') as (Cj & _). specialize (Cj Vg1).
    destruct (final_partner _ _ _ _ Cj)
      as ([hi hj] & (Vh1 & Vh2) & (Nh & Eh) & Efh).
    { cbn [fst snd]. lia. }
    cbn [fst snd] in *.
    assert (Ehi : hi = i) by congruence. rewrite Ehi in *.
    apply (O (gi, j') (gi, gj) (i, hj) (i, j)); cbn [fst snd]; auto;
      try (split; cbn [fst snd]; auto).
Qed.

Lemma two_tets_hypotheses (r : TetSct) (a b : Z) :
  wf_mesh (mesh_of r (two_tets a b)) /\
  distinct_mesh (mesh_of r (two_tets a b)) /\
  shared_le2 (mesh_of r (two_tets a b)).
Proof.
  split; [|split].
  - split; [vm_compute; discriminate|reflexivity].
  - intros i Hi. change (NmbTet _) with 2 in Hi.
    assert (E : i = 1 \/ i = 2) by lia.
    destruct E as [-> | ->]; vm_compute; repeat split; discriminate.
  - intros f g h (Hf & _) (Hg & _) (Hh & _) _ _.
    change (NmbTet _) with 2 in *. lia.
Qed.

Lemma two_tets_fit (N : Z) :
  1 <= N <= 128 -> last_fits 2 N /\ int_indexed 2 N.
Proof.
  intros HN.
  assert (F : forallb (fun N => (2 - (N - 1) * (2 / N) <=? hsh_siz 2 N)
                                && (5 * hsh_siz 2 N <=? 2 ^ 31))
                      (Zrange 1 128) = true) by (vm_compute; reflexivity).
  rewrite forallb_forall in F.
  specialize (F N (proj2 (In_Zrange 1 128 N) HN)).
  apply andb_true_iff in F. destruct F as (F1 & F2).
  split; [now apply Z.leb_le in F1|now apply Z.leb_le in F2].
Qed.

(** ** Scenario S4 *)

Lemma cube_hypotheses :
  wf_mesh (mesh_of tet0 cube_tets) /\
  distinct_mesh (mesh_of tet0 cube_tets) /\
  shared_le2 (mesh_of tet0 cube_tets) /\
  one_common_face (mesh_of tet0 cube_tets).
Proof.
  assert (V : forall f, valid 6 f -> In f (faces 1 6)).
  { intros [i j] (H1 & H2). now apply In_faces. }
  assert (K : forall f g, fkey (tet0 :: cube_tets) f = fkey (tet0 :: cube_tets) g ->
                key_eqb (fkey (tet0 :: cube_tets) f)
                        (fkey (tet0 :: cube_tets) g) = true).
  { intros f g E. now apply key_eqb_eq. }
  split; [|split; [|split]].
  - split; [vm_compute; discriminate|reflexivity].
  - intros i Hi. change (NmbTet _) with 6 in Hi.
    assert (E : i = 1 \/ i = 2 \/ i = 3 \/ i = 4 \/ i = 5 \/ i = 6) by lia.
    destruct E as [-> | [-> | [-> | [-> | [-> | ->]]]]];
      vm_compute; repeat split; discriminate.
  - assert (F : forallb (fun f => forallb (fun g => forallb (fun h =>
                  implb (key_eqb (fkey (tet0 :: cube_tets) f)
                                 (fkey (tet0 :: cube_tets) g)
                         && key_eqb (fkey (tet0 :: cube_tets) g)
                                    (fkey (tet0 :: cube_tets) h))
                        ((fst f =? fst g) || (fst f =? fst h)
                         || (fst g =? fst h)))
                  (faces 1 6)) (faces 1 6)) (faces 1 6) = true)
      by (vm_compute; reflexivity).
    intros f g h Vf Vg Vh E1 E2.
    change (NmbTet _) with 6 in *.
    change (tet (mesh_of tet0 cube_tets)) with (tet0 :: cube_tets) in *.
    rewrite forallb_forall in F. specialize (F f (V f Vf)).
    rewrite forallb_forall in F. specialize (F g (V g Vg)).
    rewrite forallb_forall in F. specialize (F h (V h Vh)).
    rewrite (K f g E1), (K g h E2) in F. cbn [andb implb] in F.
    apply orb_true_iff in F. destruct F as [F|F].
    + apply orb_true_iff in F. destruct F as [F|F]; apply Z.eqb_eq in F; auto.
    + apply Z.eqb_eq in F. auto.
  - assert (F : forallb (fun f => forallb (fun f' => forallb (fun g =>
                forallb (fun g' =>
                  if fst f =? fst f' then
                    if fst g =? fst g' then
                      if fst f =? fst g then true else
                        implb (key_eqb (fkey (tet0 :: cube_tets) f)
                                       (fkey (tet0 :: cube_tets) g)
                               && key_eqb (fkey (tet0 :: cube_tets) f')
                                          (fkey (tet0 :: cube_tets) g'))
                              (snd f =? snd f')
                    else true
                  else true)
                  (faces 1 6)) (faces 1 6)) (faces 1 6)) (faces 1 6) = true)
      by (vm_compute; reflexivity).
    intros f f' g g' Vf Vf' Vg Vg' Ef Eg Hne E1 E2.
    change (NmbTet _) with 6 in *.
    change (tet (mesh_of tet0 cube_tets)) with (tet0 :: cube_tets) in *.
    rewrite forallb_forall in F. specialize (F f (V f Vf)).
    rewrite forallb_forall in F. specialize (F f' (V f' Vf')).
    rewrite forallb_forall in F. specialize (F g (V g Vg)).
    rewrite forallb_forall in F. specialize (F g' (V g' Vg')).
    rewrite (proj2 (Z.eqb_eq _ _) Ef), (proj2 (Z.eqb_eq _ _) Eg) in F.
    rewrite (proj2 (Z.eqb_neq _ _) Hne) in F.
    rewrite (K f g E1), (K f' g' E2) in F. cbn [andb implb] in F.
    now apply Z.eqb_eq in F.
Qed.

Lemma neighbour_symmetry_witness :
  ~ last_fits 6 8 /\
  neighbours_sched (mesh_of tet0 cube_tets) 8
    [7; 6; 5; 4; 3; 2; 1; 0] [0; 1; 2; 3; 4; 5; 6; 7] = Ok cube_state /\
  ngb (NgbTab cube_state) 1 1 = 3 /\
  unique_back_pointer (tet0 :: cube_tets) (NgbTab cube_state) 1 1 3.
Proof.
  assert (E : neighbours_sched (mesh_of tet0 cube_tets) 8
                [7; 6; 5; 4; 3; 2; 1; 0] [0; 1; 2; 3; 4; 5; 6; 7]
              = Ok cube_state) by (vm_compute; reflexivity).
  split; [vm_compute; intros H; apply H; reflexivity|].
  split; [exact E|]. split; [reflexivity|].
  apply (neighbour_symmetry (mesh_of tet0 cube_tets) 8
           [7; 6; 5; 4; 3; 2; 1; 0] [0; 1; 2; 3; 4; 5; 6; 7]).
  - apply cube_hypotheses.
  - apply cube_hypotheses.
  - apply cube_hypotheses.
  - apply cube_hypotheses.
  - lia.
  - vm_compute. discriminate.
  - split; [repeat constructor; simpl; lia|intros c; simpl; lia].
  - split; [repeat constructor; simpl; lia|intros c; simpl; lia].
  - exact E.
  - simpl; lia.
  - lia.
  - reflexivity.
  - discriminate.
Defined.

(** ** Scenario S3 *)

Lemma two_tets_table (r : TetSct) (a b N : Z) :
  1 <= N <= 128 ->
  exists st, neighbours (mesh_of r (two_tets a b)) N = Ok st /\
             NgbTab st = [0; 0; 0; 0; 0; 0; 0; 2; 0; 0; 0; 1].
Proof.
  intros HN.
  destruct (two_tets_hypotheses r a b) as (W & D & S).
  destruct (two_tets_fit N HN) as (L & I).
  destruct (neighbours_spec (mesh_of r (two_tets a b)) N W D S ltac:(lia) L I)
    as (st & E & Tb).
  exists st. split; [exact E|]. rewrite Tb. vm_compute. reflexivity.
Qed.

(** C9, as the code has it: on scenario S3 with any worker count, both
    adjacency entries are set; seven triangles are emitted, six with
    reference 0 and one interface triangle with reference 1, which comes
    from face 3 of tet 2, the tet with the larger id, and has the vertices
    [tet[2].idx[tvpf[3][k]]], that is (1, 3, 2). *)
Theorem interface_triangle_from_larger_tet (r : TetSct) (a b N : Z) :
  a <> b -> 1 <= N <= 128 ->
  let tets := r :: two_tets a b in
  exists st,
    neighbours (mesh_of r (two_tets a b)) N = Ok st /\
    ngb (NgbTab st) 1 3 = 2 /\ ngb (NgbTab st) 2 3 = 1 /\
    emitted tets (NgbTab st) 2 =
      [(1, 0); (1, 1); (1, 2); (2, 0); (2, 1); (2, 2); (2, 3)] /\
    interface_faces tets (NgbTab st) 2 = [(2, 3)] /\
    SetNgb (mesh_of r (two_tets a b)) N =
      Ok (mkMsh 2 tets 7
            [mkTri [2; 3; 4] 0; mkTri [3; 1; 4] 0; mkTri [4; 1; 2] 0;
             mkTri [2; 3; 5] 0; mkTri [3; 1; 5] 0; mkTri [5; 1; 2] 0;
             mkTri [1; 3; 2] 1]).
Proof.
  intros Hab HN tets.
  destruct (two_tets_table r a b N HN) as (st & E & Tb).
  exists st. split; [exact E|].
  assert (Eab : (a =? b) = false) by now apply Z.eqb_neq.
  assert (Eba : (b =? a) = false) by (apply Z.eqb_neq; congruence).
  assert (Em : emitted tets (NgbTab st) 2 =
               [(1, 0); (1, 1); (1, 2); (2, 0); (2, 1); (2, 2); (2, 3)]).
  { rewrite Tb. unfold emitted, bnd_face, is_bnd.
    change (faces 1 2)
      with [(1, 0); (1, 1); (1, 2); (1, 3); (2, 0); (2, 1); (2, 2); (2, 3)].
    cbn [filter fst snd].
    repeat match goal with
           | |- context [ngb ?l ?i ?j] =>
               let v := eval vm_compute in (ngb l i j) in
               change (ngb l i j) with v
           | |- context [ref (tet_at ?t ?i)] =>
               let v := eval cbv in (ref (tet_at t i)) in
               change (ref (tet_at t i)) with v
           end.
    rewrite Eab, Eba. reflexivity. }
  split; [now rewrite Tb|]. split; [now rewrite Tb|].
  split; [exact Em|]. split.
  - unfold interface_faces. rewrite Em, Tb. reflexivity.
  - unfold SetNgb. rewrite E. cbn [bind].
    change (tet (mesh_of r (two_tets a b))) with tets.
    change (NmbTet (mesh_of r (two_tets a b))) with 2.
    rewrite fill_tri_spec, Em, Tb. reflexivity.
Qed.

Lemma interface_triangle_from_larger_tet_witness :
  exists st,
    neighbours (mesh_of tet0 (two_tets 7 8)) 2 = Ok st /\
    ngb (NgbTab st) 1 3 = 2 /\ ngb (NgbTab st) 2 3 = 1 /\
    emitted (tet0 :: two_tets 7 8) (NgbTab st) 2 =
      [(1, 0); (1, 1); (1, 2); (2, 0); (2, 1); (2, 2); (2, 3)] /\
    interface_faces (tet0 :: two_tets 7 8) (NgbTab st) 2 = [(2, 3)] /\
    SetNgb (mesh_of tet0 (two_tets 7 8)) 2 =
      Ok (mkMsh 2 (tet0 :: two_tets 7 8) 7
            [mkTri [2; 3; 4] 0; mkTri [3; 1; 4] 0; mkTri [4; 1; 2] 0;
             mkTri [2; 3; 5] 0; mkTri [3; 1; 5] 0; mkTri [5; 1; 2] 0;
             mkTri [1; 3; 2] 1]).
Proof.
  apply (interface_triangle_from_larger_tet tet0 7 8 2); lia.
Defined.

(** C9 as stated fails on scenario S3 with one worker: the interface
    triangle is not emitted from a face of tet 1, the tet with the
    smaller id. *)
Lemma interface_triangle_not_from_smaller_tet :
  exists st,
    neighbours (mesh_of tet0 (two_tets 7 8)) 1 = Ok st /\
    ~ exists j, interface_faces (tet0 :: two_tets 7 8) (NgbTab st) 2 = [(1, j)].
Proof.
  eexists. split; [vm_compute; reflexivity|].
  intros (j & E). vm_compute in E. discriminate E.
Qed.

(** * Further properties *)

(** ** The adjacency table as a function of the mesh *)

(** X1: on a mesh whose tets have pairwise distinct vertex indices and
    whose faces are shared by at most two tets, with a worker count for
    which the last worker's table holds its faces and table slots fit an
    [int], the two launches complete in whatever order their workers run,
    and no link is missing or spurious: [NgbTab[i][j]] is the tet of the
    other face with the canonical key of face [j] of tet [i] when the mesh
    has one, and 0 when it has none. *)
Theorem adjacency_complete (msh : MshSct) (N : Z) (s1 s2 : list Z) :
  wf_mesh msh -> distinct_mesh msh -> shared_le2 msh -> 1 <= N ->
  last_fits (NmbTet msh) N -> int_indexed (NmbTet msh) N ->
  schedule N s1 -> schedule N s2 ->
  exists st, neighbours_sched msh N s1 s2 = Ok st /\
    forall f, valid (NmbTet msh) f ->
      (forall g, valid (NmbTet msh) g -> partners (tet msh) f g ->
                 ngb (NgbTab st) (fst f) (snd f) = fst g) /\
      ((forall g, valid (NmbTet msh) g -> ~ partners (tet msh) f g) ->
       ngb (NgbTab st) (fst f) (snd f) = 0).
Proof.
  intros W D S HN L I S1 S2.
  destruct (neighbours_sched_final msh N W D S HN L I s1 s2 S1 S2)
    as (st & E & _ & C).
  exists st. split; [exact E|].
  intros [i j] (Hi & Hj). cbn [fst snd] in Hi, Hj.
  destruct (C i j Hj) as (C1 & _). exact (C1 Hi).
Qed.

Lemma adjacency_complete_witness :
  exists st,
    neighbours_sched (mesh_of tet0 (two_tets 7 8)) 2 [1; 0] [0; 1] = Ok st /\
    forall f, valid 2 f ->
      (forall g, valid 2 g -> partners (tet0 :: two_tets 7 8) f g ->
                 ngb (NgbTab st) (fst f) (snd f) = fst g) /\
      ((forall g, valid 2 g -> ~ partners (tet0 :: two_tets 7 8) f g) ->
       ngb (NgbTab st) (fst f) (snd f) = 0).
Proof.
  apply (adjacency_complete (mesh_of tet0 (two_tets 7 8)) 2).
  - apply two_tets_hypotheses.
  - apply two_tets_hypotheses.
  - apply two_tets_hypotheses.
  - lia.
  - apply two_tets_fit. lia.
  - apply two_tets_fit. lia.
  - split; [repeat constructor; simpl; lia|intros c; simpl; lia].
  - split; [repeat constructor; simpl; lia|intros c; simpl; lia].
Defined.

(** X2: on a mesh whose tets have pairwise distinct vertex indices and
    whose faces are shared by at most two tets, the adjacency table
    depends on the mesh only.  Take two worker counts whose table slots an
    [int] can index, and any order of the workers in each launch: two
    runs that come to their end leave the same [NgbTab], the table
    [ngb_spec] read off the mesh; and both runs do come to their end when
    the table of the last worker holds its tets. *)
Theorem adjacency_independent_of_workers (msh : MshSct) (N1 N2 : Z)
  (s1 s2 s1' s2' : list Z) :
  wf_mesh msh -> distinct_mesh msh -> shared_le2 msh ->
  1 <= N1 -> int_indexed (NmbTet msh) N1 ->
  1 <= N2 -> int_indexed (NmbTet msh) N2 ->
  schedule N1 s1 -> schedule N1 s2 -> schedule N2 s1' -> schedule N2 s2' ->
  (forall st1 st2,
     neighbours_sched msh N1 s1 s2 = Ok st1 ->
     neighbours_sched msh N2 s1' s2' = Ok st2 ->
     NgbTab st1 = ngb_spec (tet msh) (NmbTet msh) /\
     NgbTab st2 = NgbTab st1) /\
  (last_fits (NmbTet msh) N1 -> last_fits (NmbTet msh) N2 ->
   exists st1 st2,
     neighbours_sched msh N1 s1 s2 = Ok st1 /\
     neighbours_sched msh N2 s1' s2' = Ok st2).
Proof.
  intros W D S H1 I1 H2 I2 S1 S2 S1' S2'. split.
  - intros st1 st2 E1 E2.
    pose proof (neighbours_sched_part_spec msh N1 W D S H1 I1 s1 s2 S1 S2
                  st1 E1) as T1.
    pose proof (neighbours_sched_part_spec msh N2 W D S H2 I2 s1' s2' S1' S2'
                  st2 E2) as T2.
    split; congruence.
  - intros L1 L2.
    destruct (neighbours_sched_spec msh N1 W D S H1 L1 I1 s1 s2 S1 S2)
      as (st1 & E1 & _).
    destruct (neighbours_sched_spec msh N2 W D S H2 L2 I2 s1' s2' S1' S2')
      as (st2 & E2 & _).
    now exists st1, st2.
Qed.

Lemma adjacency_independent_of_workers_witness :
  ~ last_fits 6 8 /\
  neighbours_sched (mesh_of tet0 cube_tets) 1 [0] [0] = Ok cube_state1 /\
  neighbours_sched (mesh_of tet0 cube_tets) 8
    [7; 6; 5; 4; 3; 2; 1; 0] [0; 1; 2; 3; 4; 5; 6; 7] = Ok cube_state /\
  NgbTab cube_state1 = ngb_spec (tet0 :: cube_tets) 6 /\
  NgbTab cube_state = NgbTab cube_state1.
Proof.
  assert (E1 : neighbours_sched (mesh_of tet0 cube_tets) 1 [0] [0]
               = Ok cube_state1) by (vm_compute; reflexivity).
  assert (E2 : neighbours_sched (mesh_of tet0 cube_tets) 8
                 [7; 6; 5; 4; 3; 2; 1; 0] [0; 1; 2; 3; 4; 5; 6; 7]
               = Ok cube_state) by (vm_compute; reflexivity).
  split; [vm_compute; intros H; apply H; reflexivity|].
  split; [exact E1|]. split; [exact E2|].
  apply (adjacency_independent_of_workers (mesh_of tet0 cube_tets) 1 8
           [0] [0] [7; 6; 5; 4; 3; 2; 1; 0] [0; 1; 2; 3; 4; 5; 6; 7]).
  - apply cube_hypotheses.
  - apply cube_hypotheses.
  - apply cube_hypotheses.
  - lia.
  - vm_compute. discriminate.
  - lia.
  - vm_compute. discriminate.
  - split; [repeat constructor; simpl; lia|intros c; simpl; lia].
  - split; [repeat constructor; simpl; lia|intros c; simpl; lia].
  - split; [repeat constructor; simpl; lia|intros c; simpl; lia].
  - split; [repeat constructor; simpl; lia|intros c; simpl; lia].
  - exact E1.
  - exact E2.
Defined.

(** X3: under the same hypotheses no tet is recorded as its own neighbour:
    [NgbTab[i][j]] differs from [i] for every face of the mesh. *)
Theorem no_self_neighbour (msh : MshSct) (N : Z) (s1 s2 : list Z) :
  wf_mesh msh -> distinct_mesh msh -> shared_le2 msh -> 1 <= N ->
  last_fits (NmbTet msh) N -> int_indexed (NmbTet msh) N ->
  schedule N s1 -> schedule N s2 ->
  exists st, neighbours_sched msh N s1 s2 = Ok st /\
    forall i j, 1 <= i <= NmbTet msh -> 0 <= j < 4 ->
                ngb (NgbTab st) i j <> i.
Proof.
  intros W D S HN L I S1 S2.
  destruct (neighbours_sched_final msh N W D S HN L I s1 s2 S1 S2)
    as (st & E & _ & C).
  exists st. split; [exact E|].
  intros i j Hi Hj Eq.
  destruct (C i j Hj) as (C1 & _). specialize (C1 Hi).
  destruct (final_partner _ _ _ _ C1) as ([gi gj] & (_ & Hg) & (Ne & Ek) & En).
  { cbn [fst snd]. lia. }
  cbn [fst snd] in *. rewrite Eq in En. subst gi.
  apply Ne. f_equal. symmetry.
  apply (ckey_inj (tet_at (tet msh) i)); auto.
Qed.

Lemma no_self_neighbour_witness :
  exists st,
    neighbours_sched (mesh_of tet0 (two_tets 7 8)) 2 [1; 0] [0; 1] = Ok st /\
    forall i j, 1 <= i <= 2 -> 0 <= j < 4 -> ngb (NgbTab st) i j <> i.
Proof.
  apply (no_self_neighbour (mesh_of tet0 (two_tets 7 8)) 2).
  - apply two_tets_hypotheses.
  - apply two_tets_hypotheses.
  - apply two_tets_hypotheses.
  - lia.
  - apply two_tets_fit. lia.
  - apply two_tets_fit. lia.
  - split; [repeat constructor; simpl; lia|intros c; simpl; lia].
  - split; [repeat constructor; simpl; lia|intros c; simpl; lia].
Defined.

(** ** The extracted surface as a function of the mesh *)

(** A zero cell of a final table belongs to a face without partner. *)
Lemma final_zero (tets : list TetSct) (T : Z) (Ngb : list Z) (f : Z * Z) :
  cell_final tets T Ngb f ->
  (ngb Ngb (fst f) (snd f) = 0 <->
   forall g, valid T g -> ~ partners tets f g).
Proof.
  intros (C1 & C2). split; [|exact C2].
  intros Z0 g Vg Pg. specialize (C1 g Vg Pg).
  destruct Vg as (Vg & _). lia.
Qed.

(** X4: under the hypotheses of X1, [SetNgb] emits a triangle for a face
    exactly when no other face of the mesh has its canonical key (a
    boundary face, reference 0), or when the face that has it belongs to a
    tet of another reference and of smaller id (a material interface,
    reference 1): a boundary face gives one triangle, an interface between
    two references gives one triangle for its two faces, and a face
    between two tets of the same reference gives none. *)
Theorem surface_faces (msh : MshSct) (N : Z) :
  wf_mesh msh -> distinct_mesh msh -> shared_le2 msh -> 1 <= N ->
  last_fits (NmbTet msh) N -> int_indexed (NmbTet msh) N ->
  let tets := tet msh in
  let T := NmbTet msh in
  exists st, neighbours msh N = Ok st /\
    SetNgb msh N =
      Ok (mkMsh T tets (Z.of_nat (length (emitted tets (NgbTab st) T)))
                (map (tri_of tets (NgbTab st)) (emitted tets (NgbTab st) T))) /\
    forall f,
      (In f (emitted tets (NgbTab st) T) <->
       valid T f /\
       ((forall g, valid T g -> ~ partners tets f g) \/
        exists g, valid T g /\ partners tets f g /\
                  ref (tet_at tets (fst f)) <> ref (tet_at tets (fst g)) /\
                  fst g < fst f)) /\
      (valid T f ->
       tri_ref (tri_of tets (NgbTab st) f) =
         0 <-> forall g, valid T g -> ~ partners tets f g) /\
      (tri_ref (tri_of tets (NgbTab st) f) = 0 \/
       tri_ref (tri_of tets (NgbTab st) f) = 1).
Proof.
  intros W D S HN L I tets T.
  destruct (neighbours_final msh N W D S HN L I) as (st & E & _ & C).
  fold tets T in C.
  exists st. split; [exact E|]. split.
  { unfold SetNgb. rewrite E. cbn [bind]. fold tets T.
    now rewrite fill_tri_spec. }
  assert (Cf : forall f, valid T f -> cell_final tets T (NgbTab st) f).
  { intros [i j] (Hi & Hj). cbn [fst snd] in Hi, Hj.
    destruct (C i j Hj) as (C1 & _). exact (C1 Hi). }
  assert (Rf : forall f, tri_ref (tri_of tets (NgbTab st) f) =
                         if ngb (NgbTab st) (fst f) (snd f) =? 0
                         then 0 else 1) by reflexivity.
  intros f. split; [|split].
  - destruct f as [i j]. rewrite In_emitted. unfold valid. cbn [fst snd].
    split.
    + intros (Hi & Hj & Hc).
      pose proof (Cf (i, j) (conj Hi Hj)) as Fc.
      split; [tauto|].
      destruct (Z.eq_dec (ngb (NgbTab st) i j) 0) as [Z0|Nz].
      * left. now apply (final_zero tets T (NgbTab st) (i, j) Fc).
      * right. destruct (final_partner _ _ _ _ Fc Nz) as (g & Vg & Pg & Eg).
        cbn [fst snd] in Eg. exists g.
        destruct Hc as [Z0 | (Rg & Lg)]; [contradiction|].
        rewrite Eg in Rg, Lg.
        split; [exact Vg|]. split; [exact Pg|]. split; [exact Rg|lia].
    + intros ((Hi & Hj) & Hc).
      pose proof (Cf (i, j) (conj Hi Hj)) as Fc.
      split; [exact Hi|]. split; [exact Hj|].
      destruct Hc as [No | (g & Vg & Pg & Rg & Lg)].
      * left. now apply (final_zero tets T (NgbTab st) (i, j) Fc).
      * right. destruct Fc as (C1 & _). specialize (C1 g Vg Pg).
        cbn [fst snd] in C1, Rg, Lg. rewrite C1.
        split; [exact Rg|lia].
  - intros Vf. rewrite Rf.
    rewrite <- (final_zero tets T (NgbTab st) f (Cf f Vf)).
    destruct (Z.eqb_spec (ngb (NgbTab st) (fst f) (snd f)) 0); split;
      intros; auto; try lia; discriminate.
  - rewrite Rf. destruct (_ =? 0); auto.
Qed.

Lemma surface_faces_witness :
  exists st, neighbours (mesh_of tet0 (two_tets 7 8)) 2 = Ok st /\
    SetNgb (mesh_of tet0 (two_tets 7 8)) 2 =
      Ok (mkMsh 2 (tet0 :: two_tets 7 8)
            (Z.of_nat (length (emitted (tet0 :: two_tets 7 8) (NgbTab st) 2)))
            (map (tri_of (tet0 :: two_tets 7 8) (NgbTab st))
                 (emitted (tet0 :: two_tets 7 8) (NgbTab st) 2))) /\
    forall f,
      (In f (emitted (tet0 :: two_tets 7 8) (NgbTab st) 2) <->
       valid 2 f /\
       ((forall g, valid 2 g -> ~ partners (tet0 :: two_tets 7 8) f g) \/
        exists g, valid 2 g /\ partners (tet0 :: two_tets 7 8) f g /\
                  ref (tet_at (tet0 :: two_tets 7 8) (fst f)) <>
                  ref (tet_at (tet0 :: two_tets 7 8) (fst g)) /\
                  fst g < fst f)) /\
      (valid 2 f ->
       tri_ref (tri_of (tet0 :: two_tets 7 8) (NgbTab st) f) =
         0 <-> forall g, valid 2 g -> ~ partners (tet0 :: two_tets 7 8) f g) /\
      (tri_ref (tri_of (tet0 :: two_tets 7 8) (NgbTab st) f) = 0 \/
       tri_ref (tri_of (tet0 :: two_tets 7 8) (NgbTab st) f) = 1).
Proof.
  apply (surface_faces (mesh_of tet0 (two_tets 7 8)) 2).
  - apply two_tets_hypotheses.
  - apply two_tets_hypotheses.
  - apply two_tets_hypotheses.
  - lia.
  - apply two_tets_fit. lia.
  - apply two_tets_fit. lia.
Defined.

(** X5: on a mesh whose tets have pairwise distinct vertex indices and
    whose faces are shared by at most two tets, two calls of [SetNgb] that
    return, with worker counts whose table slots an [int] can index,
    return the same mesh, triangles and their order included; and both
    calls do return when the table of the last worker holds its tets. *)
Theorem surface_independent_of_workers (msh : MshSct) (N1 N2 : Z) :
  wf_mesh msh -> distinct_mesh msh -> shared_le2 msh ->
  1 <= N1 -> int_indexed (NmbTet msh) N1 ->
  1 <= N2 -> int_indexed (NmbTet msh) N2 ->
  (forall m1 m2, SetNgb msh N1 = Ok m1 -> SetNgb msh N2 = Ok m2 -> m1 = m2) /\
  (last_fits (NmbTet msh) N1 -> last_fits (NmbTet msh) N2 ->
   exists msh', SetNgb msh N1 = Ok msh' /\ SetNgb msh N2 = Ok msh').
Proof.
  intros W D S H1 I1 H2 I2. split.
  - intros m1 m2. unfold SetNgb.
    destruct (neighbours msh N1) as [st1| |] eqn:E1; cbn [bind];
      try discriminate.
    destruct (neighbours msh N2) as [st2| |] eqn:E2; cbn [bind];
      try discriminate.
    rewrite (neighbours_part_spec msh N1 st1 W D S H1 I1 E1).
    rewrite (neighbours_part_spec msh N2 st2 W D S H2 I2 E2).
    congruence.
  - intros L1 L2.
    destruct (neighbours_spec msh N1 W D S H1 L1 I1) as (st1 & E1 & T1).
    destruct (neighbours_spec msh N2 W D S H2 L2 I2) as (st2 & E2 & T2).
    unfold SetNgb. rewrite E1, E2. cbn [bind]. rewrite T1, T2.
    eexists. split; reflexivity.
Qed.

Lemma surface_independent_of_workers_witness :
  ~ last_fits 6 8 /\
  exists m,
    SetNgb (mesh_of tet0 cube_tets) 1 = Ok m /\
    SetNgb (mesh_of tet0 cube_tets) 8 = Ok m /\
    NmbTri m = 12.
Proof.
  assert (E1 : exists m, SetNgb (mesh_of tet0 cube_tets) 1 = Ok m /\
                         NmbTri m = 12)
    by (eexists; split; vm_compute; reflexivity).
  assert (E2 : exists m, SetNgb (mesh_of tet0 cube_tets) 8 = Ok m)
    by (eexists; vm_compute; reflexivity).
  split; [vm_compute; intros H; apply H; reflexivity|].
  destruct E1 as (m1 & E1 & T1). destruct E2 as (m2 & E2).
  exists m1. split; [exact E1|]. split; [|exact T1].
  rewrite E2. f_equal. symmetry.
  apply (surface_independent_of_workers (mesh_of tet0 cube_tets) 1 8).
  - apply cube_hypotheses.
  - apply cube_hypotheses.
  - apply cube_hypotheses.
  - lia.
  - vm_compute. discriminate.
  - lia.
  - vm_compute. discriminate.
  - exact E1.
  - exact E2.
Defined.

(** ** Frame of phase one *)

Lemma rd_wr_gen {X : Type} (l : list X) (k k' : Z) (v d : X) :
  rd d (wr l k v) k' = if (k' =? k) && inb l k then v else rd d l k'.
Proof.
  destruct (Z.eqb_spec k' k) as [->|Hne]; cbn [andb].
  - destruct (inb l k) eqn:Hb.
    + apply rd_wr_same. now apply inb_true.
    + f_equal. unfold inb in Hb. apply andb_false_iff in Hb.
      destruct Hb as [Hb|Hb].
      * apply Z.leb_gt in Hb. unfold wr.
        destruct (Z.ltb_spec k 0); [reflexivity|lia].
      * apply Z.ltb_ge in Hb. now apply wr_outside.
  - apply rd_wr_other. congruence.
Qed.

Lemma own_slots_init (lo hi : Z) (n : nat) : own_slots lo hi (repeat hsh0 n).
Proof.
  split; intros s; rewrite rd_repeat; cbn; congruence.
Qed.

(** Storing a face of an own tet in an empty bucket. *)
Lemma own_slots_store (lo hi i j key : Z) (pos : Z * Z * Z)
  (tb : list HshSct) :
  1 <= lo -> lo <= i <= hi -> 0 <= j < 4 ->
  htet (rd hsh0 tb key) = 0 ->
  own_slots lo hi tb ->
  own_slots lo hi (wr tb key (store (rd hsh0 tb key) i j pos)).
Proof.
  intros Hlo Hi Hj He (O1 & O2). destruct pos as [[mn md] mx].
  assert (Hh : forall y, htet (rd hsh0 tb y) <> 0 ->
                 htet (rd hsh0 (wr tb key (store (rd hsh0 tb key) i j
                                              (mn, md, mx))) y) <> 0).
  { intros y Hy. rewrite rd_wr_gen.
    destruct ((y =? key) && inb tb key); [cbn; lia|exact Hy]. }
  split; intros s; rewrite rd_wr_gen.
  - destruct ((s =? key) && inb tb key); [cbn; lia|apply O1].
  - destruct ((s =? key) && inb tb key); cbn [store nex]; intros Hn.
    + apply Hh. now apply O2.
    + apply Hh. now apply O2.
Qed.

(** Appending a face of an own tet at the end of a chain. *)
Lemma own_slots_append (lo hi i j key cp : Z) (pos : Z * Z * Z)
  (tb : list HshSct) :
  1 <= lo -> lo <= i <= hi -> 0 <= j < 4 ->
  inb tb cp = true ->
  own_slots lo hi tb ->
  own_slots lo hi
    (wr (wr tb key (set_nex (rd hsh0 tb key) cp)) cp
        (store (rd hsh0 (wr tb key (set_nex (rd hsh0 tb key) cp)) cp)
               i j pos)).
Proof.
  intros Hlo Hi Hj Hcp (O1 & O2). destruct pos as [[mn md] mx].
  set (tb1 := wr tb key (set_nex (rd hsh0 tb key) cp)).
  assert (Hcp1 : inb tb1 cp = true).
  { unfold inb, tb1 in *. now rewrite length_wr. }
  assert (R1 : forall y, htet (rd hsh0 tb1 y) = htet (rd hsh0 tb y) /\
                         voy (rd hsh0 tb1 y) = voy (rd hsh0 tb y) /\
                         (nex (rd hsh0 tb1 y) = nex (rd hsh0 tb y) \/
                          nex (rd hsh0 tb1 y) = cp)).
  { intros y. unfold tb1. rewrite rd_wr_gen.
    destruct (Z.eqb_spec y key) as [->|]; cbn [andb]; auto.
    destruct (inb tb key); cbn; auto. }
  assert (Hh : forall y, htet (rd hsh0 tb y) <> 0 \/ y = cp ->
                 htet (rd hsh0 (wr tb1 cp (store (rd hsh0 tb1 cp) i j
                                             (mn, md, mx))) y) <> 0).
  { intros y Hy. rewrite rd_wr_gen, Hcp1.
    destruct (Z.eqb_spec y cp) as [->|Hne]; cbn [andb]; [cbn; lia|].
    destruct (R1 y) as (-> & _). destruct Hy; [auto|contradiction]. }
  split; intros s; rewrite rd_wr_gen, Hcp1;
    destruct (Z.eqb_spec s cp) as [->|Hne]; cbn [andb].
  - cbn. lia.
  - destruct (R1 s) as (-> & -> & _). apply O1.
  - cbn [store nex]. intros Hn. apply Hh.
    destruct (R1 cp) as (_ & _ & [E|E]); rewrite E in *; auto.
  - intros Hn. apply Hh.
    destruct (R1 s) as (_ & _ & [E|E]); rewrite E in *; auto.
Qed.

Section Frame1.
Variables (tets : list TetSct) (lo hi : Z) (Flg0 Ngb0 : list Z).
Hypothesis Hlo : 1 <= lo.

Lemma link_frame (i j : Z) (s : HshSct) (w : Loc) :
  lo <= i <= hi -> 0 <= j < 4 ->
  lo <= htet s <= hi -> 0 <= voy s < 4 ->
  frame1 lo hi Flg0 Ngb0 w -> frame1 lo hi Flg0 Ngb0 (link i j s w).
Proof.
  intros Hi Hj Hs Hv (F1 & F2 & F3 & F4 & F5).
  unfold frame1, link; cbn [ltab lFlg lNgb].
  split; [exact F1|]. split; [now rewrite !length_incr|].
  split; [now rewrite !length_wr|]. split.
  - intros x Hx. unfold incr.
    rewrite rd_wr_other by lia. rewrite rd_wr_other by lia. now apply F4.
  - intros x Hx.
    rewrite rd_wr_other by (intros E; now apply (Hx (htet s) (voy s))).
    rewrite rd_wr_other by (intros E; now apply (Hx i j)).
    now apply F5.
Qed.

Lemma walk1_frame (fuel : nat) (i j : Z) (pos k : Z * Z * Z) :
  lo <= i <= hi -> 0 <= j < 4 ->
  forall key w w',
    htet (rd hsh0 (ltab w) key) <> 0 ->
    frame1 lo hi Flg0 Ngb0 w ->
    walk1 fuel tets i j pos k key w = Ok w' ->
    frame1 lo hi Flg0 Ngb0 w'.
Proof.
  intros Hi Hj. induction fuel as [|fuel IH]; intros key w w' Hk F E;
    [discriminate|].
  cbn [walk1] in E.
  destruct (negb (inb (ltab w) key)); [discriminate|].
  pose proof F as ((O1 & O2) & F2 & F3 & F4 & F5).
  destruct (same_face tets (rd hsh0 (ltab w) key) k).
  { inversion E; subst w'. apply link_frame; auto; now apply O1. }
  destruct (Z.eqb_spec (nex (rd hsh0 (ltab w) key)) 0) as [Hn|Hn];
    cbn [negb] in E.
  - unfold append1 in E.
    destruct (inb (ltab w) (lColPos w)) eqn:Hcp; cbn [negb] in E;
      [|discriminate].
    inversion E; subst w'. unfold frame1; cbn [ltab lFlg lNgb].
    split; [|auto]. apply own_slots_append; auto. now split.
  - apply (IH (nex (rd hsh0 (ltab w) key)) w w'); auto.
Qed.

Lemma face1_frame (msk i j : Z) (w w' : Loc) :
  lo <= i <= hi -> 0 <= j < 4 ->
  frame1 lo hi Flg0 Ngb0 w -> face1 tets msk i w j = Ok w' ->
  frame1 lo hi Flg0 Ngb0 w'.
Proof.
  intros Hi Hj F E. unfold face1 in E.
  destruct (canon (tet_at tets i) j) as [[mn md] mx].
  destruct (negb (md <? 4)); [discriminate|].
  set (key := hash msk (idx (tet_at tets i) mn, idx (tet_at tets i) md,
                        idx (tet_at tets i) mx)) in E.
  destruct (negb (inb (ltab w) key)); [discriminate|].
  destruct (Z.eqb_spec (htet (rd hsh0 (ltab w) key)) 0) as [He|He].
  - destruct F as (F1 & F2).
    assert (Ew : w' = mkLoc (wr (ltab w) key
                               (store (rd hsh0 (ltab w) key) i j (mn, md, mx)))
                            (lColPos w) (lFlg w) (lNgb w)) by congruence.
    rewrite Ew. unfold frame1; cbn [ltab lFlg lNgb]. split; [|exact F2].
    now apply own_slots_store.
  - revert E. now apply walk1_frame.
Qed.

Lemma worker1_frame (msk : Z) (w w' : Loc) :
  frame1 lo hi Flg0 Ngb0 w ->
  foldM (tet1 tets msk) (Zrange lo hi) w = Ok w' ->
  frame1 lo hi Flg0 Ngb0 w'.
Proof.
  apply foldM_inv. intros s i s' Hin Fs Es. apply In_Zrange in Hin.
  unfold tet1 in Es. revert Es. apply foldM_inv; [|exact Fs].
  intros s1 j s2 Hj F1 E1. apply (face1_frame msk i j s1 s2); auto.
  simpl in Hj. lia.
Qed.
End Frame1.

(** X6: phase one, run as worker [c] on a range that starts at 1 or
    above, changes in [par[]] only the table and the cursor of [par[c]],
    and changes no cell of [FlgTab] or [NgbTab] outside the rows [i] of
    its own range [[par[c].beg, par[c].end]]: together with the frame of
    phase two, every shared cell has one writer per launch. *)
Theorem phase_one_frame (tets : list TetSct) (c : Z) (st st' : State) :
  1 <= beg (rd par0 (par st) c) ->
  ParNgb1 tets c st = Ok st' ->
  let p := rd par0 (par st) c in
  let p' := rd par0 (par st') c in
  (forall c', c' <> c -> rd par0 (par st') c' = rd par0 (par st) c') /\
  length (par st') = length (par st) /\
  (beg p' = beg p /\ end_ p' = end_ p /\ NmbCpu p' = NmbCpu p /\
   HshSiz p' = HshSiz p /\ HshMsk p' = HshMsk p) /\
  length (FlgTab st') = length (FlgTab st) /\
  length (NgbTab st') = length (NgbTab st) /\
  (forall i, ~ beg p <= i <= end_ p ->
             rd 0 (FlgTab st') i = rd 0 (FlgTab st) i) /\
  (forall x,
     (forall i j, beg p <= i <= end_ p -> 0 <= j < 4 -> x <> cell i j) ->
     rd 0 (NgbTab st') x = rd 0 (NgbTab st) x).
Proof.
  intros Hb E p p'. unfold ParNgb1 in E. fold p in E.
  destruct (foldM _ _ _) as [w| |] eqn:Ew; cbn [bind] in E; try discriminate.
  apply (worker1_frame tets (beg p) (end_ p) (FlgTab st) (NgbTab st) Hb)
    in Ew.
  2:{ unfold frame1; cbn [ltab lFlg lNgb]. split; [apply own_slots_init|].
      auto. }
  destruct Ew as (_ & F2 & F3 & F4 & F5).
  assert (Hc : inb (par st) c = true).
  { unfold inb. apply andb_true_iff.
    rewrite Z.leb_le, Z.ltb_lt.
    destruct (Z_lt_le_dec c 0) as [X|X].
    - exfalso. unfold p, rd in Hb. destruct (Z.ltb_spec c 0); [|lia].
      cbn in Hb. lia.
    - destruct (Z_lt_le_dec c (Z.of_nat (length (par st)))) as [Y|Y]; [lia|].
      exfalso. unfold p in Hb. rewrite rd_outside in Hb by exact Y.
      cbn in Hb. lia. }
  inversion E; subst st'; clear E. unfold p'. cbn [par FlgTab NgbTab].
  split; [|split; [|split]].
  - intros c' Hc'. apply rd_wr_other. congruence.
  - apply length_wr.
  - rewrite rd_wr_gen, Z.eqb_refl, Hc. cbn. auto.
  - auto.
Qed.

Lemma phase_one_frame_witness :
  exists st',
    ParNgb1 (tet0 :: two_tets 7 8) 1 (init_state 2 2) = Ok st' /\
    (forall c', c' <> 1 ->
                rd par0 (par st') c' = rd par0 (par (init_state 2 2)) c') /\
    (forall i, ~ 2 <= i <= 2 ->
               rd 0 (FlgTab st') i = rd 0 (FlgTab (init_state 2 2)) i) /\
    (forall x,
       (forall i j, 2 <= i <= 2 -> 0 <= j < 4 -> x <> cell i j) ->
       rd 0 (NgbTab st') x = rd 0 (NgbTab (init_state 2 2)) x).
Proof.
  destruct (ParNgb1 (tet0 :: two_tets 7 8) 1 (init_state 2 2))
    as [st'| |] eqn:E; [|vm_compute in E; discriminate E..].
  exists st'. split; [reflexivity|].
  assert (Hb : 1 <= beg (rd par0 (par (init_state 2 2)) 1))
    by (vm_compute; discriminate).
  destruct (phase_one_frame (tet0 :: two_tets 7 8) 1 (init_state 2 2) st'
              Hb E) as (F1 & _ & _ & _ & _ & F6 & F7).
  split; [exact F1|]. split; [exact F6|exact F7].
Defined.

(** ** Counters and cursors after phase one *)



(** The remainder of [NmbTet / NmbCpu] that the last worker takes fits its
    table as soon as it is at most the quotient plus one. *)
Lemma last_fits_suff (T N : Z) :
  0 <= T -> 1 <= N -> T mod N <= T / N + 1 -> last_fits T N.
Proof.
  intros HT HN Hr. unfold last_fits.
  pose proof (hsh_siz_ge T N HT HN) as Hd.
  pose proof (Z.div_mod T N ltac:(lia)) as Dm.
  pose proof (Z.mod_pos_bound T N ltac:(lia)) as Mb.
  assert (0 <= T / N) by (apply Z.div_pos; lia).
  nia.
Qed.

(** An [int] indexes the slots of every table when the workers have
    [2^26] tets each at most. *)
Lemma int_indexed_suff (T N : Z) :
  0 <= T -> 1 <= N -> T <= 2 ^ 26 * N -> int_indexed T N.
Proof.
  intros HT HN Hb. unfold int_indexed.
  pose proof (dec_le T N HT HN) as Hd.
  pose proof (dec_nonneg T N) as H0.
  rewrite hsh_siz_pow2.
  assert (Hs : 2 ^ dec T N <= 2 + 2 ^ 28) by nia.
  destruct (Z.le_gt_cases (dec T N) 28) as [Hle|Hgt].
  - pose proof (Z.pow_le_mono_r 2 (dec T N) 28 ltac:(lia) Hle). lia.
  - pose proof (Z.pow_le_mono_r 2 29 (dec T N) ltac:(lia) ltac:(lia)). lia.
Qed.

Lemma enough_tets_fit (T N : Z) :
  1 <= N -> N * (N - 2) <= T -> T mod N <= T / N + 1.
Proof.
  intros HN HT.
  pose proof (Z.div_mod T N ltac:(lia)) as Dm.
  pose proof (Z.mod_pos_bound T N ltac:(lia)) as Mb.
  nia.
Qed.

(** ** The tables of phase one, as phase two reads them *)

Lemma int_key_hash (T N : Z) (k : Z * Z * Z) :
  hsh_siz T N <= 2 ^ 31 ->
  hash32 (hsh_siz T N - 1) k = hash (hsh_siz T N - 1) k.
Proof.
  intros Hs.
  assert (Hd : 0 <= dec T N <= 31).
  { split; [apply dec_nonneg|]. rewrite hsh_siz_pow2 in Hs.
    destruct (Z_le_gt_dec (dec T N) 31) as [|Hgt]; [assumption|].
    assert (2 ^ 32 <= 2 ^ dec T N) by (apply Z.pow_le_mono_r; lia).
    change (2 ^ 32) with (2 * 2 ^ 31) in *. lia. }
  rewrite hsh_siz_pow2. now apply hash32_hash.
Qed.

(** X8: the bucket that [ParNgb2] computes in [int] arithmetic is the one
    in which [ParNgb1], computing in 64 bits, stored the face, for every
    key and also when the [int] expression wraps around, as long as
    [HshSiz] is at most [2^31]; it lies inside the primary part of the
    table. *)
Theorem int_key_matches_long_key (T N : Z) (k : Z * Z * Z) :
  hsh_siz T N <= 2 ^ 31 ->
  hash32 (hsh_siz T N - 1) k = hash (hsh_siz T N - 1) k /\
  0 <= hash32 (hsh_siz T N - 1) k < hsh_siz T N.
Proof.
  intros Hs. pose proof (int_key_hash T N k Hs) as E.
  split; [exact E|]. rewrite E. apply hash_range.
Qed.

Lemma int_key_matches_long_key_witness :
  hash32 (hsh_siz 2 2 - 1) (2 ^ 31 - 3, 2 ^ 31 - 2, 2 ^ 31 - 1) =
  hash (hsh_siz 2 2 - 1) (2 ^ 31 - 3, 2 ^ 31 - 2, 2 ^ 31 - 1) /\
  0 <= hash32 (hsh_siz 2 2 - 1) (2 ^ 31 - 3, 2 ^ 31 - 2, 2 ^ 31 - 1)
    < hsh_siz 2 2.
Proof.
  apply (int_key_matches_long_key 2 2). vm_compute. discriminate.
Defined.

(** X9: a chain walk of [ParNgb2] in the table that a worker [n] built
    in phase one finds what phase one inserted: probed with the canonical
    key of a face of the mesh, it ends inside the table and returns a tet
    of the subdomain of [n] that has a face with this key when there is
    one (always, for a face of that subdomain), and nothing when there is
    none. *)
Theorem table_lookup (msh : MshSct) (N : Z) (s1 : list Z) :
  wf_mesh msh -> distinct_mesh msh -> shared_le2 msh -> 1 <= N ->
  last_fits (NmbTet msh) N -> int_indexed (NmbTet msh) N ->
  schedule N s1 ->
  let tets := tet msh in
  let T := NmbTet msh in
  exists st1,
    LaunchSched (ParNgb1 tets) s1 (init_state T N) = Ok st1 /\
    forall n f, 0 <= n < N -> valid T f ->
      exists r,
        walk2 (length (tab (rd par0 (par st1) n))) tets
              (tab (rd par0 (par st1) n)) (fkey tets f)
              (hash32 (HshMsk (rd par0 (par st1) n)) (fkey tets f)) = Ok r /\
        (In f (dfaces T N n) -> r <> None) /\
        match r with
        | Some m => exists g, In g (dfaces T N n) /\
                              fkey tets g = fkey tets f /\ m = fst g
        | None => forall g, In g (dfaces T N n) -> fkey tets g <> fkey tets f
        end.
Proof.
  intros (HT & Hl) D S HN L I S1 tets T.
  destruct (phase1_run tets T N HT HN D (shared_at_most_two msh D S) s1 S1 L)
    as (st1 & E1 & G1).
  exists st1. split; [exact E1|].
  intros n f Hn Vf.
  destruct (g1_par _ _ _ _ _ G1 n Hn) as (_ & _ & _ & Em & _).
  destruct (g1_done _ _ _ _ _ G1 n (proj2 (proj2 S1 n) Hn))
    as (A & TI & AP & PA & Lt).
  rewrite Em.
  assert (Hs : hsh_siz T N <= 2 ^ 31).
  { unfold int_indexed in I. fold T in I. pose proof (hsh_siz_pos T N). lia. }
  rewrite (int_key_hash T N (fkey tets f) Hs).
  assert (Hk : fst (fst (fkey tets f)) <> snd (fst (fkey tets f))).
  { destruct Vf as (Vi & Vj).
    pose proof (ckey_increasing (tet_at tets (fst f)) (snd f) (D _ Vi) Vj).
    unfold fkey. lia. }
  destruct (walk2_spec tets (hsh_siz T N - 1) (hsh_siz T N)
              (tab (rd par0 (par st1) n)) (ColPos (rd par0 (par st1) n)) A
              TI (hash_range T N)
              ltac:(unfold int_indexed in I; fold T in I; lia)
              (fkey tets f) Hk) as (r & Er & Hr).
  exists r. split; [exact Er|].
  assert (M : match r with
              | Some m => exists g, In g (dfaces T N n) /\
                                    fkey tets g = fkey tets f /\ m = fst g
              | None => forall g, In g (dfaces T N n) ->
                                  fkey tets g <> fkey tets f
              end).
  { destruct r as [m|].
    - destruct Hr as (g & Hg & Ek & Eg). exists g. auto.
    - intros g Hg Ek. destruct (PA g Hg) as (g' & Hg' & Ek').
      apply (Hr g' Hg'). congruence. }
  split; [|exact M].
  intros Hin ->. now apply (M f).
Qed.

Lemma table_lookup_witness :
  exists st1,
    LaunchSched (ParNgb1 (tet0 :: two_tets 7 8)) [1; 0] (init_state 2 2)
      = Ok st1 /\
    forall n f, 0 <= n < 2 -> valid 2 f ->
      exists r,
        walk2 (length (tab (rd par0 (par st1) n))) (tet0 :: two_tets 7 8)
              (tab (rd par0 (par st1) n)) (fkey (tet0 :: two_tets 7 8) f)
              (hash32 (HshMsk (rd par0 (par st1) n))
                      (fkey (tet0 :: two_tets 7 8) f)) = Ok r /\
        (In f (dfaces 2 2 n) -> r <> None) /\
        match r with
        | Some m => exists g, In g (dfaces 2 2 n) /\
                              fkey (tet0 :: two_tets 7 8) g =
                              fkey (tet0 :: two_tets 7 8) f /\ m = fst g
        | None => forall g, In g (dfaces 2 2 n) ->
                            fkey (tet0 :: two_tets 7 8) g <>
                            fkey (tet0 :: two_tets 7 8) f
        end.
Proof.
  apply (table_lookup (mesh_of tet0 (two_tets 7 8)) 2).
  - apply two_tets_hypotheses.
  - apply two_tets_hypotheses.
  - apply two_tets_hypotheses.
  - lia.
  - apply two_tets_fit. lia.
  - apply two_tets_fit. lia.
  - split; [repeat constructor; simpl; lia|intros c; simpl; lia].
Defined.

(** ** Phase two keeps the links it finds *)

Lemma face2_keeps (tets : list TetSct) (c i j : Z) (Ngb0 : list Z)
  (st st' : State) :
  (forall x, rd 0 Ngb0 x <> 0 -> rd 0 (NgbTab st) x = rd 0 Ngb0 x) ->
  face2 tets c i st j = Ok st' ->
  forall x, rd 0 Ngb0 x <> 0 -> rd 0 (NgbTab st') x = rd 0 Ngb0 x.
Proof.
  intros K E x Hx. unfold face2 in E.
  destruct (Z.eqb_spec (ngb (NgbTab st) i j) 0) as [Z0|Nz]; cbn [negb] in E.
  2:{ injection E as <-. now apply K. }
  destruct (canon (tet_at tets i) j) as [[mn md] mx].
  destruct (negb (md <? 4)); [discriminate|].
  destruct (foldM _ _ None) as [[m|]| |]; cbn [bind] in E; try discriminate;
    injection E as <-; cbn [NgbTab]; [|now apply K].
  rewrite rd_wr_other; [now apply K|].
  intros Ec. apply Hx. rewrite <- (K x Hx), <- Ec. exact Z0.
Qed.

(** X10: phase two never changes a nonzero cell of [NgbTab]: the links
    that phase one has set, and those that phase two itself has set, are
    never overwritten, whatever the state it starts from. *)
Theorem phase_two_keeps_links (tets : list TetSct) (c : Z) (st st' : State) :
  ParNgb2 tets c st = Ok st' ->
  forall x, rd 0 (NgbTab st) x <> 0 ->
            rd 0 (NgbTab st') x = rd 0 (NgbTab st) x.
Proof.
  unfold ParNgb2.
  apply (foldM_inv _ (fun s => forall x, rd 0 (NgbTab st) x <> 0 ->
                                 rd 0 (NgbTab s) x = rd 0 (NgbTab st) x));
    [|reflexivity].
  intros s i s' _ Ks Es. unfold tet2 in Es.
  destruct (rd 0 (FlgTab s) i =? 4); [now injection Es as <-|].
  revert Es.
  apply (foldM_inv _ (fun s => forall x, rd 0 (NgbTab st) x <> 0 ->
                                 rd 0 (NgbTab s) x = rd 0 (NgbTab st) x));
    [|exact Ks].
  intros s1 j s2 _ K1 E1. exact (face2_keeps tets c i j _ s1 s2 K1 E1).
Qed.

Lemma phase_two_keeps_links_witness :
  LaunchParallel (ParNgb1 (tet0 :: four_tets)) 2 (init_state 4 2)
    = Ok four_tets_phase1 /\
  ParNgb2 (tet0 :: four_tets) 0 four_tets_phase1 = Ok four_tets_phase2 /\
  ngb (NgbTab four_tets_phase1) 1 3 = 2 /\
  ngb (NgbTab four_tets_phase1) 2 2 = 0 /\
  ngb (NgbTab four_tets_phase2) 2 2 = 3 /\
  ngb (NgbTab four_tets_phase2) 1 3 = ngb (NgbTab four_tets_phase1) 1 3.
Proof.
  assert (E : ParNgb2 (tet0 :: four_tets) 0 four_tets_phase1
              = Ok four_tets_phase2) by (vm_compute; reflexivity).
  split; [vm_compute; reflexivity|]. split; [exact E|].
  split; [reflexivity|]. split; [reflexivity|]. split; [reflexivity|].
  apply (phase_two_keeps_links (tet0 :: four_tets) 0 four_tets_phase1
           four_tets_phase2 E (cell 1 3)).
  vm_compute. discriminate.
Defined.

(** ** The vertices of an emitted triangle *)

Lemma tri_idx_facts (tets : list TetSct) (Ngb : list Z) (i j : Z) :
  distinct_tet (tet_at tets i) -> 0 <= j < 4 ->
  NoDup (tri_idx (mk_tri tets Ngb i j)) /\
  (forall v, In v (tri_idx (mk_tri tets Ngb i j)) <->
             v = fst (fst (fkey tets (i, j))) \/
             v = snd (fst (fkey tets (i, j))) \/
             v = snd (fkey tets (i, j))) /\
  ~ In (idx (tet_at tets i) j) (tri_idx (mk_tri tets Ngb i j)).
Proof.
  intros D Hj. unfold fkey, ckey, mk_tri. cbn [fst snd tri_idx map].
  pose proof (canon_sorted (tet_at tets i) j D Hj) as S.
  destruct (canon (tet_at tets i) j) as [[mn md] mx]. cbn [fst snd].
  revert D S. generalize (tet_at tets i). intros [a b c d r] D S.
  unfold distinct_tet in D. cbn [tv0 tv1 tv2 tv3] in D.
  destruct S as (Bn & Bd & Bx & Nn & Nd & Nx & Nnd & Ndx & Nnx & _).
  assert (Hc : j = 0 \/ j = 1 \/ j = 2 \/ j = 3) by lia.
  assert (Hn : mn = 0 \/ mn = 1 \/ mn = 2 \/ mn = 3) by lia.
  assert (Hd : md = 0 \/ md = 1 \/ md = 2 \/ md = 3) by lia.
  assert (Hx : mx = 0 \/ mx = 1 \/ mx = 2 \/ mx = 3) by lia.
  clear Bn Bd Bx Hj.
  destruct Hc as [-> | [-> | [-> | ->]]];
    destruct Hn as [-> | [-> | [-> | ->]]]; try (exfalso; lia);
    destruct Hd as [-> | [-> | [-> | ->]]]; try (exfalso; lia);
    destruct Hx as [-> | [-> | [-> | ->]]]; try (exfalso; lia);
    repeat match goal with
           | |- context [rd 0 (rd [] tvpf ?x) ?y] =>
               let z := eval vm_compute in (rd 0 (rd [] tvpf x) y) in
               change (rd 0 (rd [] tvpf x) y) with z
           end;
    cbn [idx tv0 tv1 tv2 tv3];
    (split; [repeat constructor; simpl; intuition congruence|]);
    (split; [intros v; simpl; intuition congruence|]);
    simpl; intuition congruence.
Qed.

(** A face and the triangle written for it have the same vertices. *)
Lemma tri_idx_key (tets : list TetSct) (Ngb : list Z) (i j : Z) :
  distinct_tet (tet_at tets i) -> 0 <= j < 4 ->
  forall v, In v (tri_idx (mk_tri tets Ngb i j)) <->
            v = fst (fst (fkey tets (i, j))) \/
            v = snd (fst (fkey tets (i, j))) \/
            v = snd (fkey tets (i, j)).
Proof. intros D Hj. now apply tri_idx_facts. Qed.

(** X11: for a tet with pairwise distinct vertex indices, the triangle
    that the extraction loop writes for face [j] through [tvpf[j]] has
    three distinct vertices, which are exactly the three components of the
    canonical key that both phases compute for that face; the vertex
    [idx[j]] opposite to the face is not among them. *)
Theorem triangle_vertices (tets : list TetSct) (Ngb : list Z) (i j : Z) :
  distinct_tet (tet_at tets i) -> 0 <= j < 4 ->
  NoDup (tri_idx (mk_tri tets Ngb i j)) /\
  (forall v, In v (tri_idx (mk_tri tets Ngb i j)) <->
             v = fst (fst (fkey tets (i, j))) \/
             v = snd (fst (fkey tets (i, j))) \/
             v = snd (fkey tets (i, j))) /\
  ~ In (idx (tet_at tets i) j) (tri_idx (mk_tri tets Ngb i j)).
Proof.
  intros D Hj.
  destruct (tri_idx_facts tets Ngb i j D Hj) as (F1 & _ & F3).
  split; [exact F1|]. split; [|exact F3].
  now apply tri_idx_key.
Qed.

Lemma triangle_vertices_witness :
  NoDup (tri_idx (mk_tri (tet0 :: two_tets 7 8) [] 2 3)) /\
  (forall v, In v (tri_idx (mk_tri (tet0 :: two_tets 7 8) [] 2 3)) <->
             v = fst (fst (fkey (tet0 :: two_tets 7 8) (2, 3))) \/
             v = snd (fst (fkey (tet0 :: two_tets 7 8) (2, 3))) \/
             v = snd (fkey (tet0 :: two_tets 7 8) (2, 3))) /\
  ~ In (idx (tet_at (tet0 :: two_tets 7 8) 2) 3)
       (tri_idx (mk_tri (tet0 :: two_tets 7 8) [] 2 3)).
Proof.
  apply (triangle_vertices (tet0 :: two_tets 7 8) [] 2 3).
  - vm_compute. repeat split; discriminate.
  - lia.
Defined.

(** ** A mesh without tetrahedra *)

Lemma idle_init (N : Z) : 1 <= N -> idle N (init_state 0 N).
Proof.
  intros HN. split; [reflexivity|]. split; [reflexivity|].
  intros c Hc. cbn [init_state par].
  destruct (setup_par_ok 0 N c ltac:(lia) HN Hc) as ((Eb & Ee & _) & _).
  rewrite Eb, Ee. unfold dbeg, dend.
  rewrite Z.div_0_l by lia. destruct (c =? N - 1); lia.
Qed.

Lemma idle_ParNgb1 (tets : list TetSct) (N c : Z) (st : State) :
  0 <= c < N -> idle N st ->
  exists st', ParNgb1 tets c st = Ok st' /\ idle N st'.
Proof.
  intros Hc (F & G & P). unfold ParNgb1.
  destruct (P c Hc) as (Eb & Ee). rewrite Eb, Ee.
  change (Zrange 1 0) with (@nil Z). cbn [foldM bind].
  eexists. split; [reflexivity|].
  split; [exact F|]. split; [exact G|].
  intros c' Hc'. cbn [par]. rewrite rd_wr_gen.
  destruct ((c' =? c) && inb (par st) c); [cbn; auto|now apply P].
Qed.

Lemma idle_ParNgb2 (tets : list TetSct) (N c : Z) (st : State) :
  0 <= c < N -> idle N st -> ParNgb2 tets c st = Ok st.
Proof.
  intros Hc (_ & _ & P). unfold ParNgb2.
  destruct (P c Hc) as (Eb & Ee). rewrite Eb, Ee. reflexivity.
Qed.

(** Both launches on a mesh without tetrahedra, whichever workers take
    part and in whatever order. *)
Lemma idle_launches (tets : list TetSct) (N : Z) (s1 s2 : list Z)
  (st : State) :
  (forall c, In c s1 -> 0 <= c < N) -> (forall c, In c s2 -> 0 <= c < N) ->
  idle N st ->
  exists st1,
    LaunchSched (ParNgb1 tets) s1 st = Ok st1 /\
    (if 1 <? N then LaunchSched (ParNgb2 tets) s2 st1 else Ok st1) = Ok st1 /\
    idle N st1.
Proof.
  intros H1 H2 I. unfold LaunchSched.
  destruct (foldM_prefix (fun s c => ParNgb1 tets c s)
              (fun _ st => idle N st) s1)
    with (s := st) as (st1 & E1 & I1); [|exact I|].
  { intros P a R s E K. apply idle_ParNgb1; [|exact K].
    apply H1. rewrite E. apply in_elt. }
  exists st1. split; [exact E1|]. split; [|exact I1].
  destruct (1 <? N); [|reflexivity].
  destruct (foldM_prefix (fun s c => ParNgb2 tets c s)
              (fun _ st => st = st1) s2)
    with (s := st1) as (st2 & E2 & ->); auto.
  intros P a R s E ->. exists st1. split; [|reflexivity].
  apply (idle_ParNgb2 tets N a st1); [|exact I1].
  apply H2. rewrite E. apply in_elt.
Qed.

Lemma hsh_siz_empty (N : Z) : 1 <= N -> hsh_siz 0 N = 1.
Proof.
  intros HN.
  assert (E : dec_exact 0 N = 0).
  { unfold dec_exact. rewrite Z.div_small by lia. reflexivity. }
  unfold hsh_siz, dec. rewrite E.
  change (log_overshoots 0) with false. rewrite andb_false_r. reflexivity.
Qed.

(** X12: on a mesh without tetrahedra ([NmbTet = 0], the tet array never
    allocated) and for every worker count, [SetNgb] sets [HshSiz = 1] and
    gives every worker the empty range [1..0]; whichever workers run in
    each of the two launches, and in whatever order, both launches
    complete and leave [FlgTab] and [NgbTab] as [calloc] made them; and
    [SetNgb] returns the mesh without any triangle. *)
Theorem empty_mesh (tets : list TetSct) (n : Z) (tr : list TriSct) (N : Z)
  (s1 s2 : list Z) :
  1 <= N ->
  (forall c, In c s1 -> 0 <= c < N) -> (forall c, In c s2 -> 0 <= c < N) ->
  (forall c, 0 <= c < N ->
     HshSiz (rd par0 (par (init_state 0 N)) c) = 1 /\
     beg (rd par0 (par (init_state 0 N)) c) = 1 /\
     end_ (rd par0 (par (init_state 0 N)) c) = 0) /\
  (exists st, neighbours_sched (mkMsh 0 tets n tr) N s1 s2 = Ok st /\
              FlgTab st = FlgTab (init_state 0 N) /\
              NgbTab st = NgbTab (init_state 0 N) /\
              FlgTab st = [0] /\ NgbTab st = [0; 0; 0; 0]) /\
  SetNgb (mkMsh 0 tets n tr) N = Ok (mkMsh 0 tets 0 []).
Proof.
  intros HN H1 H2.
  pose proof (idle_init N HN) as I0.
  split; [|split].
  - intros c Hc. destruct I0 as (_ & _ & P).
    destruct (P c Hc) as (Eb & Ee). split; [|split; assumption].
    cbn [init_state par].
    destruct (setup_par_ok 0 N c ltac:(lia) HN Hc) as ((_ & _ & Eh & _) & _).
    rewrite Eh. now apply hsh_siz_empty.
  - destruct (idle_launches tets N s1 s2 _ H1 H2 I0) as (st & E1 & E2 & I).
    exists st. unfold neighbours_sched. cbn [NmbTet tet].
    rewrite E1. cbn [bind]. split; [exact E2|].
    destruct I as (F & G & _). rewrite F, G. repeat split; reflexivity.
  - assert (W : forall c, In c (Zseq 0 (Z.to_nat N)) -> 0 <= c < N).
    { intros c Hin. apply In_Zseq in Hin. lia. }
    destruct (idle_launches tets N _ _ _ W W I0) as (st & E1 & E2 & I).
    unfold SetNgb, neighbours, LaunchParallel. cbn [NmbTet tet].
    rewrite E1. cbn [bind]. unfold LaunchParallel in E2. rewrite E2.
    cbn [bind]. reflexivity.
Qed.

Lemma empty_mesh_witness :
  (forall c, 0 <= c < 8 ->
     HshSiz (rd par0 (par (init_state 0 8)) c) = 1 /\
     beg (rd par0 (par (init_state 0 8)) c) = 1 /\
     end_ (rd par0 (par (init_state 0 8)) c) = 0) /\
  (exists st, neighbours_sched (mkMsh 0 [] 0 []) 8 [3; 0] [7] = Ok st /\
              FlgTab st = FlgTab (init_state 0 8) /\
              NgbTab st = NgbTab (init_state 0 8) /\
              FlgTab st = [0] /\ NgbTab st = [0; 0; 0; 0]) /\
  SetNgb (mkMsh 0 [] 0 []) 8 = Ok (mkMsh 0 [] 0 []).
Proof.
  apply (empty_mesh [] 0 [] 8 [3; 0] [7]).
  - lia.
  - simpl. lia.
  - simpl. lia.
Defined.

(** ** The command line of [main] *)

Lemma skipn_nth {X : Type} (d : X) (l : list X) (n : nat) :
  (n < length l)%nat -> skipn n l = nth n l d :: skipn (S n) l.
Proof.
  revert n; induction l as [|x l IH]; intros [|n] H; simpl in *;
    try lia; auto. apply IH. lia.
Qed.

Lemma skipn_rd {X : Type} (d : X) (l : list X) (q : Z) :
  0 <= q < Z.of_nat (length l) ->
  skipn (Z.to_nat q) l = rd d l q :: skipn (Z.to_nat (q + 1)) l.
Proof.
  intros H. unfold rd. destruct (Z.ltb_spec q 0); [lia|].
  replace (Z.to_nat (q + 1)) with (S (Z.to_nat q)) by lia.
  apply skipn_nth. lia.
Qed.

Lemma skipn_past {X : Type} (l : list X) (q : Z) :
  Z.of_nat (length l) <= q -> skipn (Z.to_nat q) l = [].
Proof. intros H. apply skipn_all2. lia. Qed.

Lemma next_arg_in (argv : list String.string) (p : Z) :
  0 <= p + 1 < Z.of_nat (length argv) ->
  next_arg argv p = Ret (rd String.EmptyString argv (p + 1)).
Proof.
  intros H. unfold next_arg.
  destruct (Z.leb_spec 0 (p + 1)); [|lia].
  destruct (Z.ltb_spec (p + 1) (Z.of_nat (length argv))); [|lia].
  reflexivity.
Qed.

Lemma next_arg_null (argv : list String.string) (p : Z) :
  0 <= p -> p + 1 = Z.of_nat (length argv) -> next_arg argv p = NullArg.
Proof.
  intros Hp H. unfold next_arg.
  destruct (Z.ltb_spec (p + 1) (Z.of_nat (length argv))); [lia|].
  rewrite andb_false_r.
  destruct (Z.eqb_spec (p + 1) (Z.of_nat (length argv))); [reflexivity|lia].
Qed.

(** The value of an option: the next argument, or the final [NULL]. *)
Lemma next_value (argv : list String.string) (p : Z) :
  0 <= p -> p + 2 <= Z.of_nat (length argv) ->
  (next_arg argv (p + 1) = NullArg /\
   skipn (Z.to_nat (p + 1 + 1)) argv = []) \/
  (next_arg argv (p + 1) = Ret (rd String.EmptyString argv (p + 1 + 1)) /\
   skipn (Z.to_nat (p + 1 + 1)) argv =
     rd String.EmptyString argv (p + 1 + 1)
       :: skipn (Z.to_nat (p + 2 + 1)) argv).
Proof.
  intros Hp H.
  destruct (Z_lt_le_dec (p + 2) (Z.of_nat (length argv))) as [Y|Y].
  - right. split; [apply next_arg_in; lia|].
    replace (p + 2 + 1) with (p + 1 + 1 + 1) by lia. apply skipn_rd. lia.
  - left. split; [apply next_arg_null; lia|apply skipn_past; lia].
Qed.

(** The counters [i] and [ArgCnt] end the loop exactly at the end of
    [argv]: the loop is the left-to-right reading [scan] of the arguments
    from [argv[p + 1]] on. *)
Lemma parse_scan (atoi : String.string -> Z) (argv : list String.string) :
  forall (fuel : nat) (i ArgCnt p : Z) (a : Args),
    0 <= p -> i + (Z.of_nat (length argv) - ArgCnt) = p + 2 ->
    1 <= Z.of_nat fuel -> Z.of_nat (length argv) - p <= Z.of_nat fuel ->
    parse atoi fuel argv i ArgCnt p a =
    scan atoi (skipn (Z.to_nat (p + 1)) argv) a.
Proof.
  induction fuel as [|fuel IH]; intros i ArgCnt p a Hp Hi H1 Hf; [lia|].
  cbn [parse].
  destruct (Z.leb_spec i ArgCnt) as [Hc|Hc]; cbn [negb].
  2:{ rewrite skipn_past by lia. reflexivity. }
  rewrite next_arg_in by lia. cbn [and_then].
  rewrite (skipn_rd String.EmptyString) by lia. cbn [scan].
  set (x := rd String.EmptyString argv (p + 1)).
  assert (IH2 : forall b, parse atoi fuel argv (i + 1) (ArgCnt - 1) (p + 2) b =
                          scan atoi (skipn (Z.to_nat (p + 2 + 1)) argv) b).
  { intros b. destruct (Z_lt_le_dec (p + 2) (Z.of_nat (length argv))).
    - apply IH; lia.
    - destruct fuel as [|fuel']; [lia|]. cbn [parse].
      destruct (Z.leb_spec (i + 1) (ArgCnt - 1)); [lia|]. cbn [negb].
      rewrite skipn_past by lia. reflexivity. }
  destruct (next_value argv p Hp ltac:(lia)) as [(En & Es) | (En & Es)];
    rewrite ?En, ?Es; cbn [and_then];
    destruct (String.eqb x "-in"); [reflexivity| |
      destruct (set_name _); cbn [and_then]; auto|];
    (destruct (String.eqb x "-out"); [try reflexivity;
       destruct (set_name _); cbn [and_then]; now auto|]);
    (destruct (String.eqb x "-nproc"); [try reflexivity; now auto|]);
    rewrite <- ?Es; apply IH; lia.
Qed.

Lemma parse_args_scan (atoi : String.string -> Z)
  (argv : list String.string) (a : Args) :
  parse_args atoi argv a = scan atoi (skipn 1 argv) a.
Proof.
  unfold parse_args. rewrite parse_scan; try lia. reflexivity.
Qed.


(** Induction on the arguments left, two at a time. *)
Lemma scan_len_ind (P : list String.string -> Prop) :
  (forall l, (forall l', (length l' < length l)%nat -> P l') -> P l) ->
  forall l, P l.
Proof.
  intros H l.
  assert (G : forall n l, (length l < n)%nat -> P l).
  { induction n as [|n IH]; intros l0 Hl; [lia|].
    apply H. intros l' Hl'. apply IH. lia. }
  apply (G (S (length l))). lia.
Qed.




Lemma scan_app (atoi : String.string -> Z) (pre more : list String.string) :
  forall a a', scan atoi pre a = Ret a' ->
               scan atoi (pre ++ more) a = scan atoi more a'.
Proof.
  induction pre as [pre IH] using scan_len_ind. intros a a' E.
  destruct pre as [|x l]; cbn [scan app] in *.
  { now injection E as <-. }
  assert (V : forall (f : String.string -> Args),
            match l with
            | [] => NullArg
            | v :: l'' => nam <~ set_name v ;; scan atoi l'' (f nam)
            end = Ret a' ->
            match l ++ more with
            | [] => NullArg
            | v :: l'' => nam <~ set_name v ;; scan atoi l'' (f nam)
            end = scan atoi more a').
  { intros f Ef. destruct l as [|v l'']; [discriminate|]. cbn [app].
    destruct (set_name v) as [nam| | | | |]; cbn [and_then] in *;
      try discriminate.
    apply IH; [simpl; lia|exact Ef]. }
  destruct (String.eqb x "-in"); [now apply V|].
  destruct (String.eqb x "-out"); [now apply V|].
  destruct (String.eqb x "-nproc").
  - destruct l as [|v l'']; [discriminate|]. cbn [app].
    apply IH; [simpl; lia|exact E].
  - apply IH; [simpl; lia|exact E].
Qed.

(** X14: the options are read from left to right and a later option
    replaces what an earlier one has set: when the arguments [pre] are
    read to their end and leave the settings [a'], reading [pre] followed
    by [more] is reading [more] from [a']; [argv[0]] plays no role. *)
Theorem options_left_to_right (atoi : String.string -> Z)
  (prog prog' : String.string) (pre more : list String.string)
  (a a' : Args) :
  parse_args atoi (prog :: pre) a = Ret a' ->
  parse_args atoi (prog :: pre ++ more) a =
  parse_args atoi (prog' :: more) a'.
Proof.
  rewrite !parse_args_scan. cbn [skipn]. apply scan_app.
Qed.

Lemma options_left_to_right_witness :
  parse_args (fun _ => 4)
    ["tn"; "-nproc"; "4"; "-in"; "a"]%string (mkArgs "x" "y" 0) =
  parse_args (fun _ => 4) ["tn"; "-in"; "a"]%string (mkArgs "x" "y" 4).
Proof.
  apply (options_left_to_right (fun _ => 4) "tn" "tn"
           ["-nproc"; "4"]%string ["-in"; "a"]%string
           (mkArgs "x" "y" 0) (mkArgs "x" "y" 4)).
  reflexivity.
Defined.

(** X15: what each argument does.  An argument that is none of [-in],
    [-out], [-nproc] is skipped; [-in] and [-out] take the next argument
    as a file name, [-nproc] takes it as a number that is clamped to
    [1..128]; and an option in last position makes [main] read the [NULL]
    that ends [argv] as a string. *)
Theorem option_effects (atoi : String.string -> Z) (prog : String.string)
  (a : Args) :
  (forall x rest, is_flag x = false ->
     parse_args atoi (prog :: x :: rest) a = parse_args atoi (prog :: rest) a) /\
  (forall v rest,
     parse_args atoi (prog :: "-in"%string :: v :: rest) a =
     (nam <~ set_name v ;;
      parse_args atoi (prog :: rest) (mkArgs nam (OutNam a) (nproc a)))) /\
  (forall v rest,
     parse_args atoi (prog :: "-out"%string :: v :: rest) a =
     (nam <~ set_name v ;;
      parse_args atoi (prog :: rest) (mkArgs (InpNam a) nam (nproc a)))) /\
  (forall v rest,
     parse_args atoi (prog :: "-nproc"%string :: v :: rest) a =
     parse_args atoi (prog :: rest)
       (mkArgs (InpNam a) (OutNam a) (MIN (MAX (atoi v) 1) 128)) /\
     1 <= MIN (MAX (atoi v) 1) 128 <= 128 /\
     (1 <= atoi v <= 128 -> MIN (MAX (atoi v) 1) 128 = atoi v)) /\
  (forall x pre a',
     is_flag x = true -> parse_args atoi (prog :: pre) a = Ret a' ->
     parse_args atoi (prog :: pre ++ [x]) a = NullArg).
Proof.
  split; [|split; [|split; [|split]]].
  - intros x rest Hx. rewrite !parse_args_scan. cbn [skipn scan].
    unfold is_flag in Hx. apply orb_false_iff in Hx. destruct Hx as (Hx & H3).
    apply orb_false_iff in Hx. destruct Hx as (H1 & H2).
    now rewrite H1, H2, H3.
  - intros v rest. rewrite !parse_args_scan. cbn [skipn scan].
    rewrite String.eqb_refl. destruct (set_name v); cbn [and_then]; auto.
    now rewrite parse_args_scan.
  - intros v rest. rewrite !parse_args_scan. cbn [skipn scan].
    change (String.eqb "-out" "-in") with false. cbv iota.
    rewrite String.eqb_refl. destruct (set_name v); cbn [and_then]; auto.
    now rewrite parse_args_scan.
  - intros v rest. split; [|split].
    + rewrite !parse_args_scan. cbn [skipn scan].
      change (String.eqb "-nproc" "-in") with false.
      change (String.eqb "-nproc" "-out") with false. cbv iota.
      now rewrite String.eqb_refl.
    + unfold MIN, MAX. destruct (Z.gtb_spec (atoi v) 1);
        match goal with |- context [?x <? 128] =>
          destruct (Z.ltb_spec x 128) end; lia.
    + intros Hv. unfold MIN, MAX. destruct (Z.gtb_spec (atoi v) 1);
        match goal with |- context [?x <? 128] =>
          destruct (Z.ltb_spec x 128) end; lia.
  - intros x pre a' Hx E. rewrite parse_args_scan in *. cbn [skipn] in *.
    rewrite (scan_app atoi pre [x] a a' E). cbn [scan].
    unfold is_flag in Hx.
    destruct (String.eqb x "-in"); [reflexivity|].
    destruct (String.eqb x "-out"); [reflexivity|].
    destruct (String.eqb x "-nproc"); [reflexivity|discriminate].
Qed.

Lemma scan_inv (atoi : String.string -> Z) (Q : Args -> Prop) :
  (forall a v nam, Q a -> set_name v = Ret nam ->
                   Q (mkArgs nam (OutNam a) (nproc a))) ->
  (forall a v nam, Q a -> set_name v = Ret nam ->
                   Q (mkArgs (InpNam a) nam (nproc a))) ->
  (forall a v, Q a ->
               Q (mkArgs (InpNam a) (OutNam a) (MIN (MAX (atoi v) 1) 128))) ->
  forall l a a', Q a -> scan atoi l a = Ret a' -> Q a'.
Proof.
  intros Hin Hout Hcpu l.
  induction l as [l IH] using scan_len_ind. intros a a' Qa E.
  destruct l as [|x l]; cbn [scan] in E.
  { now injection E as <-. }
  destruct (String.eqb x "-in").
  { destruct l as [|v l'']; [discriminate|].
    destruct (set_name v) as [nam| | | | |] eqn:Ev; cbn [and_then] in E;
      try discriminate.
    apply (IH l'' ltac:(simpl; lia) _ a' (Hin a v nam Qa Ev) E). }
  destruct (String.eqb x "-out").
  { destruct l as [|v l'']; [discriminate|].
    destruct (set_name v) as [nam| | | | |] eqn:Ev; cbn [and_then] in E;
      try discriminate.
    apply (IH l'' ltac:(simpl; lia) _ a' (Hout a v nam Qa Ev) E). }
  destruct (String.eqb x "-nproc").
  { destruct l as [|v l'']; [discriminate|].
    apply (IH l'' ltac:(simpl; lia) _ a' (Hcpu a v Qa) E). }
  apply (IH l ltac:(simpl; lia) a a' Qa E).
Qed.

(** What [main] has in hand when it goes on after the command line. *)
Lemma main_cmdline_ret (atoi : String.string -> Z)
  (argv : list String.string) (junk_in junk_out : String.string) (a : Args) :
  main_cmdline atoi argv junk_in junk_out = Ret a ->
  scan atoi (skipn 1 argv) (mkArgs junk_in junk_out 0) = Ret a /\
  InpNam a <> String.EmptyString /\ OutNam a <> String.EmptyString.
Proof.
  unfold main_cmdline. destruct (_ =? 1); [discriminate|].
  rewrite parse_args_scan.
  destruct (scan atoi (skipn 1 argv) _) as [b| | | | |]; cbn [and_then];
    try discriminate.
  destruct (InpNam b) as [|c1 s1] eqn:E1; cbn [String.length Nat.eqb];
    [discriminate|].
  destruct (OutNam b) as [|c2 s2] eqn:E2; cbn [String.length Nat.eqb];
    [discriminate|].
  intros E. injection E as <-. rewrite E1, E2. repeat split; discriminate.
Qed.




Lemma length_append (s t : String.string) :
  String.length (String.append s t) = (String.length s + String.length t)%nat.
Proof. induction s as [|c s IH]; simpl; auto. Qed.

Lemma strstr_append (s t n : String.string) :
  String.prefix n t = true -> strstr (String.append s t) n = true.
Proof.
  intros H. induction s as [|c s IH]; cbn [String.append].
  - destruct t; cbn [strstr]; now rewrite H.
  - cbn [strstr]. rewrite IH. apply orb_true_r.
Qed.

Lemma set_name_ret (v nam : String.string) :
  set_name v = Ret nam ->
  strstr nam ".mesh" = true /\
  Z.of_nat (String.length nam) < 1000 /\
  (nam = v \/ nam = String.append v ".meshb").
Proof.
  unfold set_name.
  destruct (Z.ltb_spec 1000 (Z.of_nat (String.length v) + 1)); [discriminate|].
  destruct (strstr v ".mesh") eqn:Es.
  - intros E. injection E as <-. repeat split; auto. lia.
  - destruct (Z.ltb_spec 1000 (Z.of_nat (String.length v) + 6 + 1));
      [discriminate|].
    intros E. injection E as <-. split; [|split; [|auto]].
    + now apply strstr_append.
    + rewrite length_append. cbn [String.length]. lia.
Qed.

(** X17: the file names that the command line sets.  [main] copies the
    argument of [-in] or [-out] into a buffer of 1000 bytes without any
    test of its length.  When the copy and the suffix stay inside the
    buffer, the stored name contains [.mesh], is the argument itself when
    that contains [.mesh] and the argument followed by [.meshb] otherwise,
    and storing the stored name again leaves it as it is. *)
Theorem set_name_stable (v nam : String.string) :
  set_name v = Ret nam ->
  strstr nam ".mesh" = true /\
  (strstr v ".mesh" = true -> nam = v) /\
  (strstr v ".mesh" = false -> nam = String.append v ".meshb") /\
  set_name nam = Ret nam.
Proof.
  intros E. destruct (set_name_ret v nam E) as (S1 & S2 & S3).
  split; [exact S1|]. split; [|split].
  - intros Hv. unfold set_name in E. rewrite Hv in E.
    destruct (1000 <? _); [discriminate|]. now injection E as <-.
  - intros Hv. unfold set_name in E. rewrite Hv in E.
    destruct (1000 <? _); [discriminate|].
    destruct (1000 <? _); [discriminate|]. now injection E as <-.
  - unfold set_name. rewrite S1.
    destruct (Z.ltb_spec 1000 (Z.of_nat (String.length nam) + 1));
      [lia|reflexivity].
Qed.

Lemma set_name_stable_witness :
  strstr "cube.meshb" ".mesh" = true /\
  (strstr "cube" ".mesh" = true -> "cube.meshb"%string = "cube"%string) /\
  (strstr "cube" ".mesh" = false ->
   "cube.meshb"%string = String.append "cube" ".meshb") /\
  set_name "cube.meshb" = Ret "cube.meshb"%string.
Proof. apply (set_name_stable "cube" "cube.meshb"). reflexivity. Defined.

(** X18: when [main] goes on after reading the command line, each of the
    two file names is not empty, and is either what its uninitialised
    buffer held on entry or a name that contains [.mesh]. *)
Theorem names_after_cmdline (atoi : String.string -> Z)
  (argv : list String.string) (junk_in junk_out : String.string) (a : Args) :
  main_cmdline atoi argv junk_in junk_out = Ret a ->
  InpNam a <> String.EmptyString /\ OutNam a <> String.EmptyString /\
  (InpNam a = junk_in \/ strstr (InpNam a) ".mesh" = true) /\
  (OutNam a = junk_out \/ strstr (OutNam a) ".mesh" = true).
Proof.
  intros E. apply main_cmdline_ret in E. destruct E as (E & N1 & N2).
  split; [exact N1|]. split; [exact N2|].
  revert E.
  apply (scan_inv atoi
           (fun a => (InpNam a = junk_in \/
                      strstr (InpNam a) ".mesh" = true) /\
                     (OutNam a = junk_out \/
                      strstr (OutNam a) ".mesh" = true)));
    cbn [InpNam OutNam nproc]; auto.
  - intros b v nam (_ & Q2) Ev. apply set_name_ret in Ev. tauto.
  - intros b v nam (Q1 & _) Ev. apply set_name_ret in Ev. tauto.
Qed.

Lemma names_after_cmdline_witness :
  InpNam (mkArgs "a.meshb" "b.mesh" 128) <> String.EmptyString /\
  OutNam (mkArgs "a.meshb" "b.mesh" 128) <> String.EmptyString /\
  (InpNam (mkArgs "a.meshb" "b.mesh" 128) = "junk"%string \/
   strstr (InpNam (mkArgs "a.meshb" "b.mesh" 128)) ".mesh" = true) /\
  (OutNam (mkArgs "a.meshb" "b.mesh" 128) = "junk"%string \/
   strstr (OutNam (mkArgs "a.meshb" "b.mesh" 128)) ".mesh" = true).
Proof.
  apply (names_after_cmdline (fun _ => 1000)
           ["tn"; "-in"; "a"; "-nproc"; "1000"; "-out"; "b.mesh"]%string
           "junk" "junk").
  reflexivity.
Defined.

Lemma scan_no_flag (atoi : String.string -> Z) (l : list String.string)
  (a : Args) :
  (forall x, In x l -> is_flag x = false) -> scan atoi l a = Ret a.
Proof.
  induction l as [|x l IH]; intros H; cbn [scan]; [reflexivity|].
  pose proof (H x (or_introl eq_refl)) as Hx.
  unfold is_flag in Hx. apply orb_false_iff in Hx. destruct Hx as (Hx & H3).
  apply orb_false_iff in Hx. destruct Hx as (H1 & H2).
  rewrite H1, H2, H3. apply IH. intros y Hy. apply H. now right.
Qed.

(** X19: without [-in] and [-out] the two tests for a missing name read
    the buffers that [main] never initialised: when no argument is an
    option, [main] leaves with [exit(1)] only if one of the buffers
    happened to start with a zero byte, and otherwise goes on to read and
    write the files named by what the buffers held. *)
Theorem missing_names_read_uninitialised (atoi : String.string -> Z)
  (argv : list String.string) (junk_in junk_out : String.string) :
  (forall x, In x (skipn 1 argv) -> is_flag x = false) ->
  main_cmdline atoi argv junk_in junk_out =
    if Z.of_nat (length argv) =? 1 then Exit 0
    else if (String.length junk_in =? 0)%nat then Exit 1
    else if (String.length junk_out =? 0)%nat then Exit 1
    else Ret (mkArgs junk_in junk_out 0).
Proof.
  intros H. unfold main_cmdline.
  destruct (_ =? 1); [reflexivity|].
  rewrite parse_args_scan, scan_no_flag by exact H. reflexivity.
Qed.

Lemma missing_names_read_uninitialised_witness :
  main_cmdline (fun _ => 0) ["tn"; "cube.mesh"; "out.mesh"]%string
               "left" "over" =
  Ret (mkArgs "left" "over" 0).
Proof.
  apply (missing_names_read_uninitialised (fun _ => 0)
           ["tn"; "cube.mesh"; "out.mesh"]%string "left" "over").
  intros x Hx. simpl in Hx.
  destruct Hx as [<- | [<- | []]]; reflexivity.
Defined.

(** ** Bounds of the tables on any mesh *)

Lemma chained_init (H : Z) :
  0 < H -> chained H H (repeat hsh0 (Z.to_nat (5 * H))).
Proof.
  intros HH. split; [exact HH|]. split; [rewrite repeat_length; lia|].
  intros s. rewrite rd_repeat. cbn. congruence.
Qed.

Lemma chained_store (H cp key i j : Z) (pos : Z * Z * Z) (tb : list HshSct) :
  chained H cp tb ->
  chained H cp (wr tb key (store (rd hsh0 tb key) i j pos)).
Proof.
  intros (C1 & C2 & C3). destruct pos as [[mn md] mx].
  split; [exact C1|]. split; [now rewrite length_wr|].
  intros s. rewrite rd_wr_gen.
  destruct (Z.eqb_spec s key) as [->|Hne]; cbn [andb]; [|apply C3].
  destruct (inb tb key); [cbn [store nex]|]; apply C3.
Qed.

Lemma chained_append (H cp key i j : Z) (pos : Z * Z * Z)
  (tb : list HshSct) :
  chained H cp tb -> 0 <= key < cp -> cp < Z.of_nat (length tb) ->
  chained H (cp + 1)
    (wr (wr tb key (set_nex (rd hsh0 tb key) cp)) cp
        (store (rd hsh0 (wr tb key (set_nex (rd hsh0 tb key) cp)) cp)
               i j pos)).
Proof.
  intros (C1 & C2 & C3) Hk Hc. destruct pos as [[mn md] mx].
  split; [exact C1|]. split; [rewrite !length_wr; lia|].
  assert (Z0 : nex (rd hsh0 tb cp) = 0).
  { destruct (Z.eq_dec (nex (rd hsh0 tb cp)) 0) as [|Hn]; [assumption|].
    specialize (C3 cp Hn). lia. }
  assert (I1 : inb (wr tb key (set_nex (rd hsh0 tb key) cp)) cp = true).
  { apply inb_true. rewrite length_wr. lia. }
  assert (I2 : inb tb key = true) by (apply inb_true; lia).
  intros s. rewrite rd_wr_gen, I1.
  destruct (Z.eqb_spec s cp) as [->|Hne]; cbn [andb].
  - cbn [store nex]. rewrite rd_wr_other by lia. rewrite Z0. congruence.
  - rewrite rd_wr_gen, I2.
    destruct (Z.eqb_spec s key) as [->|Hne']; cbn [andb].
    + cbn [set_nex nex]. lia.
    + intros Hn. specialize (C3 s Hn). lia.
Qed.

Lemma walk1_safe (tets : list TetSct) (H i j : Z) (pos k : Z * Z * Z) :
  forall (fuel : nat) (key : Z) (w : Loc),
    chained H (lColPos w) (ltab w) ->
    0 <= key < lColPos w -> lColPos w < Z.of_nat (length (ltab w)) ->
    lColPos w - key <= Z.of_nat fuel ->
    exists w', walk1 fuel tets i j pos k key w = Ok w' /\
      chained H (lColPos w') (ltab w') /\
      length (ltab w') = length (ltab w) /\
      lColPos w' <= lColPos w + 1.
Proof.
  induction fuel as [|fuel IH]; intros key w C Hk Hc Hf; [lia|].
  cbn [walk1].
  assert (I1 : inb (ltab w) key = true) by (apply inb_true; lia).
  rewrite I1. cbn [negb].
  destruct (same_face tets (rd hsh0 (ltab w) key) k).
  { eexists. split; [reflexivity|]. cbn [link ltab lColPos].
    split; [exact C|]. split; [reflexivity|lia]. }
  destruct (Z.eqb_spec (nex (rd hsh0 (ltab w) key)) 0) as [Hn|Hn];
    cbn [negb].
  - unfold append1.
    assert (I2 : inb (ltab w) (lColPos w) = true) by (apply inb_true; lia).
    rewrite I2. cbn [negb]. eexists. split; [reflexivity|].
    cbn [ltab lColPos]. split; [now apply chained_append|].
    split; [now rewrite !length_wr|lia].
  - destruct C as (C1 & C2 & C3). pose proof (C3 key Hn) as B.
    apply IH; try lia. now split.
Qed.

Section Safe1.
Variables (tets : list TetSct) (T msk H lo hi : Z).
Hypothesis Hhash : forall k, 0 <= hash msk k < H.
Hypothesis HH : 0 < H.
Hypothesis Hlo : 1 <= lo.
Hypothesis Hhi : hi <= T.
Hypothesis Hdist : forall i, 1 <= i <= T -> distinct_tet (tet_at tets i).
Hypothesis Hload : hi - lo + 1 <= H.

Lemma face1_safe (P R : list (Z * Z)) (f : Z * Z) (w : Loc) :
  faces lo hi = P ++ f :: R ->
  safe1 H P w ->
  exists w', face1 tets msk (fst f) w (snd f) = Ok w' /\
             safe1 H (P ++ [f]) w'.
Proof.
  intros E (C & L & B). destruct f as [i j]. cbn [fst snd].
  assert (Hin : In (i, j) (faces lo hi)) by (rewrite E; apply in_elt).
  apply In_faces in Hin. destruct Hin as (Hi & Hj).
  assert (Len : Z.of_nat (length P) + 1 <= 4 * H).
  { pose proof (length_faces lo hi) as LF. rewrite E in LF.
    rewrite length_app in LF. cbn [length] in LF. lia. }
  pose proof (canon_sorted (tet_at tets i) j (Hdist i ltac:(lia)) Hj) as S.
  unfold face1. destruct (canon (tet_at tets i) j) as [[mn md] mx].
  destruct S as (_ & Bd & _).
  destruct (Z.ltb_spec md 4) as [_|]; [|lia]. cbn [negb].
  set (key := hash msk (idx (tet_at tets i) mn, idx (tet_at tets i) md,
                        idx (tet_at tets i) mx)).
  pose proof (Hhash (idx (tet_at tets i) mn, idx (tet_at tets i) md,
                     idx (tet_at tets i) mx)) as Bk. fold key in Bk.
  pose proof C as (C1 & C2 & C3).
  assert (I1 : inb (ltab w) key = true) by (apply inb_true; lia).
  rewrite I1. cbn [negb].
  destruct (htet (rd hsh0 (ltab w) key) =? 0).
  - eexists. split; [reflexivity|]. unfold safe1. cbn [ltab lColPos].
    split; [now apply chained_store|]. rewrite length_wr, length_app.
    cbn [length]. lia.
  - destruct (walk1_safe tets H i j (mn, md, mx)
                (idx (tet_at tets i) mn, idx (tet_at tets i) md,
                 idx (tet_at tets i) mx)
                (length (ltab w)) key w C) as (w' & Ew & C' & L' & B');
      try lia.
    exists w'. split; [exact Ew|]. unfold safe1.
    split; [exact C'|]. rewrite L', length_app. cbn [length]. lia.
Qed.

Lemma worker1_safe (Flg0 Ngb0 : list Z) :
  exists w,
    foldM (tet1 tets msk) (Zrange lo hi)
          (mkLoc (repeat hsh0 (Z.to_nat (5 * H))) H Flg0 Ngb0) = Ok w /\
    safe1 H (faces lo hi) w.
Proof.
  unfold tet1. rewrite foldM_flat. fold (faces lo hi).
  apply (foldM_prefix _ (fun P w => safe1 H P w)).
  - intros P f R w E I. now apply (face1_safe P R f w).
  - unfold safe1. cbn [ltab lColPos length].
    split; [now apply chained_init|]. rewrite repeat_length. lia.
Qed.
End Safe1.

Lemma walk2_safe (tets : list TetSct) (H cp : Z) (tb : list HshSct)
  (k : Z * Z * Z) :
  chained H cp tb -> Z.of_nat (length tb) <= 2 ^ 31 ->
  forall (fuel : nat) (key : Z),
    0 <= key < cp -> cp - key <= Z.of_nat fuel ->
    exists r, walk2 fuel tets tb k key = Ok r.
Proof.
  intros (C1 & C2 & C3) Hs.
  induction fuel as [|fuel IH]; intros key Hk Hf; [lia|].
  cbn [walk2].
  assert (I1 : inb tb key = true) by (apply inb_true; lia).
  rewrite I1. cbn [negb].
  destruct (same_face tets (rd hsh0 tb key) k); [eauto|].
  destruct (Z.eqb_spec (nex (rd hsh0 tb key)) 0) as [Hn|Hn];
    cbn [negb]; [eauto|].
  pose proof (C3 key Hn) as B.
  rewrite wrap32_small by lia. apply IH; lia.
Qed.

Section Safe.
Variables (tets : list TetSct) (T N : Z).
Hypothesis HT : 1 <= T.
Hypothesis HN : 1 <= N.
Hypothesis Hdist : forall i, 1 <= i <= T -> distinct_tet (tet_at tets i).
Hypothesis Hload : T - (N - 1) * (T / N) <= hsh_siz T N.

Lemma built_init : built T N [] (init_state T N).
Proof.
  split; [apply setup_par_length|].
  intros c Hc. cbn [init_state par].
  destruct (setup_par_ok T N c ltac:(lia) HN Hc) as (P1 & P2).
  split; [exact P1|]. split; [auto|intros []].
Qed.

Lemma ParNgb1_safe (sched D R : list Z) (c : Z) (st : State) :
  schedule N sched -> sched = D ++ c :: R ->
  built T N D st ->
  exists st', ParNgb1 tets c st = Ok st' /\ built T N (D ++ [c]) st'.
Proof.
  intros (ND & Hsc) ED (Lp & B).
  assert (Hc : 0 <= c < N) by (apply Hsc; rewrite ED; apply in_elt).
  assert (HcD : ~ In c D).
  { rewrite ED in ND.
    apply NoDup_remove_2 in ND. intros X. apply ND. apply in_or_app; auto. }
  destruct (B c Hc) as ((Eb & Ee & Es & Em & En) & Td & _).
  pose proof (Td HcD) as Ec.
  destruct (worker1_safe tets T (hsh_siz T N - 1) (hsh_siz T N)
              (dbeg T N c) (dend T N c)
              (hash_range T N) (hsh_siz_pos T N)) with
    (Flg0 := FlgTab st) (Ngb0 := NgbTab st) as (w & Ew & C & L & _); auto.
  { unfold dbeg. pose proof (MshSiz_bounds T N HT HN). nia. }
  { pose proof (dom_inside T N HT HN c (dend T N c) Hc) as X.
    destruct (Z_lt_le_dec (dend T N c) (dbeg T N c)) as [Y|Y]; [|lia].
    unfold dbeg in Y. pose proof (MshSiz_bounds T N HT HN). nia. }
  { now apply dom_size. }
  unfold ParNgb1. rewrite Eb, Ee, Es, Em, En, Ec, Ew. cbn [bind].
  eexists. split; [reflexivity|].
  split; [cbn [par]; now rewrite length_wr|].
  intros c' Hc'. cbn [par]. rewrite rd_wr by lia.
  destruct (Z.eqb_spec c' c) as [->|Hne].
  - split; [unfold par_ok; cbn; auto|]. split.
    + intros X. exfalso. apply X. apply in_or_app. simpl. auto.
    + intros _. cbn [ColPos tab]. auto.
  - destruct (B c' Hc') as (P1 & P2 & P3). split; [exact P1|]. split.
    + intros X. apply P2. intros Y. apply X. apply in_or_app. auto.
    + intros X. apply P3. apply in_app_iff in X. simpl in X.
      destruct X as [X|[X|[]]]; [exact X|congruence].
Qed.

Lemma phase1_safe (sched : list Z) :
  schedule N sched ->
  exists st, LaunchSched (ParNgb1 tets) sched (init_state T N) = Ok st /\
             built T N sched st.
Proof.
  intros Hs. unfold LaunchSched.
  apply (foldM_prefix _ (fun D st => built T N D st)).
  - intros D c R st E G. now apply (ParNgb1_safe sched D R c st).
  - apply built_init.
Qed.

Hypothesis Hsmall : 5 * hsh_siz T N <= 2 ^ 31.

Lemma face2_safe (sched : list Z) (c i j : Z) (st : State) :
  schedule N sched -> built T N sched st ->
  0 <= c < N -> 1 <= i <= T -> 0 <= j < 4 ->
  exists st', face2 tets c i st j = Ok st' /\ par st' = par st.
Proof.
  intros (_ & Hsc) (Lp & B) Hc Hi Hj. unfold face2.
  destruct (negb (ngb (NgbTab st) i j =? 0)); [eauto|].
  pose proof (canon_sorted (tet_at tets i) j (Hdist i Hi) Hj) as S.
  destruct (canon (tet_at tets i) j) as [[mn md] mx].
  destruct S as (_ & Bd & _).
  destruct (Z.ltb_spec md 4) as [_|]; [|lia]. cbn [negb].
  destruct (B c Hc) as ((_ & _ & _ & Em & En) & _). rewrite Em, En.
  set (k := (idx (tet_at tets i) mn, idx (tet_at tets i) md,
             idx (tet_at tets i) mx)).
  assert (Hs : hsh_siz T N <= 2 ^ 31) by (pose proof (hsh_siz_pos T N); lia).
  rewrite (int_key_hash T N k Hs).
  destruct (foldM_prefix
              (probe tets (par st) c k (hash (hsh_siz T N - 1) k))
              (fun _ _ => True) (Zseq 0 (Z.to_nat N)))
    with (s := @None Z) as (r & Er & _); [|exact I|].
  - intros Dn n R r E _.
    assert (Hn : 0 <= n < N).
    { assert (X : In n (Zseq 0 (Z.to_nat N))) by (rewrite E; apply in_elt).
      apply In_Zseq in X. lia. }
    unfold probe. destruct r as [m|]; [eauto|].
    destruct (n =? c); [eauto|].
    destruct (B n Hn) as (_ & _ & Dn'). apply Hsc in Hn.
    destruct (Dn' Hn) as (C & L).
    pose proof (hash_range T N k) as Bk. pose proof C as (_ & C2 & _).
    destruct (walk2_safe tets _ _ _ k C ltac:(lia)
                (length (tab (rd par0 (par st) n)))
                (hash (hsh_siz T N - 1) k)) as (r & Er); try lia.
    exists r. auto.
  - rewrite Er. cbn [bind]. destruct r; eauto.
Qed.

Lemma ParNgb2_safe (sched : list Z) (c : Z) (st : State) :
  schedule N sched -> built T N sched st -> 0 <= c < N ->
  exists st', ParNgb2 tets c st = Ok st' /\ par st' = par st.
Proof.
  intros Hs B Hc. unfold ParNgb2.
  destruct B as (Lp & B0). pose proof (conj Lp B0) as B.
  destruct (B0 c Hc) as ((Eb & Ee & _) & _). rewrite Eb, Ee.
  destruct (foldM_prefix (tet2 tets c) (fun _ s => par s = par st)
              (Zrange (dbeg T N c) (dend T N c)))
    with (s := st) as (s' & Es & Ps); [|reflexivity|eauto].
  intros P i R s E Ps.
  assert (Hi : 1 <= i <= T).
  { assert (X : In i (Zrange (dbeg T N c) (dend T N c)))
      by (rewrite E; apply in_elt).
    apply In_Zrange in X. now apply (dom_inside T N HT HN c i). }
  unfold tet2. destruct (rd 0 (FlgTab s) i =? 4); [eauto|].
  destruct (foldM_prefix (face2 tets c i) (fun _ s' => par s' = par st)
              [0; 1; 2; 3]) with (s := s) as (s' & Es & Ps');
    [|exact Ps|eauto].
  intros P' j R' s1 E' P1.
  assert (Hj : 0 <= j < 4).
  { assert (X : In j [0; 1; 2; 3]) by (rewrite E'; apply in_elt).
    simpl in X. lia. }
  destruct (face2_safe sched c i j s1 Hs) as (s2 & E2 & P2); auto.
  { unfold built. rewrite P1. exact B. }
  exists s2. split; [exact E2|congruence].
Qed.

Lemma phase2_safe (sched s2 : list Z) (st : State) :
  schedule N sched -> schedule N s2 -> built T N sched st ->
  exists st', LaunchSched (ParNgb2 tets) s2 st = Ok st' /\
              par st' = par st.
Proof.
  intros Hs (_ & Hs2) B. unfold LaunchSched.
  apply (foldM_prefix _ (fun _ s => par s = par st)); [|reflexivity].
  intros P c R s E Ps.
  assert (Hc : 0 <= c < N) by (apply Hs2; rewrite E; apply in_elt).
  destruct (ParNgb2_safe sched c s Hs) as (s' & Es & P'); auto.
  { destruct B as (Lp & B0). unfold built. rewrite Ps. now split. }
  exists s'. split; [exact Es|congruence].
Qed.
End Safe.

(** X20: on every mesh whose tets have pairwise distinct vertex indices,
    whatever the number of tets that share a face, when the remainder of
    [NmbTet / NmbCpu] is at most the quotient plus one (as it is when
    [NmbTet >= NmbCpu * (NmbCpu - 2)]), the first launch completes in any
    order of its workers without leaving a hash table, every chain walk
    ends, and every worker ends with its cursor [ColPos] between [HshSiz]
    and the [5 * HshSiz] slots of its table. *)
Theorem phase_one_fits (msh : MshSct) (N : Z) (s1 : list Z) :
  1 <= NmbTet msh -> distinct_mesh msh -> 1 <= N ->
  NmbTet msh mod N <= NmbTet msh / N + 1 ->
  schedule N s1 ->
  exists st1,
    LaunchSched (ParNgb1 (tet msh)) s1 (init_state (NmbTet msh) N) = Ok st1 /\
    forall c, 0 <= c < N ->
      HshSiz (rd par0 (par st1) c) = hsh_siz (NmbTet msh) N /\
      HshSiz (rd par0 (par st1) c) <= ColPos (rd par0 (par st1) c)
        <= 5 * HshSiz (rd par0 (par st1) c) /\
      Z.of_nat (length (tab (rd par0 (par st1) c))) =
        5 * HshSiz (rd par0 (par st1) c).
Proof.
  intros HT D HN Hr S1.
  assert (L : last_fits (NmbTet msh) N) by (apply last_fits_suff; lia).
  destruct (phase1_safe (tet msh) (NmbTet msh) N HT HN D L s1 S1)
    as (st1 & E1 & (_ & B)).
  exists st1. split; [exact E1|].
  intros c Hc. destruct (B c Hc) as ((_ & _ & Es & _) & _ & Dn).
  destruct (Dn (proj2 (proj2 S1 c) Hc)) as ((_ & Sz & _) & Lt).
  rewrite Es. split; [reflexivity|]. split; [lia|exact Lt].
Qed.

Lemma phase_one_fits_witness :
  exists st1,
    LaunchSched
      (ParNgb1 (tet0 :: [mkTet 1 2 3 4 0; mkTet 1 2 3 5 0; mkTet 1 2 3 6 0]))
      [1; 0] (init_state 3 2) = Ok st1 /\
    forall c, 0 <= c < 2 ->
      HshSiz (rd par0 (par st1) c) = hsh_siz 3 2 /\
      HshSiz (rd par0 (par st1) c) <= ColPos (rd par0 (par st1) c)
        <= 5 * HshSiz (rd par0 (par st1) c) /\
      Z.of_nat (length (tab (rd par0 (par st1) c))) =
        5 * HshSiz (rd par0 (par st1) c).
Proof.
  apply (phase_one_fits
           (mesh_of tet0 [mkTet 1 2 3 4 0; mkTet 1 2 3 5 0; mkTet 1 2 3 6 0])
           2).
  - vm_compute. discriminate.
  - intros i Hi. change (NmbTet _) with 3 in Hi.
    assert (E : i = 1 \/ i = 2 \/ i = 3) by lia.
    destruct E as [-> | [-> | ->]]; vm_compute; repeat split; discriminate.
  - lia.
  - vm_compute. discriminate.
  - split; [repeat constructor; simpl; lia|intros c; simpl; lia].
Defined.

(** X21: under the same hypotheses and with [5 * HshSiz <= 2^31], both
    launches complete, in any order of the workers of each: no access
    leaves a hash table and every chain walk of either phase ends, also on
    meshes in which a face is shared by more than two tets. *)
Theorem tables_stay_in_bounds (msh : MshSct) (N : Z) (s1 s2 : list Z) :
  1 <= NmbTet msh -> distinct_mesh msh -> 1 <= N ->
  NmbTet msh mod N <= NmbTet msh / N + 1 ->
  int_indexed (NmbTet msh) N ->
  schedule N s1 -> schedule N s2 ->
  exists st, neighbours_sched msh N s1 s2 = Ok st.
Proof.
  intros HT D HN Hr I S1 S2.
  assert (L : last_fits (NmbTet msh) N) by (apply last_fits_suff; lia).
  destruct (phase1_safe (tet msh) (NmbTet msh) N HT HN D L s1 S1)
    as (st1 & E1 & B).
  unfold neighbours_sched. rewrite E1. cbn [bind].
  destruct (1 <? N); [|eauto].
  destruct (phase2_safe (tet msh) (NmbTet msh) N HT HN D I s1 s2 st1 S1 S2 B)
    as (st & E2 & _).
  eauto.
Qed.

Lemma tables_stay_in_bounds_witness :
  exists st,
    neighbours_sched
      (mesh_of tet0 [mkTet 1 2 3 4 0; mkTet 1 2 3 5 0; mkTet 1 2 3 6 0])
      2 [1; 0] [0; 1] = Ok st.
Proof.
  apply (tables_stay_in_bounds
           (mesh_of tet0 [mkTet 1 2 3 4 0; mkTet 1 2 3 5 0; mkTet 1 2 3 6 0])
           2).
  - vm_compute. discriminate.
  - intros i Hi. change (NmbTet _) with 3 in Hi.
    assert (E : i = 1 \/ i = 2 \/ i = 3) by lia.
    destruct E as [-> | [-> | ->]]; vm_compute; repeat split; discriminate.
  - lia.
  - vm_compute. discriminate.
  - vm_compute. discriminate.
  - split; [repeat constructor; simpl; lia|intros c; simpl; lia].
  - split; [repeat constructor; simpl; lia|intros c; simpl; lia].
Defined.

(** ** Faces with the same key *)

(** X22: two faces of tets with pairwise distinct vertex indices have the
    same canonical key exactly when they have the same three vertices, in
    whatever order the two tets list them: the faces that the two phases
    link are the faces with the same vertex set. *)
Theorem same_key_same_vertices (tets : list TetSct) (Ngb : list Z)
  (i j i' j' : Z) :
  distinct_tet (tet_at tets i) -> distinct_tet (tet_at tets i') ->
  0 <= j < 4 -> 0 <= j' < 4 ->
  (fkey tets (i, j) = fkey tets (i', j') <->
   forall v, In v (tri_idx (mk_tri tets Ngb i j)) <->
             In v (tri_idx (mk_tri tets Ngb i' j'))).
Proof.
  intros D D' Hj Hj'.
  pose proof (tri_idx_key tets Ngb i j D Hj) as K.
  pose proof (tri_idx_key tets Ngb i' j' D' Hj') as K'.
  pose proof (ckey_increasing (tet_at tets i) j D Hj) as O.
  pose proof (ckey_increasing (tet_at tets i') j' D' Hj') as O'.
  change (ckey (tet_at tets i) j) with (fkey tets (i, j)) in O.
  change (ckey (tet_at tets i') j') with (fkey tets (i', j')) in O'.
  destruct (fkey tets (i, j)) as [[a b] c].
  destruct (fkey tets (i', j')) as [[a' b'] c']. cbn [fst snd] in *.
  split.
  - intros E v. injection E as -> -> ->. rewrite K, K'. tauto.
  - intros Hv.
    assert (Xa : a = a' \/ a = b' \/ a = c') by (apply K', Hv, K; auto).
    assert (Xb : b = a' \/ b = b' \/ b = c') by (apply K', Hv, K; auto).
    assert (Xc : c = a' \/ c = b' \/ c = c') by (apply K', Hv, K; auto).
    assert (Ya : a' = a \/ a' = b \/ a' = c) by (apply K, Hv, K'; auto).
    assert (Yb : b' = a \/ b' = b \/ b' = c) by (apply K, Hv, K'; auto).
    assert (Yc : c' = a \/ c' = b \/ c' = c) by (apply K, Hv, K'; auto).
    assert (E : a = a' /\ b = b' /\ c = c') by lia.
    destruct E as (-> & -> & ->). reflexivity.
Qed.

Lemma same_key_same_vertices_witness :
  fkey (tet0 :: two_tets 7 8) (1, 3) = fkey (tet0 :: two_tets 7 8) (2, 3) <->
  forall v, In v (tri_idx (mk_tri (tet0 :: two_tets 7 8) [] 1 3)) <->
            In v (tri_idx (mk_tri (tet0 :: two_tets 7 8) [] 2 3)).
Proof.
  apply (same_key_same_vertices (tet0 :: two_tets 7 8) [] 1 3 2 3).
  - vm_compute. repeat split; discriminate.
  - vm_compute. repeat split; discriminate.
  - lia.
  - lia.
Defined.

(** ** Between the two launches *)



(** ** Size of the tables *)

Lemma sum_const (f : Z -> Z) (k : Z) (l : list Z) :
  (forall c, In c l -> f c = k) ->
  fold_right Z.add 0 (map f l) = Z.of_nat (length l) * k.
Proof.
  induction l as [|c l IH]; intros H; [reflexivity|].
  cbn [map fold_right length]. rewrite (H c (or_introl eq_refl)).
  rewrite IH by (intros c' Hc'; apply H; now right). lia.
Qed.

(** X24: the tables are linear in the mesh.  [ParNgb1] allocates
    [5 * HshSiz] slots for each worker; summed over the [NmbCpu] workers
    this is at least [5 * (NmbCpu + 2 * NmbTet)] and at most
    [5 * (2 * NmbCpu + 4 * NmbTet)] slots. *)
Theorem table_memory_bound (T N : Z) :
  0 <= T -> 1 <= N ->
  5 * (N + 2 * T)
  <= fold_right Z.add 0
       (map (fun c => 5 * HshSiz (rd par0 (setup_par T N) c))
            (Zseq 0 (Z.to_nat N)))
  <= 5 * (2 * N + 4 * T).
Proof.
  intros HT HN.
  rewrite (sum_const _ (5 * hsh_siz T N)).
  - rewrite length_Zseq, Z2Nat.id by lia.
    pose proof (dec_ge T N HT HN). pose proof (dec_le T N HT HN).
    rewrite hsh_siz_pow2. lia.
  - intros c Hc. apply In_Zseq in Hc.
    assert (Hc' : 0 <= c < N) by lia.
    destruct (setup_par_ok T N c HT HN Hc') as ((_ & _ & Es & _) & _).
    now rewrite Es.
Qed.

Lemma table_memory_bound_witness :
  5 * (2 + 2 * (2 ^ 29 - 1))
  <= fold_right Z.add 0
       (map (fun c => 5 * HshSiz (rd par0 (setup_par (2 ^ 29 - 1) 2) c))
            (Zseq 0 (Z.to_nat 2)))
  <= 5 * (2 * 2 + 4 * (2 ^ 29 - 1)).
Proof. apply (table_memory_bound (2 ^ 29 - 1) 2); lia. Defined.
